(** * Register allocator of the lightning VM back-end (src/ir/mopt_ralloc.cpp,
      include/ir/arch.hpp): a shallow embedding and its properties.

    Unsigned machine integers ([size_t], [uint32_t], [uint8_t]) are values of
    [N], signed ones ([int32_t], [intptr_t]) values of [Z]; where the source can
    wrap, the wrap is written out.  Vectors are lists, read with [!!] and
    written with [<[ _ := _ ]>] or [alter]. *)

From Stdlib Require Import NArith ZArith Lia Bool.
From Stdlib Require Import Floats.SpecFloat.
From Stdlib Require String.
From stdpp Require Import base list option.

Local Open Scope N_scope.

(** Wrap-around of the fixed-width types. *)
Definition wrap64 (n : N) : N := n mod 2 ^ 64.
Definition wrap_u8 (n : N) : N := n mod 2 ^ 8.
Definition wrap_i32 (z : Z) : Z := ((z + 2 ^ 31) mod 2 ^ 32 - 2 ^ 31)%Z.

(** ** util::bitset *)

Module Bitset.

(** Modelled from the spec: [util::bitset] (util/common.hpp is not among the
    sources) is a packed word array indexed by register id.  A bitset is the
    number whose binary digits are its bits; every index the allocator uses
    is below the size the bitset was given by [resize], so the size itself is
    not part of the model. *)
Definition t := N.

Definition empty : t := 0.
Definition get (b : t) (i : nat) : bool := N.testbit b (N.of_nat i).
Definition set (b : t) (i : nat) : t := N.setbit b (N.of_nat i).
Definition reset (b : t) (i : nat) : t := N.clearbit b (N.of_nat i).
Definition set_union (a b : t) : t := N.lor a b.
Definition set_difference (a b : t) : t := N.ldiff a b.

Fixpoint popcount_pos (p : positive) : nat :=
  match p with
  | xH => 1
  | xO q => popcount_pos q
  | xI q => S (popcount_pos q)
  end.

Definition popcount (b : t) : nat :=
  match b with
  | N0 => 0
  | Npos p => popcount_pos p
  end.

Definition subseteq (a b : t) : Prop := N.ldiff a b = 0.

End Bitset.

(** ** include/ir/arch.hpp *)

Module Arch.

(** Modelled from the spec: [zy::reg] (jit/zydis.hpp is not among the
    sources).  The enumerators the header names are constructors of their
    own; [OTHER_REG] stands for every other enumerator of [zy::reg] (the
    narrower, segment, control, vector registers and so on), told apart by
    a number. *)
Inductive native_reg :=
| NO_REG
| RAX | RCX | RDX | RBX | RSP | RBP | RSI | RDI
| R8 | R9 | R10 | R11 | R12 | R13 | R14 | R15
| XMM0 | XMM1 | XMM2 | XMM3 | XMM4 | XMM5 | XMM6 | XMM7
| XMM8 | XMM9 | XMM10 | XMM11 | XMM12 | XMM13 | XMM14 | XMM15
| OTHER_REG (n : N).

#[global] Instance native_reg_eq_dec : EqDecision native_reg.
Proof. solve_decision. Defined.

(** The block of constants one [#if] branch declares. *)
Record abi := {
  gp_nonvolatile : list native_reg;
  gp_volatile : list native_reg;
  gp_argument : list native_reg;
  gp_retval : native_reg;
  fp_nonvolatile : list native_reg;
  fp_volatile : list native_reg;
  fp_argument : list native_reg;
  fp_retval : native_reg;
  sp : native_reg;
  bp : native_reg;
  invalid : native_reg;
  shadow_stack : Z;
  combined_arg_counter : bool
}.

Definition MS64 : abi := {|
  gp_nonvolatile := [RBP; RSI; RDI; RBX; R12; R13; R14; R15];
  gp_volatile := [RAX; RCX; RDX; R8; R9; R10; R11];
  gp_argument := [RCX; RDX; R8; R9];
  gp_retval := RAX;
  fp_nonvolatile := [XMM6; XMM7; XMM8; XMM9; XMM10; XMM11; XMM12; XMM13; XMM14; XMM15];
  fp_volatile := [XMM0; XMM1; XMM2; XMM3; XMM4; XMM5];
  fp_argument := [XMM0; XMM1; XMM2; XMM3];
  fp_retval := XMM0;
  sp := RSP;
  bp := RBP;
  invalid := NO_REG;
  shadow_stack := 0x20;
  combined_arg_counter := true
|}.

Definition SYSV64 : abi := {|
  gp_nonvolatile := [RBP; RBX; R12; R13; R14; R15];
  gp_volatile := [RAX; RDI; RSI; RDX; RCX; R8; R9; R10; R11];
  gp_argument := [RDI; RSI; RDX; RCX; R8; R9];
  gp_retval := RAX;
  fp_nonvolatile := [];
  fp_volatile := [XMM0; XMM1; XMM2; XMM3; XMM4; XMM5; XMM6; XMM7;
                  XMM8; XMM9; XMM10; XMM11; XMM12; XMM13; XMM14; XMM15];
  fp_argument := [XMM0; XMM1; XMM2; XMM3; XMM4; XMM5; XMM6; XMM7];
  fp_retval := XMM0;
  sp := RSP;
  bp := RBP;
  invalid := NO_REG;
  shadow_stack := 0x20;
  combined_arg_counter := false
|}.

(** [arch::reg]: fp registers below zero, none at zero, gp registers above. *)
Definition reg := Z.

Section Abi.
Variable a : abi.

Definition num_gp_reg : N :=
  N.of_nat (length (gp_volatile a) + length (gp_nonvolatile a)).
Definition num_fp_reg : N :=
  N.of_nat (length (fp_volatile a) + length (fp_nonvolatile a)).

Definition is_volatile (r : reg) : bool :=
  if (r <? 0)%Z
  then (- r <=? Z.of_nat (length (fp_volatile a)))%Z
  else (r <=? Z.of_nat (length (gp_volatile a)))%Z.

Definition virtual_to_native_map : list native_reg :=
  fp_nonvolatile a ++ fp_volatile a ++ [invalid a]
    ++ gp_volatile a ++ gp_nonvolatile a.

Definition to_native (i : reg) : native_reg :=
  let i := wrap_i32 (i + Z.of_N num_fp_reg) in
  if ((0 <=? i) && (i <? Z.of_nat (length virtual_to_native_map)))%Z
  then default (invalid a) (virtual_to_native_map !! Z.to_nat i)
  else invalid a.

Fixpoint from_native_scan (n : native_reg) (m : list native_reg) (r : Z) : reg :=
  match m with
  | [] => 0%Z
  | x :: m' =>
      if decide (x = n) then (r - Z.of_N num_fp_reg)%Z
      else from_native_scan n m' (r + 1)%Z
  end.

Definition from_native (n : native_reg) : reg :=
  from_native_scan n virtual_to_native_map 0%Z.

(** [map_argument_native].  The array read sits in the branch taken when the
    array's size is below the index, so it is always past the end: [!!]
    gives [None] there, which stands for the undefined read. *)
Definition map_argument_native (gp_arg_index fp_arg_index : N) (fp : bool)
  : option native_reg :=
  if negb fp then
    let idx := if combined_arg_counter a
               then wrap64 (gp_arg_index + fp_arg_index) else gp_arg_index in
    if N.of_nat (length (gp_argument a)) <? idx
    then gp_argument a !! N.to_nat idx
    else Some (invalid a)
  else
    let idx := if combined_arg_counter a
               then wrap64 (gp_arg_index + fp_arg_index) else fp_arg_index in
    if N.of_nat (length (fp_argument a)) <? idx
    then fp_argument a !! N.to_nat idx
    else Some (invalid a).

(** [map_argument] hands the native register to [to_native], which reads
    its argument as an [arch::reg]; [code] is the integer value of a
    [zy::reg] enumerator, which the sources do not give. *)
Definition map_argument (code : native_reg → Z)
    (gp_arg_index fp_arg_index : N) (fp : bool) : option native_reg :=
  (λ n, to_native (code n)) <$> map_argument_native gp_arg_index fp_arg_index fp.

End Abi.

End Arch.

(** ** The machine IR the allocator works on *)

Module Mir.

(** Modelled from the spec: [mreg] (ir/opt.hpp and the headers it includes
    are not among the sources).  A register is its 32-bit [uid]; uid 0 is the
    null register, and [mreg::from_uid] is the inverse of [uid]. *)
Definition mreg := N.
Definition uid (r : mreg) : nat := N.to_nat r.
Definition from_uid (n : nat) : mreg := N.of_nat n.
Definition is_null (r : mreg) : bool := r =? 0.

(** Modelled from the spec: the bands of the register id space and what the
    allocator asks of a register.  The sources use these operations and do
    not define them, so they are an interface. *)
Class reg_bands := {
  is_flag : mreg → bool;
  is_fp : mreg → bool;
  is_virt : mreg → bool;
  is_phys : mreg → bool;
  virt : mreg → Z;
  phys : mreg → Arch.reg;
  vreg_first : Z;
  vreg_vm : mreg;
  vreg_tos : mreg;
  vreg_nargs : mreg;
  (** [mreg(arch::reg)], the register of a signed physical index *)
  of_arch_reg : Arch.reg → mreg;
  (** the registers [next_gp()] and [next_fp()] make of the counters *)
  make_gp : N → mreg;
  make_fp : N → mreg
}.

(** The opcodes the allocator tells apart; [other] stands for the rest. *)
Inductive vop := movi | movf | loadi64 | storei64 | loadf64 | storef64 | other (n : N).

#[global] Instance vop_eq_dec : EqDecision vop.
Proof. solve_decision. Defined.

Record mmem := { base : mreg; disp : Z }.

Inductive mop :=
| op_none
| op_reg (reg : mreg)
| op_imm (i : Z)
| op_mem (mem : mmem).

Definition is_reg (o : mop) : bool :=
  match o with op_reg _ => true | _ => false end.

Record minsn := {
  vopcode : vop;
  out : mreg;
  arg : list mop
}.

(** [i.is(o)] *)
Definition is_op (i : minsn) (o : vop) : bool := bool_decide (vopcode i = o).

(** Modelled from the spec: the operand visitor [for_each_reg].  It yields
    the registers of the source operands in operand order with
    [is_read = true] (the base of a memory operand is a source), then the
    defined register [out] with [is_read = false]; null registers are not
    yielded.  [regs_of] is the sequence of calls a read-only callback sees. *)
Definition arg_regs (o : mop) : list mreg :=
  match o with
  | op_reg r => if is_null r then [] else [r]
  | op_mem m => if is_null (base m) then [] else [base m]
  | _ => []
  end.

Definition regs_of (i : minsn) : list (mreg * bool) :=
  ((λ r, (r, true)) <$> concat (arg_regs <$> arg i))
    ++ (if is_null (out i) then [] else [(out i, false)]).

(** The visitor with a callback that overwrites the register it is given and
    threads a state. *)
Section Visit.
Context {S : Type} (f : mreg → bool → S → mreg * S).

Definition visit_arg (o : mop) (s : S) : mop * S :=
  match o with
  | op_reg r =>
      if is_null r then (o, s) else let '(r', s') := f r true s in (op_reg r', s')
  | op_mem m =>
      if is_null (base m) then (o, s)
      else let '(r', s') := f (base m) true s in
           (op_mem {| base := r'; disp := disp m |}, s')
  | _ => (o, s)
  end.

Fixpoint visit_args (os : list mop) (s : S) : list mop * S :=
  match os with
  | [] => ([], s)
  | o :: os' =>
      let '(o', s1) := visit_arg o s in
      let '(os'', s2) := visit_args os' s1 in
      (o' :: os'', s2)
  end.

Definition for_each_reg (i : minsn) (s : S) : minsn * S :=
  let '(args', s1) := visit_args (arg i) s in
  if is_null (out i) then
    ({| vopcode := vopcode i; out := out i; arg := args' |}, s1)
  else
    let '(o', s2) := f (out i) false s1 in
    ({| vopcode := vopcode i; out := o'; arg := args' |}, s2).
End Visit.

(** A basic block.  [successors] holds pointers to blocks of the same
    procedure in the source; here they are positions in [basic_blocks]. *)
Record basic_block := {
  block_uid : N;
  hot : Z;
  instructions : list minsn;
  successors : list nat;
  df_def : Bitset.t;
  df_ref : Bitset.t;
  df_in_live : Bitset.t;
  df_out_live : Bitset.t
}.

Record mprocedure := {
  basic_blocks : list basic_block;
  next_gp_id : N;
  next_fp_id : N;
  used_stack_length : Z;
  used_gp_mask : N;
  used_fp_mask : N
}.

End Mir.

(** ** src/ir/mopt_ralloc.cpp: the interference graph and its coloring *)

Module Ralloc.
Import Mir.

(** A [float] is an IEEE binary32 number: [spec_float] with a 24-bit
    significand and exponents up to 128. *)
Definition prec : Z := 24.
Definition emax : Z := 128.
Definition float_of_size_t (n : N) : spec_float :=
  binary_normalize prec emax (Z.of_N n) 0 false.

Definition RA_PRIO_HOT_BIAS : spec_float := float_of_size_t 12.

Record graph_node := {
  vtx : Bitset.t;
  priority : spec_float;
  coalescing_hints : list Z;
  hint_id : N;
  color : N;
  node_is_fp : bool;
  spill_slot : Z
}.

(** [std::span<graph_node>] / [std::vector<graph_node>] *)
Abbreviation graph := (list graph_node).

Definition with_vtx (v : Bitset.t) (n : graph_node) : graph_node :=
  {| vtx := v; priority := priority n; coalescing_hints := coalescing_hints n;
     hint_id := hint_id n; color := color n; node_is_fp := node_is_fp n;
     spill_slot := spill_slot n |}.

Definition with_color (c : N) (n : graph_node) : graph_node :=
  {| vtx := vtx n; priority := priority n; coalescing_hints := coalescing_hints n;
     hint_id := hint_id n; color := c; node_is_fp := node_is_fp n;
     spill_slot := spill_slot n |}.

Definition with_spill_slot (s : Z) (n : graph_node) : graph_node :=
  {| vtx := vtx n; priority := priority n; coalescing_hints := coalescing_hints n;
     hint_id := hint_id n; color := color n; node_is_fp := node_is_fp n;
     spill_slot := s |}.

(** [1ull << s] and [std::countr_zero] on 64-bit words.  The source shifts by
    [color - 1]; a shift of 64 or more is undefined there, and here the bit
    falls off the word. *)
Definition shl64 (x s : N) : N := wrap64 (N.shiftl x s).

Fixpoint ctz_pos (p : positive) : N :=
  match p with
  | xO q => N.succ (ctz_pos q)
  | _ => 0
  end.

Definition countr_zero (m : N) : N :=
  match m with
  | N0 => 64
  | Npos p => ctz_pos p
  end.

(** *** try_color *)

(** The budget of a node's class: [n.is_fp ? M : K]. *)
Definition budget (K M : N) (n : graph_node) : N := if node_is_fp n then M else K.

(** The scan of [try_color] for the node to take out.  [overlimit_it] is a
    pointer in the source; here it is the position together with the node
    it points at (the scan does not write to the graph).  The result is
    the pair [(it, overlimit_it)] the loop leaves. *)
Fixpoint pick_scan (K M : N) (rest : graph) (i : nat)
    (overlimit_it : option (nat * graph_node))
  : option (nat * graph_node) * option (nat * graph_node) :=
  match rest with
  | [] => (None, overlimit_it)
  | n :: rest' =>
      if negb (color n =? 0) then pick_scan K M rest' (S i) overlimit_it
      else
        let deg := Bitset.popcount (vtx n) in
        if (deg =? 0)%nat then pick_scan K M rest' (S i) overlimit_it
        else
          let deg := N.of_nat (deg - 1) in
          if budget K M n <? deg then
            let overlimit_it' :=
              match overlimit_it with
              | None => Some (i, n)
              | Some (_, o) =>
                  if SFltb (priority n) (priority o) then Some (i, n) else overlimit_it
              end in
            pick_scan K M rest' (S i) overlimit_it'
          else (Some (i, n), overlimit_it)
  end.

(** The node [try_color] works on, or [None] when it returns [{0, 0}]. *)
Definition pick (gr : graph) (K M : N) : option (nat * graph_node) :=
  match pick_scan K M gr 0 None with
  | (Some it, _) => Some it
  | (None, overlimit_it) => overlimit_it
  end.

(** "Remove from the graph": [tmp] takes the node's adjacency, the node is
    left with an empty one, and its bit is cleared in every row [tmp] names. *)
Definition remove_node (it : nat) (tmp : Bitset.t) (gr : graph) : graph :=
  foldl (λ g i,
           if Bitset.get tmp i
           then alter (λ n, with_vtx (Bitset.reset (vtx n) it) n) i g
           else g)
        (alter (with_vtx Bitset.empty) it gr)
        (seq 0 (length gr)).

(** "Add the node back": one pass that sets the node's bit again in the rows
    of [tmp] and strikes the colors of colored neighbours off [color_mask];
    then [tmp] is swapped back into the node. *)
Definition restore_step (it : nat) (tmp : Bitset.t) (st : graph * N) (i : nat)
  : graph * N :=
  let '(g, color_mask) := st in
  if Bitset.get tmp i then
    let g' := alter (λ n, with_vtx (Bitset.set (vtx n) it) n) i g in
    match g' !! i with
    | Some n =>
        if negb (color n =? 0) && negb (i =? it)%nat
        then (g', N.ldiff color_mask (shl64 1 (color n - 1)))
        else (g', color_mask)
    | None => (g', color_mask)
    end
  else st.

Definition restore_node (it : nat) (tmp : Bitset.t) (gr : graph) : graph * N :=
  let '(g, color_mask) :=
    foldl (restore_step it tmp) (gr, N.ones 64) (seq 0 (length gr)) in
  (alter (with_vtx tmp) it g, color_mask).

(** "Try using any coalescing hints": the color of the first hinted node
    that is colored with a color still in [color_mask]. *)
Fixpoint try_hints (gr : graph) (it : nat) (color_mask : N) (hints : list Z)
  : option N :=
  match hints with
  | [] => None
  | hint_off :: rest =>
      if (hint_off =? 0)%Z then try_hints gr it color_mask rest
      else
        match gr !! Z.to_nat (Z.of_nat it + hint_off) with
        | Some hint =>
            if negb (color hint =? 0)
               && negb (N.land color_mask (shl64 1 (color hint - 1)) =? 0)
            then Some (color hint)
            else try_hints gr it color_mask rest
        | None => try_hints gr it color_mask rest
        end
  end.

(** The test of the slot search: some other node has this slot and has the
    bit of [it] in its row. *)
Definition slot_clash (gr : graph) (it : nat) (slot : Z) : bool :=
  existsb (λ '(i, n),
             (spill_slot n =? slot)%Z && negb (i =? it)%nat && Bitset.get (vtx n) it)
          (imap (λ i n, (i, n)) gr).

(** "Find spill slot": the [do]/[while] loop, one round per unit of fuel. *)
Fixpoint find_spill_slot (fuel : nat) (gr : graph) (it : nat) (slot : Z) : option Z :=
  match fuel with
  | O => None
  | S fuel' =>
      if slot_clash gr it slot
      then find_spill_slot fuel' gr it (slot + 1)%Z
      else Some slot
  end.

(** [try_color], one call per unit of fuel. *)
Fixpoint try_color_fuel (fuel : nat) (gr : graph) (K M : N)
  : option (graph * (N * N)) :=
  match fuel with
  | O => None
  | S fuel' =>
      match pick gr K M with
      | None => Some (gr, (0, 0))
      | Some (it, node) =>
          let tmp := vtx node in
          let gr := remove_node it tmp gr in
          '(gr, (rec_spill_gp, rec_spill_fp)) ← try_color_fuel fuel' gr K M;
          let '(gr, color_mask) := restore_node it tmp gr in
          match try_hints gr it color_mask (coalescing_hints node) with
          | Some c => Some (alter (with_color c) it gr, (rec_spill_gp, rec_spill_fp))
          | None =>
              let n := countr_zero color_mask in
              if budget K M node <? n then
                let rec_spill_fp :=
                  if node_is_fp node then wrap64 (rec_spill_fp + 1) else rec_spill_fp in
                let rec_spill_gp :=
                  if node_is_fp node then rec_spill_gp else wrap64 (rec_spill_gp + 1) in
                let gr := alter (λ x, with_spill_slot 1 (with_color 0 x)) it gr in
                slot ← find_spill_slot (S (length gr)) gr it 1;
                Some (alter (with_spill_slot slot) it gr, (rec_spill_gp, rec_spill_fp))
              else
                Some (alter (with_color (wrap_u8 (n + 1))) it gr,
                      (rec_spill_gp, rec_spill_fp))
          end
      end
  end.

(** Each call takes one uncolored node with a non-empty row out of the
    graph, so one unit of fuel per node and one for the last call is enough
    (lemma [try_color_total]). *)
Definition try_color (gr : graph) (K M : N) : option (graph * (N * N)) :=
  try_color_fuel (S (length gr)) gr K M.

(** *** is_pseudo, interferes_with *)

Section Build.
Context {RB : reg_bands}.

(** "Returns true if the register does not require allocation." *)
Definition is_pseudo (r : mreg) : bool :=
  is_flag r || (is_virt r && (0 <? virt r)%Z && (virt r <? vreg_first)%Z).

(** "Returns true if register should be included in the interference
    graph." *)
Definition interferes_with (a b : mreg) : bool :=
  if is_pseudo a || is_pseudo b then false
  else if negb (eqb (is_fp a) (is_fp b)) then false
  else true.

(** *** build_graph: use counts *)

Definition wrap32 (n : N) : N := n mod 2 ^ 32.

Definition is_mem_access (i : minsn) : bool :=
  is_op i loadi64 || is_op i storei64 || is_op i loadf64 || is_op i storef64.

(** The callback of the first loop, for one register of instruction [i].
    The state is [(reg_use_counter, max_reg_id)]. *)
Definition count_reg (i : minsn) (st : list N * N) (x : mreg * bool) : list N * N :=
  let '(reg_use_counter, max_reg_id) := st in
  let '(r, is_read) := x in
  let '(reg_use_counter, max_reg_id) :=
    if max_reg_id <? r
    then (resize (N.to_nat (wrap32 (r + 1))) 0 reg_use_counter, r)
    else (reg_use_counter, max_reg_id) in
  let reg_use_counter :=
    if is_read
    then alter (λ c, wrap64 (c + 1)) (uid r) reg_use_counter
    else reg_use_counter in
  let reg_use_counter :=
    if is_mem_access i
    then alter (λ c, wrap64 (c + 100)) (uid r) reg_use_counter
    else reg_use_counter in
  (reg_use_counter, max_reg_id).

Definition count_insn (st : list N * N) (i : minsn) : list N * N :=
  foldl (count_reg i) st (regs_of i).

Definition count_block (st : list N * N) (bb : basic_block) : list N * N :=
  foldl count_insn st (instructions bb).

(** "Get maximum register id and calculate use counts." *)
Definition use_counts (proc : mprocedure) : list N * N :=
  foldl count_block ([], 0) (basic_blocks proc).

(** *** build_graph: liveness *)

Definition with_df (d r i o : Bitset.t) (bb : basic_block) : basic_block :=
  {| block_uid := block_uid bb; hot := hot bb; instructions := instructions bb;
     successors := successors bb;
     df_def := d; df_ref := r; df_in_live := i; df_out_live := o |}.

Definition with_in_live (i : Bitset.t) (bb : basic_block) : basic_block :=
  with_df (df_def bb) (df_ref bb) i (df_out_live bb) bb.

Definition with_out_live (o : Bitset.t) (bb : basic_block) : basic_block :=
  with_df (df_def bb) (df_ref bb) (df_in_live bb) o bb.

(** The callback of the second loop; the state is [(df_def, df_ref)]. *)
Definition def_ref_reg (st : Bitset.t * Bitset.t) (x : mreg * bool)
  : Bitset.t * Bitset.t :=
  let '(def, ref) := st in
  let '(r, is_read) := x in
  if is_pseudo r then st
  else if is_read then
    if negb (Bitset.get def (uid r)) then (def, Bitset.set ref (uid r)) else st
  else (Bitset.set def (uid r), ref).

(** "First calculate ref(n) and def(n) for each basic block": the four
    bitsets are cleared, then [df_def] and [df_ref] are filled. *)
Definition def_ref_block (bb : basic_block) : basic_block :=
  let '(def, ref) :=
    foldl (λ st i, foldl def_ref_reg st (regs_of i))
          (Bitset.empty, Bitset.empty) (instructions bb) in
  with_df def ref Bitset.empty Bitset.empty bb.

(** [s->df_in_live] for a successor [s]. *)
Definition in_live_of (bbs : list basic_block) (s : nat) : Bitset.t :=
  from_option df_in_live Bitset.empty (bbs !! s).

(** The in-live set the equations give a block from the current state. *)
Definition new_live (bbs : list basic_block) (bb : basic_block) : Bitset.t :=
  let new_live :=
    foldl (λ acc s, Bitset.set_union acc (in_live_of bbs s))
          Bitset.empty (successors bb) in
  let new_live := Bitset.set_difference new_live (df_def bb) in
  Bitset.set_union new_live (df_ref bb).

(** The body of the inner [for]: block [b] of the current state. *)
Definition live_block (st : list basic_block * bool) (b : nat)
  : list basic_block * bool :=
  let '(bbs, changed) := st in
  match bbs !! b with
  | Some bb =>
      let nl := new_live bbs bb in
      if negb (nl =? df_in_live bb)
      then (alter (with_in_live nl) b bbs, true)
      else (bbs, changed)
  | None => st
  end.

(** One round of the [do]/[while]: [changed = false], then every block. *)
Definition live_sweep (bbs : list basic_block) : list basic_block * bool :=
  foldl live_block (bbs, false) (seq 0 (length bbs)).

(** The [do]/[while] loop, one round per unit of fuel. *)
Fixpoint live_loop (fuel : nat) (bbs : list basic_block) : option (list basic_block) :=
  match fuel with
  | O => None
  | S fuel' =>
      let '(bbs', changed) := live_sweep bbs in
      if changed then live_loop fuel' bbs' else Some bbs'
  end.

(** "Convert to out-live." *)
Definition out_live_block (bbs : list basic_block) (b : basic_block) : basic_block :=
  with_out_live
    (foldl (λ acc suc, Bitset.set_union acc (in_live_of bbs suc))
           (df_out_live b) (successors b))
    b.

Definition out_live_pass (bbs : list basic_block) : list basic_block :=
  foldl (λ st b, alter (out_live_block st) b st) bbs (seq 0 (length bbs)).

(** The liveness part of [build_graph]. *)
Definition liveness (fuel : nat) (bbs : list basic_block)
  : option (list basic_block) :=
  out_live_pass <$> live_loop fuel (def_ref_block <$> bbs).

(** Rounds that are always enough (lemma [liveness_total]): every round
    but the last adds a register to some in-live set, and there are
    [max_reg_id] registers and [length bbs] sets. *)
Definition live_rounds (max_reg_id : N) (bbs : list basic_block) : nat :=
  S (length bbs * N.to_nat max_reg_id).

(** *** build_graph: the graph *)

(** [graph_node{}] *)
Definition fresh_node : graph_node :=
  {| vtx := Bitset.empty; priority := S754_zero false;
     coalescing_hints := [0; 0; 0; 0]%Z; hint_id := 0; color := 0;
     node_is_fp := false; spill_slot := 0 |}.

(** "Allocate the interference graph and set the initial state": node [i].
    Line 380 reads [reg_use_counter[i]].  The vector has an entry for every
    [i] below [max_reg_id] as soon as one instruction names a register; when
    none does it is empty and the read of [reg_use_counter[0]] is outside
    it: [None] stands for that undefined read. *)
Definition init_node (reg_use_counter : list N) (i : nat) : option graph_node :=
  count ← reg_use_counter !! i;
  let mr := from_uid i in
  Some {| vtx := Bitset.set Bitset.empty i;
          priority :=
            SFmul prec emax (float_of_size_t (wrap64 (count + 1))) RA_PRIO_HOT_BIAS;
          coalescing_hints := coalescing_hints fresh_node;
          hint_id := hint_id fresh_node;
          color := if is_phys mr then wrap_u8 (Z.to_N (Z.abs (phys mr))) else 0;
          node_is_fp := is_fp mr;
          spill_slot := spill_slot fresh_node |}.

(** The loop of lines 375 to 385, which stops at the first undefined read. *)
Definition init_graph (reg_use_counter : list N) (max_reg_id : N) : option graph :=
  mapM (init_node reg_use_counter) (seq 0 (N.to_nat max_reg_id)).

(** [add_hint]: [coalescing_hints[hint_id++ % 4] = g - this]. *)
Definition add_hint (this g : nat) (n : graph_node) : graph_node :=
  {| vtx := vtx n; priority := priority n;
     coalescing_hints :=
       <[ N.to_nat (hint_id n mod 4) := (Z.of_nat g - Z.of_nat this)%Z ]>
         (coalescing_hints n);
     hint_id := wrap_u8 (hint_id n + 1);
     color := color n; node_is_fp := node_is_fp n; spill_slot := spill_slot n |}.

Definition add_vertex (a b : mreg) (gr : graph) : graph :=
  if negb (interferes_with a b) then gr
  else
    let au := uid a in
    let bu := uid b in
    let gr := alter (λ n, with_vtx (Bitset.set (vtx n) bu) n) au gr in
    alter (λ n, with_vtx (Bitset.set (vtx n) au) n) bu gr.

Definition add_set (max_reg_id : N) (b : Bitset.t) (def : mreg) (gr : graph) : graph :=
  foldl (λ g i, if Bitset.get b i then add_vertex def (from_uid i) g else g)
        gr (seq 0 (N.to_nat max_reg_id)).

(** One instruction of the backwards walk; the state is [(graph, live)]. *)
Definition edges_insn (max_reg_id : N) (st : graph * Bitset.t) (i : minsn)
  : graph * Bitset.t :=
  let '(gr, live) := st in
  let gr :=
    if is_op i movi || is_op i movf then
      match default op_none (arg i !! 0%nat) with
      | op_reg r =>
          let a := uid r in
          let b := uid (out i) in
          alter (add_hint b a) b (alter (add_hint a b) a gr)
      | _ => gr
      end
    else gr in
  let '(gr, live) :=
    if negb (is_null (out i)) then
      let live := Bitset.reset live (uid (out i)) in
      (add_set max_reg_id live (out i) gr, live)
    else (gr, live) in
  let live :=
    foldl (λ l (x : mreg * bool), if x.2 then Bitset.set l (uid x.1) else l)
          live (regs_of i) in
  let gr :=
    foldl (λ g (x : mreg * bool), if x.2 then add_set max_reg_id live x.1 g else g)
          gr (regs_of i) in
  (gr, live).

Definition edges_block (max_reg_id : N) (gr : graph) (b : basic_block) : graph :=
  (foldl (edges_insn max_reg_id) (gr, df_out_live b) (reverse (instructions b))).1.

Definition with_basic_blocks (bbs : list basic_block) (proc : mprocedure)
  : mprocedure :=
  {| basic_blocks := bbs; next_gp_id := next_gp_id proc;
     next_fp_id := next_fp_id proc; used_stack_length := used_stack_length proc;
     used_gp_mask := used_gp_mask proc; used_fp_mask := used_fp_mask proc |}.

(** [build_graph]: the procedure with its liveness bitsets, and the graph.
    (The optional [tmp] vector is emptied before it is reused, so it does
    not show in the result.)  [None] stands for a run that gives no graph:
    the read outside [reg_use_counter] of a procedure that names no
    register (the rounds given to the liveness loop are always enough,
    lemma [liveness_total]). *)
Definition build_graph (proc : mprocedure) : option (mprocedure * graph) :=
  let '(reg_use_counter, max_reg_id) := use_counts proc in
  let max_reg_id := wrap32 (max_reg_id + 1) in
  bbs ← liveness (live_rounds max_reg_id (basic_blocks proc)) (basic_blocks proc);
  interference_graph ← init_graph reg_use_counter max_reg_id;
  let interference_graph := foldl (edges_block max_reg_id) interference_graph bbs in
  Some (with_basic_blocks bbs proc, interference_graph).

End Build.

(** *** allocate_registers: the spill rewriter *)

(** How a run can stop short: an [LI_ASSERT] that fails, control that comes
    to [assume_unreachable()], a read outside an array, or the fuel of a
    loop of the model running out. *)
Inductive failure := assert_failed | unreachable_reached | undefined_read | out_of_fuel.

Inductive res (A : Type) :=
| Ok (a : A)
| Fail (f : failure).
Arguments Ok {A} a.
Arguments Fail {A} f.

#[global] Instance res_ret : MRet res := λ A a, Ok a.
#[global] Instance res_bind : MBind res :=
  λ A B f x, match x with Ok a => f a | Fail e => Fail e end.

Definition of_option {A} (e : failure) (o : option A) : res A :=
  match o with Some a => Ok a | None => Fail e end.

Record spill_entry := { src : mreg; dst : mreg; slot : Z }.

(** [spill_entry{}] *)
Definition no_entry : spill_entry := {| src := 0; dst := 0; slot := 0 |}.

(** What the rewriter reads and writes while it works on one instruction:
    the two counters of the procedure's register allocator,
    [num_spill_slots], [need_cg], and one field the source does not have:
    [slots_used] lists the 1-based slot of each entry that was filled in,
    newest first. *)
Record rw_state := {
  st_next_gp : N;
  st_next_fp : N;
  num_spill_slots : Z;
  need_cg : bool;
  slots_used : list Z
}.

Section Rewrite.
Context {RB : reg_bands}.

(** Modelled from the spec: [next_gp()] and [next_fp()], the fresh-register
    allocator of the procedure with its two counters. *)
Definition next_reg (fp : bool) (st : rw_state) : mreg * rw_state :=
  if fp then
    (make_fp (st_next_fp st),
     {| st_next_gp := st_next_gp st; st_next_fp := st_next_fp st + 1;
        num_spill_slots := num_spill_slots st; need_cg := need_cg st;
        slots_used := slots_used st |})
  else
    (make_gp (st_next_gp st),
     {| st_next_gp := st_next_gp st + 1; st_next_fp := st_next_fp st;
        num_spill_slots := num_spill_slots st; need_cg := need_cg st;
        slots_used := slots_used st |}).

Definition note_slot (s : Z) (st : rw_state) : rw_state :=
  {| st_next_gp := st_next_gp st; st_next_fp := st_next_fp st;
     num_spill_slots := Z.max (num_spill_slots st) (s + 1);
     need_cg := need_cg st;
     slots_used := (s + 1)%Z :: slots_used st |}.

Definition set_need_cg (b : bool) (st : rw_state) : rw_state :=
  {| st_next_gp := st_next_gp st; st_next_fp := st_next_fp st;
     num_spill_slots := num_spill_slots st; need_cg := b;
     slots_used := slots_used st |}.

(** The [for] loop of [spill_and_swap] over the entries of the list.  The
    first component of the result tells whether the loop was left by one
    of its two [break]s ([true]) or ran off the end of [entries]
    ([false]).  [slot] is a [size_t] in the source and the entry's slot an
    [int32_t]. *)
Fixpoint place (m : mreg) (entries : list spill_entry) (slot : Z) (slot_offset : Z)
    (st : rw_state) : bool * mreg * list spill_entry * rw_state :=
  match entries with
  | [] => (false, m, [], st)
  | entry :: rest =>
      if is_null (src entry) then
        let '(d, st) := next_reg (is_fp m) st in
        let e := {| src := m; dst := d; slot := wrap_i32 (slot + slot_offset - 1) |} in
        (true, d, e :: rest, note_slot (Ralloc.slot e) st)
      else if src entry =? m then
        (true, dst entry, entry :: rest, st)
      else
        let '(placed, m', rest', st') := place m rest slot slot_offset st in
        (placed, m', entry :: rest', st')
  end.

(** [spill_and_swap].  Both [break]s leave the [for] loop only, so the
    statement after the loop, [assume_unreachable()], is the next one on
    every path: the run stops there, whatever the loop did, and the call
    does not return. *)
Definition spill_and_swap (m : mreg) (entries : list spill_entry) (slot : Z)
    (slot_offset : Z) (st : rw_state) : res (mreg * list spill_entry * rw_state) :=
  let st := set_need_cg true st in
  let '(_, _, _, _) := place m entries slot slot_offset st in
  Fail unreachable_reached.

(** The state of the callback: [(reload_list, spill_list, state)], or the
    failure the run has stopped at; nothing is done after that. *)
Definition rw_acc : Type := list spill_entry * list spill_entry * rw_state.

Definition rewrite_reg (gr : graph) (slot_offset : Z) (r : mreg) (is_read : bool)
    (acc : res rw_acc) : mreg * res rw_acc :=
  match acc with
  | Fail _ => (r, acc)
  | Ok (reload_list, spill_list, st) =>
      if is_pseudo r || negb (is_virt r) then (r, acc)
      else
        match gr !! uid r with
        | None => (r, acc)
        | Some info =>
            if (spill_slot info =? 0)%Z then (r, acc)
            else if is_read then
              match spill_and_swap r reload_list (spill_slot info) slot_offset st with
              | Ok (r', l, st') => (r', Ok (l, spill_list, st'))
              | Fail e => (r, Fail e)
              end
            else
              match spill_and_swap r spill_list (spill_slot info) slot_offset st with
              | Ok (r', l, st') => (r', Ok (reload_list, l, st'))
              | Fail e => (r, Fail e)
              end
        end
  end.

Variable a : Arch.abi.

(** [mmem{.base = arch::from_native(arch::sp), .disp = entry.slot * 8}] *)
Definition slot_mem (e : spill_entry) : mmem :=
  {| base := of_arch_reg (Arch.from_native a (Arch.sp a)); disp := (slot e * 8)%Z |}.

(** The entries of a list up to the first empty one. *)
Fixpoint filled (l : list spill_entry) : list spill_entry :=
  match l with
  | [] => []
  | e :: l' => if is_null (src e) then [] else e :: filled l'
  end.

Definition reload_insn (e : spill_entry) : minsn :=
  {| vopcode := if is_fp (src e) then loadf64 else loadi64;
     out := dst e; arg := [op_mem (slot_mem e)] |}.

Definition spill_insn (e : spill_entry) : minsn :=
  {| vopcode := if is_fp (src e) then storef64 else storei64;
     out := 0; arg := [op_mem (slot_mem e); op_reg (dst e)] |}.

(** The loop over the instructions of a block.  [done] is what lies before
    the iterator and [todo] what lies from it on.  An instruction that got
    reloads and no spill is looked at again, since the iterator is left on
    it; one unit of fuel per look. *)
Fixpoint rewrite_block (fuel : nat) (gr : graph) (slot_offset : Z)
    (done todo : list minsn) (st : rw_state) : res (list minsn * rw_state) :=
  match fuel with
  | O => Fail out_of_fuel
  | S fuel' =>
      match todo with
      | [] => Ok (done, st)
      | i :: rest =>
          match for_each_reg (rewrite_reg gr slot_offset) i
                  (Ok (replicate 4 no_entry, replicate 1 no_entry, set_need_cg false st))
          with
          | (_, Fail e) => Fail e
          | (i', Ok (reload_list, spill_list, st')) =>
              if negb (need_cg st') then
                rewrite_block fuel' gr slot_offset (done ++ [i']) rest st'
              else
                let loads := reload_insn <$> filled reload_list in
                let stores := spill_insn <$> filled spill_list in
                match stores with
                | [] =>
                    rewrite_block fuel' gr slot_offset (done ++ loads) (i' :: rest) st'
                | _ =>
                    rewrite_block fuel' gr slot_offset
                      (done ++ loads ++ [i'] ++ stores) rest st'
                end
          end
      end
  end.

Definition with_instructions (insns : list minsn) (bb : basic_block) : basic_block :=
  {| block_uid := block_uid bb; hot := hot bb; instructions := insns;
     successors := successors bb; df_def := df_def bb; df_ref := df_ref bb;
     df_in_live := df_in_live bb; df_out_live := df_out_live bb |}.

(** "Add spilling code": every block in turn. *)
Fixpoint rewrite_blocks (fuel : nat) (gr : graph) (slot_offset : Z)
    (bbs : list basic_block) (st : rw_state) : res (list basic_block * rw_state) :=
  match bbs with
  | [] => Ok ([], st)
  | bb :: bbs' =>
      '(insns, st1) ← rewrite_block fuel gr slot_offset [] (instructions bb) st;
      '(bbs'', st2) ← rewrite_blocks fuel gr slot_offset bbs' st1;
      Ok (with_instructions insns bb :: bbs'', st2)
  end.

End Rewrite.

(** *** spill_args and allocate_registers *)

Section Allocate.
Context {RB : reg_bands}.
Variable a : Arch.abi.
(** The integer value of a [zy::reg] enumerator (not in the sources). *)
Variable native_code : Arch.native_reg → Z.

(** A callback run over every instruction of every block, in order. *)
Definition visit_insns {S} (f : mreg → bool → S → mreg * S) (insns : list minsn) (s : S)
  : list minsn * S :=
  foldl (λ '(acc, s) i, let '(i', s') := for_each_reg f i s in (acc ++ [i'], s'))
        ([], s) insns.

Definition visit_blocks {S} (f : mreg → bool → S → mreg * S) (bbs : list basic_block)
    (s : S) : list basic_block * S :=
  foldl (λ '(acc, s) bb,
           let '(insns, s') := visit_insns f (instructions bb) s in
           (acc ++ [with_instructions insns bb], s'))
        ([], s) bbs.

(** The callback of [spill_args]; the state is [(regs, next_gp counter)]. *)
Definition spill_arg_reg (r : mreg) (is_read : bool) (st : list mreg * N)
  : mreg * (list mreg * N) :=
  let '(regs, next) := st in
  let replace_with :=
    if r =? vreg_vm then Some 0%nat
    else if r =? vreg_tos then Some 1%nat
    else if r =? vreg_nargs then Some 2%nat
    else None in
  match replace_with with
  | Some k =>
      let cur := default 0 (regs !! k) in
      if is_null cur then
        let fresh := make_gp next in (fresh, (<[k := fresh]> regs, next + 1))
      else (cur, st)
  | None => (r, st)
  end.

(** [mreg(arch::map_argument(i, 0, false))] *)
Definition argument_reg (i : N) : res mreg :=
  n ← of_option undefined_read (Arch.map_argument a native_code i 0 false);
  Ok (of_arch_reg (native_code n)).

Definition with_next_gp (n : N) (proc : mprocedure) : mprocedure :=
  {| basic_blocks := basic_blocks proc; next_gp_id := n;
     next_fp_id := next_fp_id proc; used_stack_length := used_stack_length proc;
     used_gp_mask := used_gp_mask proc; used_fp_mask := used_fp_mask proc |}.

(** "Spills all arguments into virtual registers." *)
Definition spill_args (proc : mprocedure) : res mprocedure :=
  let '(bbs, (regs, next)) :=
    visit_blocks spill_arg_reg (basic_blocks proc) (replicate 3 0, next_gp_id proc) in
  bbs ← foldl (λ (acc : res (list basic_block)) (i : nat),
                 bbs ← acc;
                 let r := default 0 (regs !! i) in
                 if negb (is_null r) then
                   src ← argument_reg (N.of_nat i);
                   Ok (alter (λ bb, with_instructions
                                      ({| vopcode := movi; out := r; arg := [op_reg src] |}
                                         :: instructions bb) bb)
                             0%nat bbs)
                 else Ok bbs)
              (Ok bbs) (seq 0 3);
  Ok (with_next_gp next (with_basic_blocks bbs proc)).

(** The callback of "Swap the registers in the IR"; the state is
    [(used_gp_mask, used_fp_mask, failure so far)]. *)
Definition swap_reg (gr : graph) (r : mreg) (is_read : bool)
    (st : N * N * option failure) : mreg * (N * N * option failure) :=
  let '(gp_mask, fp_mask, failed) := st in
  if negb (is_pseudo r) && is_virt r then
    match gr !! uid r with
    | None => (r, (gp_mask, fp_mask, Some (default undefined_read failed)))
    | Some n =>
        let x := Z.of_N (color n) in
        if (x =? 0)%Z then (r, (gp_mask, fp_mask, Some (default assert_failed failed)))
        else if is_fp r then
          (of_arch_reg (- x)%Z, (gp_mask, N.lor fp_mask (shl64 1 (color n - 1)), failed))
        else
          (of_arch_reg x, (N.lor gp_mask (shl64 1 (color n - 1)), fp_mask, failed))
    end
  else (r, st).

(** The test of [std::erase_if] in "Remove eliminated moves". *)
Definition eliminated_move (i : minsn) : bool :=
  if is_op i movf || is_op i movi then
    match default op_none (arg i !! 0%nat) with
    | op_reg r => out i =? r
    | _ => false
    end
  else false.

Definition erase_moves (bb : basic_block) : basic_block :=
  with_instructions (List.filter (λ i, negb (eliminated_move i)) (instructions bb)) bb.

Definition MAX_K : N := Arch.num_gp_reg a.
Definition MAX_M : N := Arch.num_fp_reg a.

(** What the allocation loop hands to the code after it. *)
Record loop_result := {
  lr_proc : mprocedure;
  lr_graph : graph;
  lr_K : N;
  lr_M : N;
  lr_state : rw_state
}.

Definition state_of (proc : mprocedure) (st : rw_state) : rw_state :=
  {| st_next_gp := next_gp_id proc; st_next_fp := next_fp_id proc;
     num_spill_slots := num_spill_slots st; need_cg := need_cg st;
     slots_used := slots_used st |}.

Definition with_counters (st : rw_state) (proc : mprocedure) : mprocedure :=
  {| basic_blocks := basic_blocks proc; next_gp_id := st_next_gp st;
     next_fp_id := st_next_fp st; used_stack_length := used_stack_length proc;
     used_gp_mask := used_gp_mask proc; used_fp_mask := used_fp_mask proc |}.

(** The bound of [LI_ASSERT(step < 32)]. *)
Definition max_steps : nat := 32.

(** "Enter the register allocation loop."  [steps] counts down from
    [max_steps]: [LI_ASSERT(step < 32)] fails when it is used up.  [fuel] is
    for the loop of the spill rewriter.  [build_graph] gives no graph when it
    reads outside [reg_use_counter]. *)
Fixpoint color_loop (steps fuel : nat) (proc : mprocedure)
    (interference_graph interference_graph_copy : graph) (K M : N) (st : rw_state)
  : res loop_result :=
  match steps with
  | O => Fail assert_failed
  | S steps' =>
      '(gr, (spill_gp, spill_fp)) ← of_option out_of_fuel (try_color interference_graph K M);
      if (spill_gp =? 0) && (spill_fp =? 0) then
        Ok {| lr_proc := proc; lr_graph := gr; lr_K := K; lr_M := M; lr_state := st |}
      else
        let increase_k := negb (spill_gp =? 0) && negb (K =? MAX_K) in
        let increase_m := negb (spill_fp =? 0) && negb (M =? MAX_M) in
        let K := wrap64 (K + (if increase_k then 1 else 0)) in
        let M := wrap64 (M + (if increase_m then 1 else 0)) in
        if increase_k || increase_m then
          color_loop steps' fuel proc interference_graph_copy interference_graph_copy K M st
        else
          let slot_offset := num_spill_slots st in
          '(bbs, st') ← rewrite_blocks a fuel gr slot_offset (basic_blocks proc)
                           (state_of proc st);
          let proc := with_counters st' (with_basic_blocks bbs proc) in
          '(proc, gr') ← of_option undefined_read (build_graph proc);
          color_loop steps' fuel proc gr' gr' K M st'
  end.

Record alloc_result := {
  ar_proc : mprocedure;
  ar_graph : graph;
  ar_slots_used : list Z
}.

(** The part of [allocate_registers] after the loop: the stack length, "Swap
    the registers in the IR" and "Remove eliminated moves". *)
Definition finish_allocation (r : loop_result) : res alloc_result :=
  let proc := lr_proc r in
  let interference_graph := lr_graph r in
  let stack := (Z.land (num_spill_slots (lr_state r) + 1) (Z.lnot 1) * 8)%Z in
  let '(bbs, (gp_mask, fp_mask, failed)) :=
    visit_blocks (swap_reg interference_graph) (basic_blocks proc)
      (used_gp_mask proc, used_fp_mask proc, None) in
  match failed with
  | Some e => Fail e
  | None =>
      Ok {| ar_proc :=
              {| basic_blocks := erase_moves <$> bbs;
                 next_gp_id := next_gp_id proc; next_fp_id := next_fp_id proc;
                 used_stack_length := stack;
                 used_gp_mask := gp_mask; used_fp_mask := fp_mask |};
            ar_graph := interference_graph;
            ar_slots_used := slots_used (lr_state r) |}
  end.

(** The state the loop starts in. *)
Definition initial_state (proc : mprocedure) : rw_state :=
  {| st_next_gp := next_gp_id proc; st_next_fp := next_fp_id proc;
     num_spill_slots := 0; need_cg := false; slots_used := [] |}.

(** "Allocates registers for each virtual register and generates the spill
    instructions." *)
Definition allocate_registers (fuel : nat) (proc : mprocedure) : res alloc_result :=
  proc ← spill_args proc;
  '(proc, interference_graph) ← of_option undefined_read (build_graph proc);
  let K := N.min MAX_K (N.max (N.of_nat (length (Arch.gp_volatile a))) 2) in
  let M := N.min MAX_M (N.max (N.of_nat (length (Arch.fp_volatile a))) 2) in
  r ← color_loop max_steps fuel proc interference_graph interference_graph K M
        (initial_state proc);
  finish_allocation r.

End Allocate.

End Ralloc.

(** ** Well-formed graphs, and notions for the proofs *)

Module GraphSpec.
Import Mir Ralloc.

(** What [try_color] relies on in the graph it is given: rows are
    symmetric, a row that is not empty has its own bit, neighbours that are
    already colored have different colors, and a color fits the 64-bit
    color mask. *)
Record wf_graph (gr : graph) : Prop := {
  wf_sym : ∀ u v nu nv, gr !! u = Some nu → gr !! v = Some nv →
           Bitset.get (vtx nu) v = Bitset.get (vtx nv) u;
  wf_self : ∀ u nu, gr !! u = Some nu → vtx nu ≠ 0 → Bitset.get (vtx nu) u = true;
  wf_proper : ∀ u v nu nv, gr !! u = Some nu → gr !! v = Some nv → u ≠ v →
              Bitset.get (vtx nu) v = true →
              color nu ≠ 0 → color nv ≠ 0 → color nu ≠ color nv;
  wf_colors : ∀ u nu, gr !! u = Some nu → color nu ≤ 64
}.

(** An interference edge: two different nodes, one in the row of the other. *)
Definition edge (gr : graph) (u v : nat) : Prop :=
  u ≠ v ∧ ∃ nu nv, gr !! u = Some nu ∧ gr !! v = Some nv ∧ Bitset.get (vtx nu) v = true.

End GraphSpec.

(** Notions the proofs about [try_color] are written with. *)

Module ColorAux.
Import Mir Ralloc GraphSpec.

Definition removed_row (it : nat) (tmp : Bitset.t) (j : nat) (n : graph_node) : Bitset.t :=
  if bool_decide (j = it) then Bitset.empty
  else if Bitset.get tmp j then Bitset.reset (vtx n) it else vtx n.

(** The two halves of the loop that adds the node back. *)
Definition rows_step (it : nat) (tmp : Bitset.t) (g : graph) (i : nat) : graph :=
  if Bitset.get tmp i then alter (λ n, with_vtx (Bitset.set (vtx n) it) n) i g else g.

Definition strikes (it : nat) (tmp : Bitset.t) (g : graph) (i : nat) : option N :=
  if Bitset.get tmp i then
    match g !! i with
    | Some n => if negb (color n =? 0) && negb (i =? it)%nat
                then Some (color n) else None
    | None => None
    end
  else None.

Definition mask_step (it : nat) (tmp : Bitset.t) (g : graph) (m : N) (i : nat) : N :=
  match strikes it tmp g i with
  | Some c => N.ldiff m (shl64 1 (c - 1))
  | None => m
  end.

Definition restored_row (it : nat) (tmp : Bitset.t) (j : nat) (n : graph_node) : Bitset.t :=
  if bool_decide (j = it) then tmp
  else if Bitset.get tmp j then Bitset.set (vtx n) it else vtx n.

(** A node the scan stops at or remembers: uncolored, with a non-empty row. *)
Definition candidate (n : graph_node) : Prop := color n = 0 ∧ vtx n ≠ 0.

Definition weight (n : graph_node) : nat :=
  if (color n =? 0) && negb (vtx n =? 0) then 1 else 0.

Definition active (gr : graph) : nat := sum_list (weight <$> gr).

(** What a call leaves of a node: its row and class, and all of it when it
    came in colored. *)
Definition node_kept (n n' : graph_node) : Prop :=
  vtx n' = vtx n ∧ node_is_fp n' = node_is_fp n ∧ (color n ≠ 0 → n' = n).

Definition rows_kept (gr gr' : graph) : Prop :=
  length gr' = length gr
  ∧ ∀ j n, gr !! j = Some n → ∃ n', gr' !! j = Some n' ∧ node_kept n n'.

Definition all_colored (gr : graph) : Prop :=
  ∀ j n, gr !! j = Some n → vtx n ≠ 0 → color n ≠ 0.



End ColorAux.

(** ** What is expected of the register bands, of a built graph, and of the result *)

Module BuildSpec.
Import Mir Ralloc.

(** What the allocator takes for granted about the physical band (the spec's
    "pre-colored virtuals must encode legal physical registers"): the index of
    a physical register is at most 64 in absolute value, and two physical
    registers of one class have different indices. *)
Record bands_ok (RB : reg_bands) : Prop := {
  phys_bound : ∀ r, is_phys r = true → (Z.abs (phys r) ≤ 64)%Z;
  phys_inj : ∀ r r', is_phys r = true → is_phys r' = true → is_fp r = is_fp r' →
             r ≠ r' → Z.abs (phys r) ≠ Z.abs (phys r')
}.

(** Node [i] as lines 376 to 384 leave it, for the proofs: the count is the
    entry of [reg_use_counter], and 0 where [init_node] has none to read. *)
Definition node_at {RB : reg_bands} (reg_use_counter : list N) (i : nat) : graph_node :=
  let mr := from_uid i in
  {| vtx := Bitset.set Bitset.empty i;
     priority :=
       SFmul prec emax
         (float_of_size_t (wrap64 (default 0 (reg_use_counter !! i) + 1)))
         RA_PRIO_HOT_BIAS;
     coalescing_hints := coalescing_hints fresh_node;
     hint_id := hint_id fresh_node;
     color := if is_phys mr then wrap_u8 (Z.to_N (Z.abs (phys mr))) else 0;
     node_is_fp := is_fp mr;
     spill_slot := spill_slot fresh_node |}.

Definition nodes_at {RB : reg_bands} (reg_use_counter : list N) (max_reg_id : N) : graph :=
  node_at reg_use_counter <$> seq 0 (N.to_nat max_reg_id).

(** The color [build_graph] gives node [u] to start with. *)
Definition init_color {RB : reg_bands} (u : nat) : N :=
  if is_phys (from_uid u) then wrap_u8 (Z.to_N (Z.abs (phys (from_uid u)))) else 0.

(** What holds of the graph all through its construction. *)
Record built {RB : reg_bands} (g : graph) : Prop := {
  built_self : ∀ u nu, g !! u = Some nu → Bitset.get (vtx nu) u = true;
  built_color : ∀ u nu, g !! u = Some nu → color nu = init_color u;
  built_sym : ∀ u v nu nv, g !! u = Some nu → g !! v = Some nv →
              Bitset.get (vtx nu) v = Bitset.get (vtx nv) u;
  built_edge : ∀ u v nu nv, g !! u = Some nu → g !! v = Some nv → u ≠ v →
               Bitset.get (vtx nu) v = true →
               interferes_with (from_uid u) (from_uid v) = true
}.

End BuildSpec.

Module AllocSpec.
Import Mir Ralloc.

(** Two states of the rewriter with the same register counters, the same
    [num_spill_slots] and the same slots filled in. *)
Definition same_slots (st st' : rw_state) : Prop :=
  st_next_gp st' = st_next_gp st ∧ st_next_fp st' = st_next_fp st
  ∧ num_spill_slots st' = num_spill_slots st ∧ slots_used st' = slots_used st.

(** A register-to-register move whose destination is its source. *)
Definition self_move (i : minsn) : Prop :=
  (vopcode i = movi ∨ vopcode i = movf)
  ∧ ∃ r, arg i !! 0%nat = Some (op_reg r) ∧ out i = r.

(** The claim about the colors at the two ends of an edge. *)
Definition ends_apart (nu nv : graph_node) : Prop :=
  (spill_slot nu ≠ 0%Z ∧ spill_slot nv ≠ 0%Z ∧ spill_slot nu ≠ spill_slot nv)
  ∨ (color nu ≠ 0 ∧ color nv ≠ 0 ∧ color nu ≠ color nv).

End AllocSpec.

(** ** Notions for the liveness analysis *)

Module LiveSpec.
Import Mir Ralloc.

(** Set inclusion of bitsets, and a bound on the bits that are set. *)
Definition sub (x y : Bitset.t) : Prop :=
  ∀ i, Bitset.get x i = true → Bitset.get y i = true.

Definition below (W : nat) (x : Bitset.t) : Prop :=
  ∀ i, Bitset.get x i = true → (i < W)%nat.

(** Every register of every instruction has an id below [W]. *)
Definition regs_below (W : nat) (bbs : list basic_block) : Prop :=
  ∀ bb i r is_read, bb ∈ bbs → i ∈ instructions bb → (r, is_read) ∈ regs_of i →
                    (uid r < W)%nat.

(** [regs_below], as a test that can be run. *)
Definition regs_belowb (W : nat) (bbs : list basic_block) : bool :=
  forallb (λ bb, forallb (λ i, forallb (λ x : mreg * bool, (uid x.1 <? W)%nat) (regs_of i))
                         (instructions bb)) bbs.

(** The in-live sets of the successors of a block reach its out-live set,
    and nothing else does. *)
Definition out_is_union (bbs : list basic_block) (bb : basic_block) : Prop :=
  ∀ i, Bitset.get (df_out_live bb) i = true ↔
       ∃ s bs, s ∈ successors bb ∧ bbs !! s = Some bs ∧ Bitset.get (df_in_live bs) i = true.

(** The two equations at every block. *)
Definition solves_equations (bbs : list basic_block) : Prop :=
  ∀ b bb, bbs !! b = Some bb →
          out_is_union bbs bb
          ∧ df_in_live bb
            = Bitset.set_union (Bitset.set_difference (df_out_live bb) (df_def bb))
                               (df_ref bb).

(** Two blocks that differ in their four bitsets at most. *)
Definition same_code (bb bb' : basic_block) : Prop :=
  ∃ d r i o, bb' = with_df d r i o bb.

(** The number of registers below [W] in a bitset, and in all in-live sets. *)
Definition cnt (W : nat) (x : Bitset.t) : nat :=
  sum_list ((λ i, if Bitset.get x i then 1 else 0)%nat <$> seq 0 W).

Definition live_size (W : nat) (bbs : list basic_block) : nat :=
  sum_list ((λ bb, cnt W (df_in_live bb)) <$> bbs).

(** What holds between the rounds of the data-flow loop. *)
Definition live_inv (W : nat) (bbs : list basic_block) : Prop :=
  ∀ b bb, bbs !! b = Some bb →
          sub (df_in_live bb) (new_live bbs bb)
          ∧ below W (df_in_live bb) ∧ below W (df_ref bb)
          ∧ df_out_live bb = Bitset.empty.

(** No block's in-live set changes any more. *)
Definition live_fixed (bbs : list basic_block) : Prop :=
  ∀ b bb, bbs !! b = Some bb → new_live bbs bb = df_in_live bb.

End LiveSpec.

(** ** Notions for the use counts *)

Module CountSpec.
Import Mir Ralloc.

(** One call of the operand visitor: the register, whether it is read, and
    whether the instruction it stands in is one of the four loads and stores. *)
Record occurrence := { occ_reg : mreg; occ_read : bool; occ_mem : bool }.

Definition occurrences_of (i : minsn) : list occurrence :=
  (λ x : mreg * bool, {| occ_reg := x.1; occ_read := x.2; occ_mem := is_mem_access i |})
    <$> regs_of i.

(** All calls of the visitor over a procedure, in order. *)
Definition occurrences (proc : mprocedure) : list occurrence :=
  concat ((λ bb, concat (occurrences_of <$> instructions bb)) <$> basic_blocks proc).

Definition tally (p : occurrence → bool) (l : list occurrence) : N :=
  N.of_nat (length (List.filter p l)).

(** The reads of [r], and its occurrences, read or written, in loads and
    stores. *)
Definition reads_of (r : mreg) (l : list occurrence) : N :=
  tally (λ o, (occ_reg o =? r) && occ_read o) l.

Definition mem_operands_of (r : mreg) (l : list occurrence) : N :=
  tally (λ o, (occ_reg o =? r) && occ_mem o) l.

(** The count the code keeps: 1 for a read, 100 for an operand of a load or
    store. *)
Definition use_count (r : mreg) (l : list occurrence) : N :=
  reads_of r l + 100 * mem_operands_of r l.

(** The count in the words of the specification: 1 for an ordinary read, 100
    for a read in a load or store, nothing for a write. *)
Definition claimed_use_count (r : mreg) (l : list occurrence) : N :=
  tally (λ o, (occ_reg o =? r) && occ_read o && negb (occ_mem o)) l
  + 100 * tally (λ o, (occ_reg o =? r) && occ_read o && occ_mem o) l.

(** The priority a node is seeded with for a use count. *)
Definition seeded_priority (count : N) : spec_float :=
  SFmul prec emax (float_of_size_t (wrap64 (count + 1))) RA_PRIO_HOT_BIAS.

(** No register id is so large that [max_reg_id + 1] wraps. *)
Definition ids_fit (l : list occurrence) : Prop :=
  ∀ o, o ∈ l → occ_reg o + 1 < 2 ^ 32.

Definition ids_fitb (l : list occurrence) : bool :=
  forallb (λ o, occ_reg o + 1 <? 2 ^ 32) l.

(** The callback of the counting loop, on an occurrence. *)
Definition count_occ (st : list N * N) (o : occurrence) : list N * N :=
  let '(reg_use_counter, max_reg_id) := st in
  let '(reg_use_counter, max_reg_id) :=
    if max_reg_id <? occ_reg o
    then (resize (N.to_nat (wrap32 (occ_reg o + 1))) 0 reg_use_counter, occ_reg o)
    else (reg_use_counter, max_reg_id) in
  let reg_use_counter :=
    if occ_read o
    then alter (λ c, wrap64 (c + 1)) (uid (occ_reg o)) reg_use_counter
    else reg_use_counter in
  let reg_use_counter :=
    if occ_mem o
    then alter (λ c, wrap64 (c + 100)) (uid (occ_reg o)) reg_use_counter
    else reg_use_counter in
  (reg_use_counter, max_reg_id).

(** What holds of the counters after the occurrences [l]. *)
Definition counted (l : list occurrence) (st : list N * N) : Prop :=
  (∀ o, o ∈ l → occ_reg o ≤ st.2)
  ∧ length st.1 = (if st.2 =? 0 then 0%nat else S (N.to_nat st.2))
  ∧ ∀ r, default 0 (st.1 !! uid r) = wrap64 (use_count r l).

End CountSpec.

(** ** Notions for the scan of [try_color] *)

Module PickSpec.
Import Mir Ralloc ColorAux.

(** [deg] of the scan after [--deg]: the number of bits of the row, less one
    for the node's own bit. *)
Definition degree (n : graph_node) : N := N.of_nat (Bitset.popcount (vtx n) - 1).

Definition simplifiable (K M : N) (n : graph_node) : Prop :=
  candidate n ∧ degree n < budget K M n.

Definition over_degree (K M : N) (n : graph_node) : Prop :=
  candidate n ∧ budget K M n < degree n.

(** No node the scan looks at has exactly as many neighbours as its class has
    colors. *)
Definition off_budget (K M : N) (gr : graph) : Prop :=
  ∀ j n, gr !! j = Some n → candidate n → degree n ≠ budget K M n.

Definition off_budgetb (K M : N) (gr : graph) : bool :=
  forallb (λ n, negb ((color n =? 0) && negb (vtx n =? 0))
                || negb (degree n =? budget K M n)) gr.

(** What the scan has established of the nodes it went past: each that is
    uncolored with a non-empty row is over its budget, and [overlimit_it] is
    one of them that none undercuts in priority. *)
Definition scanned (K M : N) (pre : graph) (ov : option (nat * graph_node)) : Prop :=
  (∀ j m, pre !! j = Some m → candidate m → budget K M m < degree m)
  ∧ match ov with
    | None => ∀ j m, pre !! j = Some m → ¬ candidate m
    | Some (o, no) =>
        pre !! o = Some no ∧ candidate no
        ∧ ∀ j m, pre !! j = Some m → candidate m →
                 SFltb (priority m) (priority no) = false
    end.

(** An uncolored node whose row holds its own bit alone. *)
Definition isolated : graph_node :=
  {| vtx := Bitset.set Bitset.empty 0; priority := RA_PRIO_HOT_BIAS;
     coalescing_hints := []; hint_id := 0; color := 0; node_is_fp := false;
     spill_slot := 0 |}.

End PickSpec.

(** ** Notions for the edges of the graph and for the least solution *)

Module EdgeSpec.
Import Mir Ralloc.

(** Node [u] has [v] in its row. *)
Definition adjacent (g : graph) (u v : nat) : Prop :=
  ∃ n, g !! u = Some n ∧ Bitset.get (vtx n) v = true.

(** A graph with the same nodes and at least the same rows. *)
Definition grows (g g' : graph) : Prop :=
  length g' = length g ∧ ∀ u v, adjacent g u v → adjacent g' u v.

(** What the backwards walk of [build_graph] makes of [live] at one
    instruction: the defined register is taken out, then the registers read
    are put in. *)
Definition live_step (live : Bitset.t) (i : minsn) : Bitset.t :=
  let live :=
    if negb (is_null (out i)) then Bitset.reset live (uid (out i)) else live in
  foldl (λ l (x : mreg * bool), if x.2 then Bitset.set l (uid x.1) else l)
        live (regs_of i).

(** [live] when the walk comes to instruction [k] of a block (the registers
    live after it), and when it leaves it (those live before it). *)
Definition live_after (b : basic_block) (k : nat) : Bitset.t :=
  foldl live_step (df_out_live b) (reverse (drop (S k) (instructions b))).

Definition live_before (b : basic_block) (k : nat) : Bitset.t :=
  foldl live_step (df_out_live b) (reverse (drop k (instructions b))).

(** What the data-flow equations read of a block. *)
Definition flow (bb : basic_block) : list nat * Bitset.t * Bitset.t :=
  (successors bb, df_def bb, df_ref bb).

(** [sol] gives every block a set that holds what the block reads before it
    writes it, and what a successor's set holds and the block does not write. *)
Definition closed (bbs : list basic_block) (sol : nat → Bitset.t) : Prop :=
  ∀ b bb i, bbs !! b = Some bb →
            (Bitset.get (df_ref bb) i = true
             ∨ (Bitset.get (df_def bb) i = false
                ∧ ∃ s, s ∈ successors bb ∧ (s < length bbs)%nat
                       ∧ Bitset.get (sol s) i = true)) →
            Bitset.get (sol b) i = true.

End EdgeSpec.

Module FlowSpec.
Import Mir Ralloc.

(** The calls of the operand visitor over a block, in order. *)
Definition visits (bb : basic_block) : list (mreg * bool) :=
  concat (regs_of <$> instructions bb).

End FlowSpec.

(** ** Notions for the spill slots *)

Module SlotSpec.
Import Mir Ralloc.

(** No node has a spill slot yet. *)
Definition no_slots (gr : graph) : Prop :=
  ∀ j n, gr !! j = Some n → spill_slot n = 0%Z.

(** What a call of [try_color] on a graph without slots leaves of the slots:
    none is negative, a node whose row was empty has none, and a node with a
    slot has it to itself among its neighbours. *)
Definition slots_ok (gr gr' : graph) : Prop :=
  (∀ j n', gr' !! j = Some n' → (0 ≤ spill_slot n')%Z)
  ∧ (∀ j n n', gr !! j = Some n → gr' !! j = Some n' → vtx n = 0 →
               spill_slot n' = 0%Z)
  ∧ (∀ u v nu nv, gr' !! u = Some nu → gr' !! v = Some nv → u ≠ v →
                  Bitset.get (vtx nu) v = true → spill_slot nu ≠ 0%Z →
                  spill_slot nu ≠ spill_slot nv).

End SlotSpec.

(** ** include/ir/arch.hpp: register names *)

Module ArchNames.
Import Arch.
Import Stdlib.Strings.String.

(** [name_native], of the x86-64 branch: the switch over the registers of the
    two tables; what it does not list ([default:]) gets "?". *)
Definition name_native (r : native_reg) : string :=
  match r with
  | RAX => "AX" | RCX => "CX" | RDX => "DX" | RSP => "SP"
  | RBP => "BP" | RSI => "SI" | RDI => "DI" | RBX => "BX"
  | R8 => "8" | R9 => "9" | R10 => "10" | R11 => "11"
  | R12 => "12" | R13 => "13" | R14 => "14" | R15 => "15"
  | XMM0 => "X0" | XMM1 => "X1" | XMM2 => "X2" | XMM3 => "X3"
  | XMM4 => "X4" | XMM5 => "X5" | XMM6 => "X6" | XMM7 => "X7"
  | XMM8 => "X8" | XMM9 => "X9"
  | XMM10 => "X0" | XMM11 => "X1" | XMM12 => "X2" | XMM13 => "X3"
  | XMM14 => "X4" | XMM15 => "X5"
  | _ => "?"
  end%string.

(** The registers the switch of [name_native] has a [case] for. *)
Definition has_case (r : native_reg) : bool :=
  match r with
  | NO_REG | OTHER_REG _ => false
  | _ => true
  end.

(** XMM10 to XMM15 taken to XMM0 to XMM5, every other register to itself. *)
Definition low_xmm (r : native_reg) : native_reg :=
  match r with
  | XMM10 => XMM0 | XMM11 => XMM1 | XMM12 => XMM2
  | XMM13 => XMM3 | XMM14 => XMM4 | XMM15 => XMM5
  | _ => r
  end.

End ArchNames.

(** ** Notions for the spill rewriter *)

Module SpillSpec.
Import Mir Ralloc.

Section WithBands.
Context {RB : reg_bands}.

(** The test of lines 517 to 527: the callback of the rewriter calls
    [spill_and_swap] for the register [r]. *)
Definition spilled (gr : graph) (r : mreg) : bool :=
  negb (is_pseudo r || negb (is_virt r))
  && match gr !! uid r with
     | Some info => negb (spill_slot info =? 0)%Z
     | None => false
     end.

End WithBands.

End SpillSpec.

(** ** A register layout and procedures for the examples *)

Module Sample.
Import Mir Ralloc.

(** Modelled from the spec: one layout of the bands of the register id
    space, used where a property is run on a concrete procedure.  Ids 1 to 3
    are the reserved virtuals [vreg_vm], [vreg_tos], [vreg_nargs]; id 4 is the
    flags register; ids 8 to 39 are the general-purpose physical registers
    1 to 32 and ids 40 to 71 the floating-point ones -1 to -32; from 72 on
    the ids are the allocatable virtual registers, even for general purpose
    and odd for floating point. *)
Definition bands : reg_bands := {|
  is_flag r := r =? 4;
  is_fp r := if r <? 72 then (40 <=? r) else N.odd r;
  is_virt r := ((1 <=? r) && (r <? 4)) || (72 <=? r);
  is_phys r := (8 <=? r) && (r <? 72);
  virt r := if r <? 72 then Z.of_N r else (Z.of_N r - 64)%Z;
  phys r := if r <? 40 then (Z.of_N r - 7)%Z else (39 - Z.of_N r)%Z;
  vreg_first := 8;
  vreg_vm := 1;
  vreg_tos := 2;
  vreg_nargs := 3;
  of_arch_reg x :=
    if (x =? 0)%Z then 0 else if (0 <? x)%Z then Z.to_N (x + 7) else Z.to_N (39 - x);
  make_gp n := 72 + 2 * n;
  make_fp n := 73 + 2 * n
|}.

(** Modelled from the spec: a numbering of [zy::reg] with [NO_REG] at 0. *)
Definition native_code (r : Arch.native_reg) : Z :=
  match r with
  | Arch.NO_REG => 0
  | Arch.OTHER_REG n => 33 + Z.of_N n
  | Arch.RAX => 1 | Arch.RCX => 2 | Arch.RDX => 3 | Arch.RBX => 4
  | Arch.RSP => 5 | Arch.RBP => 6 | Arch.RSI => 7 | Arch.RDI => 8
  | Arch.R8 => 9 | Arch.R9 => 10 | Arch.R10 => 11 | Arch.R11 => 12
  | Arch.R12 => 13 | Arch.R13 => 14 | Arch.R14 => 15 | Arch.R15 => 16
  | Arch.XMM0 => 17 | Arch.XMM1 => 18 | Arch.XMM2 => 19 | Arch.XMM3 => 20
  | Arch.XMM4 => 21 | Arch.XMM5 => 22 | Arch.XMM6 => 23 | Arch.XMM7 => 24
  | Arch.XMM8 => 25 | Arch.XMM9 => 26 | Arch.XMM10 => 27 | Arch.XMM11 => 28
  | Arch.XMM12 => 29 | Arch.XMM13 => 30 | Arch.XMM14 => 31 | Arch.XMM15 => 32
  end%Z.

Definition block (insns : list minsn) (succ : list nat) : basic_block :=
  {| block_uid := 0; hot := 0; instructions := insns; successors := succ;
     df_def := 0; df_ref := 0; df_in_live := 0; df_out_live := 0 |}.

Definition procedure (bbs : list basic_block) : mprocedure :=
  {| basic_blocks := bbs; next_gp_id := 16; next_fp_id := 16;
     used_stack_length := 0; used_gp_mask := 0; used_fp_mask := 0 |}.

Definition insn (o : vop) (d : mreg) (args : list mop) : minsn :=
  {| vopcode := o; out := d; arg := args |}.

(** v72 = movi 1; v74 = movi 2; v72 = add v72 v74; ret v72 *)
Definition straight_line : mprocedure :=
  procedure
    [block [insn movi 72 [op_imm 1]; insn movi 74 [op_imm 2];
            insn (other 0) 72 [op_reg 72; op_reg 74];
            insn (other 1) 0 [op_reg 72]] []].

(** v72 = movi 7; v74 = movi v72; ret v74 *)
Definition coalesced : mprocedure :=
  procedure
    [block [insn movi 72 [op_imm 7]; insn movi 74 [op_reg 72];
            insn (other 1) 0 [op_reg 74]] []].

(** A loop: v72 = movi 0; v74 = movi 10 / v72 = add v72 v74; branch / ret v72 *)
Definition looping : mprocedure :=
  procedure
    [block [insn movi 72 [op_imm 0]; insn movi 74 [op_imm 10]] [1%nat];
     block [insn (other 0) 72 [op_reg 72; op_reg 74];
            insn (other 2) 4 [op_reg 72; op_reg 74]] [1%nat; 2%nat];
     block [insn (other 1) 0 [op_reg 72]] []].

(** v72 = loadi64 [r12 + 16] *)
Definition load_only : mprocedure :=
  procedure [block [insn loadi64 72 [op_mem {| base := 12; disp := 16 |}]] []].

(** Seventeen general-purpose values, all live at once; the first one defined
    is the last one used.  The counter of [next_gp()] is past them. *)
Definition one_spill : mprocedure :=
  {| basic_blocks :=
       [block (((λ k, insn movi (72 + 2 * N.of_nat k) [op_imm (Z.of_nat k)]) <$> seq 0 17)
               ++ ((λ k, insn (other 1) 0 [op_reg (72 + 2 * N.of_nat k)])
                     <$> reverse (seq 0 17))) []];
     next_gp_id := 17; next_fp_id := 16;
     used_stack_length := 0; used_gp_mask := 0; used_fp_mask := 0 |}.

(** Sixteen general-purpose values, all live at once. *)
Definition sixteen_live : mprocedure :=
  procedure
    [block (((λ k, insn movi (72 + 2 * N.of_nat k) [op_imm (Z.of_nat k)]) <$> seq 0 16)
            ++ ((λ k, insn (other 1) 0 [op_reg (72 + 2 * N.of_nat k)])
                  <$> reverse (seq 0 16))) []].

(** Three general-purpose nodes, each a neighbour of the other two. *)
Definition triangle : graph :=
  [ {| vtx := 7; priority := float_of_size_t 36; coalescing_hints := [];
       hint_id := 0; color := 0; node_is_fp := false; spill_slot := 0 |};
    {| vtx := 7; priority := float_of_size_t 24; coalescing_hints := [];
       hint_id := 0; color := 0; node_is_fp := false; spill_slot := 0 |};
    {| vtx := 7; priority := float_of_size_t 12; coalescing_hints := [];
       hint_id := 0; color := 0; node_is_fp := false; spill_slot := 0 |} ].

End Sample.

(** * Properties *)

(** ** ABI descriptor *)

Module ArchFacts.
Import Arch.

(** Every index that is inside the argument list is answered with the
    invalid register. *)
Lemma map_argument_native_within (a : abi) (gp fp : N) (is_fp : bool) :
  let idx := if combined_arg_counter a then wrap64 (gp + fp)
             else if is_fp then fp else gp in
  idx <= N.of_nat (length (if is_fp then fp_argument a else gp_argument a)) →
  map_argument_native a gp fp is_fp = Some (invalid a).
Proof.
  intros idx Hle. unfold map_argument_native, idx in *.
  destruct is_fp; simpl; destruct (combined_arg_counter a);
    match goal with
    | |- (if ?c then _ else _) = _ =>
        let E := fresh in destruct c eqn:E;
        [ apply N.ltb_lt in E; lia | reflexivity ]
    end.
Qed.

(** Every index past the argument list is an out-of-bounds read. *)
Lemma map_argument_native_beyond (a : abi) (gp fp : N) (is_fp : bool) :
  let idx := if combined_arg_counter a then wrap64 (gp + fp)
             else if is_fp then fp else gp in
  N.of_nat (length (if is_fp then fp_argument a else gp_argument a)) < idx →
  map_argument_native a gp fp is_fp = None.
Proof.
  intros idx Hlt. unfold map_argument_native, idx in *.
  destruct is_fp; simpl; destruct (combined_arg_counter a);
    match goal with
    | |- (if ?c then _ else _) = _ =>
        let E := fresh in destruct c eqn:E;
        [ apply lookup_ge_None_2; apply N.ltb_lt in E; lia
        | apply N.ltb_ge in E; lia ]
    end.
Qed.

(** C4 (the code on every index).  [map_argument_native] never answers with
    a register of the argument list: it gives the invalid register, or reads
    past the end of the list.  At the first general-purpose argument of the
    MS64 ABI it gives the invalid register, and so does [map_argument],
    although the ABI's first argument register is RCX, whose index in the
    signed virtual space is 2. *)
Theorem map_argument_never_in_list :
  (∀ (a : abi) (gp fp : N) (is_fp : bool),
     map_argument_native a gp fp is_fp = Some (invalid a)
     ∨ map_argument_native a gp fp is_fp = None)
  ∧ map_argument_native MS64 0 0 false = Some NO_REG
  ∧ map_argument MS64 Sample.native_code 0 0 false = Some NO_REG
  ∧ gp_argument MS64 !! 0%nat = Some RCX
  ∧ from_native MS64 RCX = 2%Z
  ∧ to_native MS64 2%Z = RCX.
Proof.
  split; [|repeat split].
  intros a gp fp is_fp.
  pose proof (map_argument_native_within a gp fp is_fp) as Hin.
  pose proof (map_argument_native_beyond a gp fp is_fp) as Hout.
  cbv zeta in Hin, Hout.
  destruct (N.le_gt_cases
              (if combined_arg_counter a then wrap64 (gp + fp)
               else if is_fp then fp else gp)
              (N.of_nat (length (if is_fp then fp_argument a else gp_argument a))));
    [left | right]; auto.
Qed.

End ArchFacts.

(** ** Bitsets and 64-bit words *)

#[global] Arguments Bitset.get : simpl never.
#[global] Arguments Bitset.set : simpl never.
#[global] Arguments Bitset.reset : simpl never.
#[global] Arguments Bitset.empty : simpl never.
#[global] Arguments Bitset.set_union : simpl never.
#[global] Arguments Bitset.set_difference : simpl never.

Module BitsetFacts.
Import Bitset.

Lemma get_set (b : t) (i j : nat) : get (set b i) j = bool_decide (i = j) || get b j.
Proof.
  unfold get, set. rewrite N.setbit_eqb.
  destruct (N.eqb_spec (N.of_nat i) (N.of_nat j)); case_bool_decide; try reflexivity; lia.
Qed.

Lemma get_reset (b : t) (i j : nat) :
  get (reset b i) j = get b j && negb (bool_decide (i = j)).
Proof.
  unfold get, reset. rewrite N.clearbit_eqb.
  destruct (N.eqb_spec (N.of_nat i) (N.of_nat j)); case_bool_decide; try reflexivity; lia.
Qed.

Lemma get_empty (j : nat) : get empty j = false.
Proof. unfold get, empty. apply N.bits_0. Qed.

Lemma get_union (a b : t) (j : nat) : get (set_union a b) j = get a j || get b j.
Proof. apply N.lor_spec. Qed.

Lemma get_difference (a b : t) (j : nat) :
  get (set_difference a b) j = get a j && negb (get b j).
Proof. apply N.ldiff_spec. Qed.

Lemma popcount_pos_pos (p : positive) : (0 < popcount_pos p)%nat.
Proof. induction p; simpl; lia. Qed.

Lemma popcount_zero (b : t) : popcount b = 0%nat ↔ b = 0.
Proof.
  destruct b as [|p]; simpl; [tauto|].
  pose proof (popcount_pos_pos p). split; [lia | discriminate].
Qed.

Lemma get_nonempty (b : t) (j : nat) : get b j = true → b ≠ 0.
Proof. intros H ->. rewrite get_empty in H. discriminate. Qed.

Lemma reset_empty (i : nat) : reset empty i = empty.
Proof. apply N.bits_inj. intros k. unfold reset, empty. rewrite N.clearbit_eqb, N.bits_0. reflexivity. Qed.

End BitsetFacts.

Module WordFacts.
Import Ralloc.

Lemma shl64_one_bit (s b : N) :
  N.testbit (shl64 1 s) b = (b =? s) && (b <? 64).
Proof.
  unfold shl64, wrap64.
  destruct (N.ltb_spec b 64) as [Hb|Hb].
  - rewrite N.mod_pow2_bits_low by assumption.
    destruct (N.eqb_spec b s) as [->|Hne]; cbn [andb].
    + rewrite N.shiftl_spec_high' by lia. rewrite N.sub_diag. reflexivity.
    + destruct (N.lt_ge_cases b s) as [Hlt|Hge].
      * apply N.shiftl_spec_low. assumption.
      * rewrite N.shiftl_spec_high' by assumption.
        replace (b - s) with (N.succ (N.pred (b - s))) by lia.
        change 1 with (N.succ_double 0) at 1.
        destruct (N.pred (b - s)); reflexivity.
  - rewrite N.mod_pow2_bits_high by assumption. rewrite andb_false_r. reflexivity.
Qed.

Lemma ctz_pos_bit (p : positive) : N.testbit (Npos p) (ctz_pos p) = true.
Proof.
  induction p as [p IH|p IH|]; cbn [ctz_pos]; try reflexivity.
  change (N.pos p~0) with (2 * N.pos p). rewrite N.double_bits_succ. exact IH.
Qed.

Lemma ctz_pos_low (p : positive) (j : N) : j < ctz_pos p → N.testbit (Npos p) j = false.
Proof.
  revert j. induction p as [p IH|p IH|]; cbn [ctz_pos]; intros j Hj; try lia.
  destruct (N.eq_dec j 0) as [->|Hne]; [reflexivity|].
  replace j with (N.succ (N.pred j)) by lia.
  change (N.pos p~0) with (2 * N.pos p). rewrite N.double_bits_succ.
  apply IH. lia.
Qed.

Lemma countr_zero_bit (m : N) : m ≠ 0 → N.testbit m (countr_zero m) = true.
Proof. destruct m; [congruence|]. intros _. apply ctz_pos_bit. Qed.

Lemma countr_zero_low (m j : N) : j < countr_zero m → N.testbit m j = false.
Proof. destruct m; [intros _; apply N.bits_0|]. apply ctz_pos_low. Qed.

Lemma countr_zero_zero (m : N) : countr_zero m < 64 → m ≠ 0.
Proof. intros H ->. simpl in H. lia. Qed.

End WordFacts.

Module ColorFacts.
Import Mir Ralloc ColorAux BitsetFacts WordFacts.

(** A loop over the first [k] positions that rewrites the entries chosen
    by [P]. *)
Lemma foldl_alter_lookup {A} (P : nat → bool) (f : A → A) (g : list A) (k j : nat) :
  foldl (λ g i, if P i then alter f i g else g) g (seq 0 k) !! j
  = if P j && bool_decide (j < k)%nat then f <$> g !! j else g !! j.
Proof.
  induction k as [|k IH].
  - simpl. rewrite andb_false_r. reflexivity.
  - rewrite seq_S, foldl_snoc. simpl.
    destruct (decide (k = j)) as [->|Hne].
    + rewrite (bool_decide_eq_true_2 (j < S j)%nat) by lia. rewrite andb_true_r.
      destruct (P j).
      * rewrite list_lookup_alter_eq, IH.
        rewrite (bool_decide_eq_false_2 (j < j)%nat) by lia.
        rewrite andb_false_r. reflexivity.
      * rewrite IH. rewrite (bool_decide_eq_false_2 (j < j)%nat) by lia.
        reflexivity.
    + assert (bool_decide (j < S k)%nat = bool_decide (j < k)%nat) as ->.
      { apply bool_decide_ext. lia. }
      destruct (P k); [rewrite list_lookup_alter_ne by assumption|]; exact IH.
Qed.

Lemma foldl_alter_length {A} (P : nat → bool) (f : A → A) (g : list A) (l : list nat) :
  length (foldl (λ g i, if P i then alter f i g else g) g l) = length g.
Proof.
  revert g. induction l as [|i l IH]; intros g; simpl; [reflexivity|].
  rewrite IH. destruct (P i); [apply length_alter | reflexivity].
Qed.

Lemma with_vtx_id (n : graph_node) : with_vtx (vtx n) n = n.
Proof. destruct n; reflexivity. Qed.

(** *** Taking a node out and putting it back *)

Lemma remove_node_lookup (it : nat) (tmp : Bitset.t) (gr : graph) (j : nat) :
  remove_node it tmp gr !! j = (λ n, with_vtx (removed_row it tmp j n) n) <$> gr !! j.
Proof.
  unfold remove_node.
  rewrite (foldl_alter_lookup (Bitset.get tmp)
             (λ n, with_vtx (Bitset.reset (vtx n) it) n)), list_lookup_alter.
  unfold removed_row.
  destruct (decide (it = j)) as [->|Hne].
  - rewrite (bool_decide_eq_true_2 (j = j)) by reflexivity.
    destruct (gr !! j) as [n|] eqn:Hj; simpl.
    + destruct (Bitset.get tmp j && bool_decide (j < length gr)%nat); simpl;
        [|reflexivity].
      reflexivity.
    + destruct (Bitset.get tmp j && bool_decide (j < length gr)%nat); reflexivity.
  - rewrite (bool_decide_eq_false_2 (j = it)) by congruence.
    destruct (gr !! j) as [n|] eqn:Hj; simpl.
    + apply lookup_lt_Some in Hj as Hlt.
      rewrite (bool_decide_eq_true_2 (j < length gr)%nat) by assumption.
      rewrite andb_true_r. destruct (Bitset.get tmp j); simpl; [reflexivity|].
      rewrite with_vtx_id. reflexivity.
    + destruct (Bitset.get tmp j && bool_decide (j < length gr)%nat); reflexivity.
Qed.

Lemma remove_node_length (it : nat) (tmp : Bitset.t) (gr : graph) :
  length (remove_node it tmp gr) = length gr.
Proof.
  unfold remove_node.
  rewrite (foldl_alter_length (Bitset.get tmp)
             (λ n, with_vtx (Bitset.reset (vtx n) it) n)).
  apply length_alter.
Qed.

Lemma rows_step_color (it : nat) (tmp : Bitset.t) (g : graph) (i j : nat) :
  color <$> rows_step it tmp g i !! j = color <$> g !! j.
Proof.
  unfold rows_step. destruct (Bitset.get tmp i); [|reflexivity].
  rewrite list_lookup_alter. destruct (decide (i = j)) as [->|]; [|reflexivity].
  destruct (g !! j); reflexivity.
Qed.

Lemma strikes_rows_step (it : nat) (tmp : Bitset.t) (g : graph) (i j : nat) :
  strikes it tmp (rows_step it tmp g i) j = strikes it tmp g j.
Proof.
  unfold strikes. destruct (Bitset.get tmp j); [|reflexivity].
  pose proof (rows_step_color it tmp g i j) as H.
  destruct (rows_step it tmp g i !! j) as [n|], (g !! j) as [n'|];
    simpl in H; try congruence.
  injection H as ->. reflexivity.
Qed.

Lemma restore_step_split (it : nat) (tmp : Bitset.t) (g : graph) (m : N) (i : nat) :
  restore_step it tmp (g, m) i = (rows_step it tmp g i, mask_step it tmp g m i).
Proof.
  unfold restore_step, rows_step, mask_step, strikes.
  destruct (Bitset.get tmp i); [|reflexivity].
  rewrite list_lookup_alter_eq.
  destruct (g !! i) as [n|]; simpl; [|reflexivity].
  destruct (negb (color n =? 0) && negb (i =? it)%nat); reflexivity.
Qed.

Lemma mask_fold_ext (it : nat) (tmp : Bitset.t) (g g' : graph) (m : N) (l : list nat) :
  (∀ j, strikes it tmp g' j = strikes it tmp g j) →
  foldl (mask_step it tmp g') m l = foldl (mask_step it tmp g) m l.
Proof.
  intros H. revert m. induction l as [|i l IH]; intros m; simpl; [reflexivity|].
  rewrite IH. unfold mask_step. rewrite H. reflexivity.
Qed.

Lemma restore_fold_split (it : nat) (tmp : Bitset.t) (l : list nat) (g : graph) (m : N) :
  foldl (restore_step it tmp) (g, m) l
  = (foldl (rows_step it tmp) g l, foldl (mask_step it tmp g) m l).
Proof.
  revert g m. induction l as [|i l IH]; intros g m; cbn [foldl]; [reflexivity|].
  rewrite restore_step_split, IH. f_equal.
  apply mask_fold_ext. intros j. apply strikes_rows_step.
Qed.

Lemma mask_fold_bit (it : nat) (tmp : Bitset.t) (g : graph) (l : list nat) (m b : N) :
  N.testbit (foldl (mask_step it tmp g) m l) b
  = N.testbit m b
    && forallb (λ i, match strikes it tmp g i with
                     | Some c => negb (N.testbit (shl64 1 (c - 1)) b)
                     | None => true
                     end) l.
Proof.
  revert m. induction l as [|i l IH]; intros m; simpl.
  - rewrite andb_true_r. reflexivity.
  - rewrite IH. unfold mask_step. destruct (strikes it tmp g i) as [c|]; simpl.
    + rewrite N.ldiff_spec, andb_assoc. reflexivity.
    + reflexivity.
Qed.

Lemma restore_node_lookup (it : nat) (tmp : Bitset.t) (gr : graph) (j : nat) :
  (restore_node it tmp gr).1 !! j
  = (λ n, with_vtx (restored_row it tmp j n) n) <$> gr !! j.
Proof.
  unfold restore_node. rewrite restore_fold_split. simpl.
  rewrite list_lookup_alter. unfold rows_step, restored_row.
  destruct (decide (it = j)) as [->|Hne].
  - rewrite (bool_decide_eq_true_2 (j = j)) by reflexivity.
    rewrite (foldl_alter_lookup (Bitset.get tmp)
               (λ n, with_vtx (Bitset.set (vtx n) j) n)).
    destruct (gr !! j) as [n|] eqn:Hj; simpl;
      destruct (Bitset.get tmp j && bool_decide (j < length gr)%nat); reflexivity.
  - rewrite (bool_decide_eq_false_2 (j = it)) by congruence.
    rewrite (foldl_alter_lookup (Bitset.get tmp)
               (λ n, with_vtx (Bitset.set (vtx n) it) n)).
    destruct (gr !! j) as [n|] eqn:Hj; simpl.
    + apply lookup_lt_Some in Hj as Hlt.
      rewrite (bool_decide_eq_true_2 (j < length gr)%nat) by assumption.
      rewrite andb_true_r. destruct (Bitset.get tmp j); simpl; [reflexivity|].
      rewrite with_vtx_id. reflexivity.
    + destruct (Bitset.get tmp j && bool_decide (j < length gr)%nat); reflexivity.
Qed.

Lemma restore_node_length (it : nat) (tmp : Bitset.t) (gr : graph) :
  length (restore_node it tmp gr).1 = length gr.
Proof.
  unfold restore_node. rewrite restore_fold_split. simpl.
  rewrite length_alter.
  apply (foldl_alter_length (Bitset.get tmp)
           (λ n, with_vtx (Bitset.set (vtx n) it) n)).
Qed.

(** A color is left in the mask exactly when it is one of the 64 and no
    colored neighbour named by [tmp] has it. *)
Lemma restore_node_mask (it : nat) (tmp : Bitset.t) (gr : graph) (b : N) :
  N.testbit (restore_node it tmp gr).2 b = true ↔
  b < 64 ∧ ∀ i n, gr !! i = Some n → Bitset.get tmp i = true → i ≠ it →
                  color n ≠ 0 → color n - 1 ≠ b.
Proof.
  unfold restore_node. rewrite restore_fold_split. simpl.
  rewrite mask_fold_bit, andb_true_iff, N.ones_spec_iff, forallb_forall.
  split; intros [Hb H]; split; try assumption.
  - intros i n Hi Ht Hne Hc Heq.
    assert (Hin : In i (seq 0 (length gr))).
    { apply in_seq. apply lookup_lt_Some in Hi. lia. }
    specialize (H i Hin). unfold strikes in H. rewrite Ht, Hi in H.
    destruct (N.eqb_spec (color n) 0); [congruence|].
    destruct (Nat.eqb_spec i it); [congruence|]. simpl in H.
    rewrite shl64_one_bit, Heq, N.eqb_refl in H.
    apply N.ltb_lt in Hb. rewrite Hb in H. discriminate.
  - intros i _. unfold strikes.
    destruct (Bitset.get tmp i) eqn:Ht; [|reflexivity].
    destruct (gr !! i) as [n|] eqn:Hi; [|reflexivity].
    destruct (N.eqb_spec (color n) 0); [reflexivity|].
    destruct (Nat.eqb_spec i it); [reflexivity|]. simpl.
    rewrite shl64_one_bit. apply negb_true_iff, andb_false_iff. left.
    apply N.eqb_neq. intros ->. eapply H; eauto.
Qed.

End ColorFacts.

Module PickFacts.
Import Mir Ralloc ColorAux BitsetFacts WordFacts ColorFacts.

Lemma pick_scan_sound (K M : N) (gr rest : graph) (i : nat)
    (ov : option (nat * graph_node)) :
  (∀ k n, rest !! k = Some n → gr !! (i + k)%nat = Some n) →
  (∀ o n, ov = Some (o, n) → gr !! o = Some n ∧ candidate n) →
  ∀ it n, (pick_scan K M rest i ov).1 = Some (it, n)
          ∨ (pick_scan K M rest i ov).2 = Some (it, n) →
          gr !! it = Some n ∧ candidate n.
Proof.
  revert i ov. induction rest as [|x rest IH]; intros i ov Hrest Hov it n; simpl.
  - intros [H|H]; [discriminate | eauto].
  - assert (Hx : gr !! i = Some x).
    { specialize (Hrest 0%nat x eq_refl). rewrite Nat.add_0_r in Hrest. exact Hrest. }
    assert (Hrest' : ∀ k n, rest !! k = Some n → gr !! (S i + k)%nat = Some n).
    { intros k n' Hk. specialize (Hrest (S k) n' Hk).
      rewrite <- Nat.add_succ_comm in Hrest. exact Hrest. }
    destruct (N.eqb_spec (color x) 0) as [Hc|Hc]; simpl; [|eauto].
    destruct (Nat.eqb_spec (Bitset.popcount (vtx x)) 0) as [Hp|Hp]; [eauto|].
    assert (Hcand : candidate x).
    { split; [assumption|]. intros Hz. apply Hp. apply popcount_zero. exact Hz. }
    destruct (budget K M x <? N.of_nat (Bitset.popcount (vtx x) - 1)).
    + apply IH; [assumption|].
      intros o n' Ho. destruct ov as [[o' on']|].
      * destruct (SFltb (priority x) (priority on')).
        -- injection Ho as <- <-. auto.
        -- eauto.
      * injection Ho as <- <-. auto.
    + simpl. intros [H|H]; [injection H as <- <-; auto | eauto].
Qed.

Lemma pick_sound (gr : graph) (K M : N) (it : nat) (n : graph_node) :
  pick gr K M = Some (it, n) → gr !! it = Some n ∧ candidate n.
Proof.
  unfold pick. intros H.
  apply (pick_scan_sound K M gr gr 0 None).
  - intros k n' Hk. exact Hk.
  - discriminate.
  - destruct (pick_scan K M gr 0 None) as [[x|] o]; simpl; [left | right]; assumption.
Qed.

Lemma pick_scan_keeps (K M : N) (rest : graph) (i : nat) (x : nat * graph_node) :
  (pick_scan K M rest i (Some x)).2 ≠ None.
Proof.
  revert i x. induction rest as [|y rest IH]; intros i x; simpl; [discriminate|].
  destruct (negb (color y =? 0)); [apply IH|].
  destruct (Bitset.popcount (vtx y) =? 0)%nat; [apply IH|].
  destruct (budget K M y <? N.of_nat (Bitset.popcount (vtx y) - 1)).
  - destruct x as [o on]. destruct (SFltb (priority y) (priority on)); apply IH.
  - simpl. discriminate.
Qed.

Lemma pick_scan_none (K M : N) (rest : graph) (i : nat) :
  pick_scan K M rest i None = (None, None) →
  ∀ n, n ∈ rest → ¬ candidate n.
Proof.
  revert i. induction rest as [|y rest IH]; intros i; simpl; intros H n Hn.
  - inversion Hn.
  - destruct (N.eqb_spec (color y) 0) as [Hc|Hc]; simpl in H.
    + destruct (Nat.eqb_spec (Bitset.popcount (vtx y)) 0) as [Hp|Hp].
      * apply elem_of_cons in Hn as [->|Hn]; [|eauto].
        intros [_ Hv]. apply Hv. apply popcount_zero. exact Hp.
      * destruct (budget K M y <? N.of_nat (Bitset.popcount (vtx y) - 1)).
        -- exfalso. apply (pick_scan_keeps K M rest (S i) (i, y)).
           rewrite H. reflexivity.
        -- discriminate.
    + apply elem_of_cons in Hn as [->|Hn]; [|eauto].
      intros [Hc' _]. contradiction.
Qed.

Lemma pick_none (gr : graph) (K M : N) :
  pick gr K M = None → ∀ j n, gr !! j = Some n → ¬ candidate n.
Proof.
  unfold pick. intros H j n Hj.
  destruct (pick_scan K M gr 0 None) as [[x|] o] eqn:E; [discriminate|].
  subst o. eapply pick_scan_none; [exact E|].
  apply list_elem_of_lookup. eauto.
Qed.

(** *** The measure of the recursion *)

Lemma weight_candidate (n : graph_node) : candidate n → weight n = 1%nat.
Proof.
  intros [Hc Hv]. unfold weight. rewrite Hc. simpl.
  destruct (N.eqb_spec (vtx n) 0); [contradiction | reflexivity].
Qed.

Lemma sum_list_pointwise (l l' : list nat) :
  length l' = length l →
  (∀ j a a', l !! j = Some a → l' !! j = Some a' → (a' ≤ a)%nat) →
  (sum_list l' ≤ sum_list l)%nat.
Proof.
  revert l'. induction l as [|a l IH]; intros [|a' l'] Hlen H; simpl in *; try lia.
  specialize (IH l' ltac:(lia) (λ j, H (S j))).
  specialize (H 0%nat a a' eq_refl eq_refl). lia.
Qed.

Lemma sum_list_pointwise_lt (l l' : list nat) (it a a' : nat) :
  length l' = length l →
  (∀ j a a', l !! j = Some a → l' !! j = Some a' → (a' ≤ a)%nat) →
  l !! it = Some a → l' !! it = Some a' → (a' < a)%nat →
  (sum_list l' < sum_list l)%nat.
Proof.
  revert l' it. induction l as [|x l IH]; intros [|x' l'] it Hlen H Ha Ha' Hlt;
    simpl in *; try discriminate.
  destruct it as [|it]; simpl in *.
  - injection Ha as ->. injection Ha' as ->.
    pose proof (sum_list_pointwise l l' ltac:(lia) (λ j, H (S j))). lia.
  - specialize (IH l' it ltac:(lia) (λ j, H (S j)) Ha Ha' Hlt).
    specialize (H 0%nat x x' eq_refl eq_refl). lia.
Qed.

Lemma active_le_length (gr : graph) : (active gr ≤ length gr)%nat.
Proof.
  unfold active. induction gr as [|n gr IH]; [simpl; lia|].
  rewrite fmap_cons. cbn [sum_list sum_list_with length].
  assert (weight n ≤ 1)%nat by (unfold weight; destruct (_ && _); lia).
  change (id (weight n)) with (weight n). lia.
Qed.

Lemma weight_removed (it : nat) (tmp : Bitset.t) (j : nat) (n : graph_node) :
  (weight (with_vtx (removed_row it tmp j n) n) ≤ weight n)%nat.
Proof.
  unfold weight. cbn [color vtx with_vtx].
  destruct (color n =? 0); cbn [andb]; [|lia].
  destruct (N.eqb_spec (vtx n) 0) as [Hz|Hz]; cbn [negb].
  - assert (removed_row it tmp j n = 0) as ->; [|simpl; lia].
    unfold removed_row. rewrite Hz. case_bool_decide; [reflexivity|].
    destruct (Bitset.get tmp j); [apply reset_empty | reflexivity].
  - destruct (negb _); lia.
Qed.

Lemma active_remove_node (gr : graph) (it : nat) (n : graph_node) :
  gr !! it = Some n → candidate n →
  (active (remove_node it (vtx n) gr) < active gr)%nat.
Proof.
  intros Hit Hcand. unfold active.
  eapply (sum_list_pointwise_lt _ _ it (weight n)
            (weight (with_vtx (removed_row it (vtx n) it n) n))).
  - rewrite !length_fmap. apply remove_node_length.
  - intros j a a'. rewrite !list_lookup_fmap, remove_node_lookup.
    destruct (gr !! j) as [m|]; simpl; [|discriminate].
    intros [= <-] [= <-]. apply weight_removed.
  - rewrite list_lookup_fmap, Hit. reflexivity.
  - rewrite list_lookup_fmap, remove_node_lookup, Hit. reflexivity.
  - rewrite (weight_candidate n Hcand). unfold weight, removed_row.
    rewrite bool_decide_eq_true_2 by reflexivity. simpl.
    rewrite andb_false_r. lia.
Qed.

End PickFacts.


Module ColoringFacts.
Import Mir Ralloc GraphSpec ColorAux BitsetFacts WordFacts ColorFacts PickFacts.

Lemma rows_kept_refl (gr : graph) : rows_kept gr gr.
Proof. split; [reflexivity|]. intros j n Hj. exists n. repeat split; auto. Qed.

Lemma rows_kept_lookup (gr gr' : graph) (j : nat) (n' : graph_node) :
  rows_kept gr gr' → gr' !! j = Some n' → ∃ n, gr !! j = Some n ∧ node_kept n n'.
Proof.
  intros [Hlen H] Hj.
  destruct (gr !! j) as [n|] eqn:E.
  - destruct (H j n E) as (n'' & Hj' & Hk). exists n. split; [reflexivity|].
    congruence.
  - apply lookup_ge_None in E. apply lookup_lt_Some in Hj. lia.
Qed.

Lemma removed_row_bit (gr : graph) (it j v : nat) (node n : graph_node) :
  wf_graph gr → gr !! it = Some node → gr !! j = Some n →
  Bitset.get (removed_row it (vtx node) j n) v
  = Bitset.get (vtx n) v && negb (bool_decide (j = it)) && negb (bool_decide (v = it)).
Proof.
  intros Hwf Hit Hj. unfold removed_row.
  case_bool_decide as Hji; simpl.
  - rewrite get_empty, andb_false_r. reflexivity.
  - rewrite andb_true_r.
    destruct (Bitset.get (vtx node) j) eqn:Ht.
    + rewrite get_reset. f_equal. f_equal. apply bool_decide_ext. split; congruence.
    + case_bool_decide as Hv; simpl; [|rewrite andb_true_r; reflexivity].
      subst v. rewrite andb_false_r.
      rewrite (wf_sym gr Hwf j it n node Hj Hit). exact Ht.
Qed.

Lemma wf_remove (gr : graph) (it : nat) (node : graph_node) :
  wf_graph gr → gr !! it = Some node →
  wf_graph (remove_node it (vtx node) gr).
Proof.
  intros Hwf Hit.
  assert (Hlk : ∀ j m, remove_node it (vtx node) gr !! j = Some m →
            ∃ n, gr !! j = Some n ∧ m = with_vtx (removed_row it (vtx node) j n) n).
  { intros j m. rewrite remove_node_lookup.
    destruct (gr !! j) as [n|]; simpl; [|discriminate].
    intros [= <-]. eauto. }
  pose proof (λ j n v, removed_row_bit gr it j v node n Hwf Hit) as Hbit.
  destruct Hwf as [Hsym Hself Hprop Hcol].
  split.
  - intros u v mu mv Hu Hv.
    destruct (Hlk u mu Hu) as (nu & Hu' & ->).
    destruct (Hlk v mv Hv) as (nv & Hv' & ->). simpl.
    rewrite (Hbit u nu v Hu'), (Hbit v nv u Hv'), (Hsym u v nu nv Hu' Hv').
    destruct (Bitset.get (vtx nv) u), (bool_decide (u = it)), (bool_decide (v = it));
      reflexivity.
  - intros u mu Hu Hne.
    destruct (Hlk u mu Hu) as (nu & Hu' & ->). simpl in *.
    rewrite (Hbit u nu u Hu').
    assert (Hui : u ≠ it).
    { intros ->. apply Hne. unfold removed_row.
      rewrite bool_decide_eq_true_2 by reflexivity. reflexivity. }
    rewrite (bool_decide_eq_false_2 (u = it)) by assumption.
    rewrite !andb_true_r. apply (Hself u nu Hu').
    intros Hz. apply Hne. unfold removed_row.
    rewrite (bool_decide_eq_false_2 (u = it)) by assumption.
    rewrite Hz. destruct (Bitset.get (vtx node) u); [apply reset_empty | reflexivity].
  - intros u v mu mv Hu Hv Huv Hadj.
    destruct (Hlk u mu Hu) as (nu & Hu' & ->).
    destruct (Hlk v mv Hv) as (nv & Hv' & ->). simpl in *.
    rewrite (Hbit u nu v Hu') in Hadj.
    apply andb_true_iff in Hadj as [Hadj _]. apply andb_true_iff in Hadj as [Hadj _].
    eauto.
  - intros u mu Hu. destruct (Hlk u mu Hu) as (nu & Hu' & ->). simpl. eauto.
Qed.

(** Putting the row back undoes taking it out. *)
Lemma restored_removed (gr : graph) (it j : nat) (node n m : graph_node) :
  wf_graph gr → gr !! it = Some node → gr !! j = Some n →
  vtx m = removed_row it (vtx node) j n →
  restored_row it (vtx node) j m = vtx n.
Proof.
  intros Hwf Hit Hj Hm. unfold restored_row. rewrite Hm. unfold removed_row.
  case_bool_decide as Hji.
  - subst j. congruence.
  - destruct (Bitset.get (vtx node) j) eqn:Ht; [|reflexivity].
    apply N.bits_inj. intros k. unfold Bitset.set, Bitset.reset.
    rewrite N.setbit_eqb, N.clearbit_eqb.
    destruct (N.eqb_spec (N.of_nat it) k) as [<-|Hk]; simpl.
    + symmetry. rewrite <- Ht. apply (wf_sym gr Hwf j it n node Hj Hit).
    + rewrite andb_true_r. reflexivity.
Qed.

Lemma land_shl64_bit (m s : N) : N.land m (shl64 1 s) ≠ 0 → N.testbit m s = true ∧ s < 64.
Proof.
  intros H.
  destruct (N.testbit m s && (s <? 64)) eqn:E.
  - apply andb_true_iff in E as [? ?%N.ltb_lt]. auto.
  - exfalso. apply H. apply N.bits_inj. intros k.
    rewrite N.land_spec, shl64_one_bit, N.bits_0.
    destruct (N.eqb_spec k s) as [->|]; simpl.
    + exact E.
    + apply andb_false_r.
Qed.

Lemma try_hints_sound (gr : graph) (it : nat) (mask : N) (hints : list Z) (c : N) :
  try_hints gr it mask hints = Some c →
  c ≠ 0 ∧ N.land mask (shl64 1 (c - 1)) ≠ 0 ∧ ∃ h n, gr !! h = Some n ∧ color n = c.
Proof.
  induction hints as [|off hints IH]; simpl; [discriminate|].
  destruct (off =? 0)%Z; [exact IH|].
  destruct (gr !! Z.to_nat (Z.of_nat it + off)) as [hint|] eqn:Hh; [|exact IH].
  destruct (N.eqb_spec (color hint) 0) as [Hc|Hc]; simpl; [exact IH|].
  destruct (N.eqb_spec (N.land mask (shl64 1 (color hint - 1))) 0) as [Hm|Hm];
    simpl; [exact IH|].
  intros [= <-]. eauto 6.
Qed.


Lemma with_vtx_with_vtx (v w : Bitset.t) (n : graph_node) :
  with_vtx v (with_vtx w n) = with_vtx v n.
Proof. reflexivity. Qed.

(** The node that was taken out goes back with color [c] (0 when it is
    spilled): the graph has its rows again and stays well formed. *)
Lemma put_back (gr gr2 : graph) (it : nat) (node : graph_node)
    (g : graph_node → graph_node) (c : N) :
  wf_graph gr → gr !! it = Some node → candidate node →
  rows_kept (remove_node it (vtx node) gr) gr2 → wf_graph gr2 →
  (∀ x, vtx (g x) = vtx x ∧ node_is_fp (g x) = node_is_fp x ∧ color (g x) = c) →
  c ≤ 64 →
  (c ≠ 0 → N.testbit (restore_node it (vtx node) gr2).2 (c - 1) = true) →
  let gr' := alter g it (restore_node it (vtx node) gr2).1 in
  rows_kept gr gr' ∧ wf_graph gr' ∧ (all_colored gr2 → c ≠ 0 → all_colored gr').
Proof.
  intros Hwf Hit [Hc0 Hv0] [Hlen2 Hk2] Hwf2 Hg Hc64 Hmask gr'.
  assert (Hlen : length gr' = length gr).
  { unfold gr'. rewrite length_alter, restore_node_length, Hlen2.
    apply remove_node_length. }
  (* every position: the node of [gr], of [gr2] and of [gr'] *)
  assert (Hlk : ∀ j n, gr !! j = Some n →
            ∃ n2, gr2 !! j = Some n2
                  ∧ node_kept (with_vtx (removed_row it (vtx node) j n) n) n2
                  ∧ gr' !! j = Some (if bool_decide (j = it)
                                     then g (with_vtx (vtx n) n2)
                                     else with_vtx (vtx n) n2)).
  { intros j n Hj.
    destruct (Hk2 j (with_vtx (removed_row it (vtx node) j n) n)) as (n2 & Hj2 & Hkept).
    { rewrite remove_node_lookup, Hj. reflexivity. }
    exists n2. split; [assumption|]. split; [assumption|].
    assert (Hrow : restored_row it (vtx node) j n2 = vtx n).
    { apply (restored_removed gr it j node n n2 Hwf Hit Hj). apply Hkept. }
    unfold gr'. case_bool_decide as Hji.
    - subst j. rewrite list_lookup_alter_eq, restore_node_lookup, Hj2.
      simpl. rewrite Hrow. reflexivity.
    - rewrite list_lookup_alter_ne by congruence.
      rewrite restore_node_lookup, Hj2. simpl. rewrite Hrow. reflexivity. }
  assert (Hinv : ∀ j n', gr' !! j = Some n' →
            ∃ n n2, gr !! j = Some n ∧ gr2 !! j = Some n2
                    ∧ node_kept (with_vtx (removed_row it (vtx node) j n) n) n2
                    ∧ vtx n' = vtx n
                    ∧ color n' = (if bool_decide (j = it) then c else color n2)).
  { intros j n' Hj'.
    destruct (gr !! j) as [n|] eqn:Hj.
    - destruct (Hlk j n Hj) as (n2 & Hj2 & Hkept & Hj'').
      rewrite Hj' in Hj''. injection Hj'' as ->.
      exists n, n2. split; [reflexivity|]. split; [assumption|].
      split; [assumption|]. split.
      + case_bool_decide; [rewrite (proj1 (Hg _))|]; reflexivity.
      + case_bool_decide; [apply Hg | reflexivity].
    - apply lookup_ge_None in Hj. apply lookup_lt_Some in Hj'. lia. }
  split; [|split].
  - split; [assumption|]. intros j n Hj.
    destruct (Hlk j n Hj) as (n2 & Hj2 & (Hkv & Hkf & Hkc) & Hj').
    eexists. split; [exact Hj'|].
    case_bool_decide as Hji.
    + subst j. assert (n = node) as -> by congruence.
      split; [rewrite (proj1 (Hg _)); reflexivity|]. split; [|congruence].
      rewrite (proj1 (proj2 (Hg _))). simpl. exact Hkf.
    + split; [reflexivity|]. split; [exact Hkf|].
      intros Hc. rewrite (Hkc Hc). rewrite with_vtx_with_vtx. apply with_vtx_id.
  - split.
    + intros u v nu' nv' Hu Hv.
      destruct (Hinv u nu' Hu) as (nu & _ & Hgu & _ & _ & -> & _).
      destruct (Hinv v nv' Hv) as (nv & _ & Hgv & _ & _ & -> & _).
      apply (wf_sym gr Hwf u v nu nv Hgu Hgv).
    + intros u nu' Hu.
      destruct (Hinv u nu' Hu) as (nu & _ & Hgu & _ & _ & -> & _).
      apply (wf_self gr Hwf u nu Hgu).
    + intros u v nu' nv' Hu Hv Huv Hadj Hcu Hcv.
      destruct (Hinv u nu' Hu) as (nu & n2u & Hgu & H2u & Hku & Hvu & Hcolu).
      destruct (Hinv v nv' Hv) as (nv & n2v & Hgv & H2v & Hkv & Hvv & Hcolv).
      rewrite Hvu in Hadj. rewrite Hcolu in Hcu |- *. rewrite Hcolv in Hcv |- *.
      assert (Hstrike : ∀ w nw n2w, w ≠ it → gr !! w = Some nw → gr2 !! w = Some n2w →
                Bitset.get (vtx node) w = true → color n2w ≠ 0 → c ≠ 0 → c ≠ color n2w).
      { intros w nw n2w Hw Hgw H2w Hadjw Hcw Hcne.
        specialize (Hmask Hcne). apply restore_node_mask in Hmask as [_ Hmask].
        specialize (Hmask w n2w H2w Hadjw Hw Hcw). lia. }
      destruct (decide (u = it)) as [Hui|Hui]; destruct (decide (v = it)) as [Hvi|Hvi].
      * congruence.
      * rewrite (bool_decide_eq_true_2 _ Hui) in Hcu |- *.
        rewrite (bool_decide_eq_false_2 _ Hvi) in Hcv |- *.
        rewrite Hui in Hgu. assert (nu = node) as Hn by congruence. rewrite Hn in Hadj.
        apply (Hstrike v nv n2v Hvi Hgv H2v Hadj Hcv Hcu).
      * rewrite (bool_decide_eq_false_2 _ Hui) in Hcu |- *.
        rewrite (bool_decide_eq_true_2 _ Hvi) in Hcv |- *.
        rewrite Hvi in Hadj.
        rewrite (wf_sym gr Hwf u it nu node Hgu Hit) in Hadj.
        intros Heq. apply (Hstrike u nu n2u Hui Hgu H2u Hadj Hcu Hcv). congruence.
      * rewrite (bool_decide_eq_false_2 _ Hui) in Hcu |- *.
        rewrite (bool_decide_eq_false_2 _ Hvi) in Hcv |- *.
        apply (wf_proper gr2 Hwf2 u v n2u n2v H2u H2v Huv); try assumption.
        rewrite (proj1 Hku). simpl.
        rewrite (removed_row_bit gr it u v node nu Hwf Hit Hgu), Hadj.
        rewrite !bool_decide_eq_false_2 by assumption. reflexivity.
    + intros u nu' Hu.
      destruct (Hinv u nu' Hu) as (nu & n2u & Hgu & H2u & Hku & Hvu & ->).
      case_bool_decide; [assumption|]. apply (wf_colors gr2 Hwf2 u n2u H2u).
  - intros Hall Hcne j n' Hj Hvn.
    destruct (Hinv j n' Hj) as (n & n2 & Hgj & H2j & Hkj & Hvj & ->).
    case_bool_decide as Hji; [assumption|].
    apply (Hall j n2 H2j). rewrite (proj1 Hkj). simpl.
    apply (get_nonempty _ j).
    rewrite (removed_row_bit gr it j j node n Hwf Hit Hgj).
    rewrite !bool_decide_eq_false_2 by assumption. rewrite !andb_true_r.
    apply (wf_self gr Hwf j n Hgj). congruence.
Qed.

End ColoringFacts.

Module TryColorFacts.
Import Mir Ralloc GraphSpec ColorAux BitsetFacts WordFacts ColorFacts PickFacts ColoringFacts.

Lemma budget_lt (K M : N) (n : graph_node) : K < 64 → M < 64 → budget K M n < 64.
Proof. unfold budget. destruct (node_is_fp n); auto. Qed.

Lemma wrap64_le (x : N) : wrap64 x ≤ x.
Proof. unfold wrap64. apply N.Div0.mod_le. Qed.

Lemma restore_colors (it : nat) (tmp : Bitset.t) (gr : graph) (h : nat) (n : graph_node) :
  (restore_node it tmp gr).1 !! h = Some n →
  ∃ m, gr !! h = Some m ∧ color m = color n.
Proof.
  rewrite restore_node_lookup. destruct (gr !! h) as [m|]; simpl; [|discriminate].
  intros [= <-]. eauto.
Qed.

(** The invariant of the recursion. *)
Lemma try_color_fuel_inv (fuel : nat) :
  ∀ (gr gr' : graph) (K M sg sf : N),
    K < 64 → M < 64 → N.of_nat (length gr) < 2 ^ 64 → wf_graph gr →
    try_color_fuel fuel gr K M = Some (gr', (sg, sf)) →
    rows_kept gr gr' ∧ wf_graph gr'
    ∧ sg + sf ≤ N.of_nat (active gr)
    ∧ (sg = 0 → sf = 0 → all_colored gr').
Proof.
  induction fuel as [|fuel IH]; intros gr gr' K M sg sf HK HM Hlen Hwf H;
    [discriminate|].
  cbn [try_color_fuel] in H.
  destruct (pick gr K M) as [[it node]|] eqn:Hpick.
  2: { injection H as <- <- <-.
       split; [apply rows_kept_refl|]. split; [assumption|]. split; [lia|].
       intros _ _ j n Hj Hv Hc. apply (pick_none gr K M Hpick j n Hj). split; assumption. }
  destruct (pick_sound gr K M it node Hpick) as [Hit Hcand].
  pose proof (active_remove_node gr it node Hit Hcand) as Hact.
  pose proof (active_le_length gr) as Hal.
  destruct (try_color_fuel fuel (remove_node it (vtx node) gr) K M)
    as [[gr2 [rg rf]]|] eqn:Hrec; [|discriminate H].
  cbn [mbind option_bind] in H.
  destruct (IH (remove_node it (vtx node) gr) gr2 K M rg rf HK HM) as (Hk2 & Hwf2 & Hbound & Hall2);
    [rewrite remove_node_length; assumption | apply wf_remove; assumption | exact Hrec |].
  pose proof (λ g c, put_back gr gr2 it node g c Hwf Hit Hcand Hk2 Hwf2) as Hpb.
  pose proof (restore_colors it (vtx node) gr2) as Hrc.
  pose proof (budget_lt K M node HK HM) as Hbud.
  destruct (restore_node it (vtx node) gr2) as [gr3 mask] eqn:Hres.
  cbn [fst snd] in Hpb, Hrc.
  destruct (try_hints gr3 it mask (coalescing_hints node)) as [c|] eqn:Hh.
  - (* a coalescing hint gives the color *)
    injection H as <- <- <-.
    destruct (try_hints_sound _ _ _ _ _ Hh) as (Hc0 & Hland & h & n & Hhn & Hcn).
    destruct (Hrc h n Hhn) as (m & Hm & Hcm).
    destruct (Hpb (with_color c) c) as (Hr & Hw & Ha).
    + intros x. repeat split.
    + rewrite <- Hcn, <- Hcm. apply (wf_colors gr2 Hwf2 h m Hm).
    + intros _. apply (land_shl64_bit _ _ Hland).
    + split; [assumption|]. split; [assumption|]. split; [lia|].
      intros -> ->. apply Ha; [apply Hall2; reflexivity | assumption].
  - destruct (N.ltb_spec (budget K M node) (countr_zero mask)) as [Hover|Hfit].
    + (* no color within the budget: the node is spilled *)
      destruct (find_spill_slot _ _ it 1) as [slot|] eqn:Hslot; [|discriminate H].
      cbn [mbind option_bind] in H. injection H as <- <- <-.
      rewrite list_alter_alter_eq.
      destruct (Hpb (with_spill_slot slot ∘ (λ x, with_spill_slot 1 (with_color 0 x))) 0)
        as (Hr & Hw & Ha).
      * intros x. repeat split.
      * lia.
      * congruence.
      * split; [assumption|]. split; [assumption|].
        pose proof (wrap64_le (rg + 1)). pose proof (wrap64_le (rf + 1)).
        split; [destruct (node_is_fp node); lia|].
        intros Hg Hf. exfalso.
        destruct (node_is_fp node).
        -- unfold wrap64 in Hf. rewrite N.mod_small in Hf by lia. lia.
        -- unfold wrap64 in Hg. rewrite N.mod_small in Hg by lia. lia.
    + (* the lowest color left in the mask *)
      injection H as <- <- <-.
      assert (Hn : countr_zero mask < 64) by lia.
      assert (Hw8 : wrap_u8 (countr_zero mask + 1) = countr_zero mask + 1).
      { unfold wrap_u8. apply N.mod_small. change (2 ^ 8) with 256. lia. }
      rewrite Hw8.
      destruct (Hpb (with_color (countr_zero mask + 1)) (countr_zero mask + 1))
        as (Hr & Hw & Ha).
      * intros x. repeat split.
      * lia.
      * intros _. replace (countr_zero mask + 1 - 1) with (countr_zero mask) by lia.
        apply countr_zero_bit, countr_zero_zero, Hn.
      * split; [assumption|]. split; [assumption|]. split; [lia|].
        intros -> ->. apply Ha; [apply Hall2; reflexivity | lia].
Qed.

End TryColorFacts.

Module TotalFacts.
Import Mir Ralloc GraphSpec ColorAux BitsetFacts WordFacts ColorFacts PickFacts
  ColoringFacts TryColorFacts.

Lemma slot_clash_true (gr : graph) (it : nat) (slot : Z) :
  slot_clash gr it slot = true ↔
  ∃ i n, gr !! i = Some n ∧ spill_slot n = slot ∧ i ≠ it ∧ Bitset.get (vtx n) it = true.
Proof.
  unfold slot_clash. rewrite existsb_exists. split.
  - intros ([i n] & Hin & H). apply list_elem_of_In in Hin.
    apply elem_of_lookup_imap in Hin as (i' & n' & [= -> ->] & Hi).
    apply andb_true_iff in H as [H Hbit]. apply andb_true_iff in H as [Hs Hne].
    exists i', n'. repeat split; try assumption.
    + apply Z.eqb_eq. assumption.
    + apply negb_true_iff, Nat.eqb_neq in Hne. assumption.
  - intros (i & n & Hi & Hs & Hne & Hbit). exists (i, n). split.
    + apply list_elem_of_In. apply elem_of_lookup_imap. eauto.
    + rewrite Hbit, andb_true_r. apply andb_true_iff. split.
      * apply Z.eqb_eq. assumption.
      * apply negb_true_iff, Nat.eqb_neq. assumption.
Qed.




(** The slot found is the first one from [slot] on that no neighbour has. *)
Lemma find_spill_slot_first (fuel : nat) (gr : graph) (it : nat) (slot v : Z) :
  find_spill_slot fuel gr it slot = Some v →
  (slot ≤ v)%Z ∧ slot_clash gr it v = false
  ∧ ∀ x, (slot ≤ x < v)%Z → slot_clash gr it x = true.
Proof.
  revert slot. induction fuel as [|fuel IH]; intros slot; simpl; [discriminate|].
  destruct (slot_clash gr it slot) eqn:Hc.
  - intros (Hle & Hfree & Hlow)%IH. split; [lia|]. split; [assumption|].
    intros x Hx. destruct (decide (x = slot)) as [->|]; [assumption|].
    apply Hlow. lia.
  - intros [= <-]. split; [lia|]. split; [assumption|]. intros x Hx. lia.
Qed.



End TotalFacts.

(** ** The graph that is built, and the run of the allocator *)

Module BuildFacts.
Import Mir Ralloc GraphSpec ColorAux BuildSpec BitsetFacts WordFacts ColorFacts.

Section WithBands.
Context {RB : reg_bands}.

Lemma from_uid_uid (r : mreg) : from_uid (uid r) = r.
Proof. apply N2Nat.id. Qed.

Lemma uid_from_uid (u : nat) : uid (from_uid u) = u.
Proof. apply Nat2N.id. Qed.

Lemma interferes_with_comm (a b : mreg) : interferes_with a b = interferes_with b a.
Proof.
  unfold interferes_with. rewrite (orb_comm (is_pseudo a)).
  destruct (is_pseudo b || is_pseudo a); [reflexivity|].
  destruct (is_fp a), (is_fp b); reflexivity.
Qed.

Lemma interferes_with_class (a b : mreg) : interferes_with a b = true → is_fp a = is_fp b.
Proof.
  unfold interferes_with. destruct (is_pseudo a || is_pseudo b); [discriminate|].
  destruct (is_fp a), (is_fp b); simpl; congruence.
Qed.

Lemma foldl_preserves {A B} (P : A → Prop) (f : A → B → A) (l : list B) (x : A) :
  P x → (∀ y b, P y → P (f y b)) → P (foldl f x l).
Proof. intros Hx Hf. revert x Hx. induction l; simpl; auto. Qed.

Lemma built_init (reg_use_counter : list N) (max_reg_id : N) :
  built (nodes_at reg_use_counter max_reg_id).
Proof.
  assert (Hlk : ∀ u nu, nodes_at reg_use_counter max_reg_id !! u = Some nu →
            nu = node_at reg_use_counter u).
  { intros u nu. unfold nodes_at. rewrite list_lookup_fmap.
    destruct (seq 0 (N.to_nat max_reg_id) !! u) as [k|] eqn:Hk; simpl; [|discriminate].
    apply lookup_seq in Hk as [-> _]. intros [= <-]. reflexivity. }
  split.
  - intros u nu ->%Hlk. simpl. rewrite get_set.
    rewrite bool_decide_eq_true_2 by reflexivity. reflexivity.
  - intros u nu ->%Hlk. reflexivity.
  - intros u v nu nv ->%Hlk ->%Hlk. simpl. rewrite !get_set, !get_empty, !orb_false_r.
    apply bool_decide_ext. split; congruence.
  - intros u v nu nv ->%Hlk ->%Hlk Huv. simpl.
    rewrite get_set, get_empty, orb_false_r.
    rewrite bool_decide_eq_false_2 by assumption. discriminate.
Qed.

Lemma built_hint (g : graph) (this other j : nat) :
  built g → built (alter (add_hint this other) j g).
Proof.
  intros [Hself Hcol Hsym Hedge].
  assert (Hlk : ∀ u nu, alter (add_hint this other) j g !! u = Some nu →
            ∃ n, g !! u = Some n ∧ vtx nu = vtx n ∧ color nu = color n).
  { intros u nu. rewrite list_lookup_alter.
    destruct (decide (j = u)) as [->|]; [|eauto].
    destruct (g !! u) as [n|]; simpl; [|discriminate].
    intros [= <-]. eauto. }
  split.
  - intros u nu (n & Hn & -> & _)%Hlk. eauto.
  - intros u nu (n & Hn & _ & ->)%Hlk. eauto.
  - intros u v nu nv (n & Hn & -> & _)%Hlk (m & Hm & -> & _)%Hlk. eauto.
  - intros u v nu nv (n & Hn & -> & _)%Hlk (m & Hm & _ & _)%Hlk. eauto.
Qed.

Lemma lookup_set_row (g : graph) (j k u : nat) (nu : graph_node) :
  alter (λ n, with_vtx (Bitset.set (vtx n) k) n) j g !! u = Some nu →
  ∃ n, g !! u = Some n ∧ color nu = color n
       ∧ ∀ v, Bitset.get (vtx nu) v
              = Bitset.get (vtx n) v || (bool_decide (u = j) && bool_decide (v = k)).
Proof.
  rewrite list_lookup_alter. destruct (decide (j = u)) as [->|Hne].
  - destruct (g !! u) as [n|]; simpl; [|discriminate].
    intros [= <-]. exists n. split; [reflexivity|]. split; [reflexivity|].
    intros v. simpl. rewrite get_set.
    rewrite (bool_decide_eq_true_2 (u = u)) by reflexivity. simpl.
    rewrite orb_comm. f_equal. apply bool_decide_ext. split; congruence.
  - intros Hu. exists nu. split; [assumption|]. split; [reflexivity|].
    intros v. rewrite (bool_decide_eq_false_2 (u = j)) by congruence.
    simpl. rewrite orb_false_r. reflexivity.
Qed.

Lemma built_add_vertex (g : graph) (a b : mreg) :
  built g → built (add_vertex a b g).
Proof.
  intros Hb. unfold add_vertex.
  destruct (interferes_with a b) eqn:Hi; simpl; [|assumption].
  destruct Hb as [Hself Hcol Hsym Hedge].
  set (g' := alter (λ n, with_vtx (Bitset.set (vtx n) (uid a)) n) (uid b)
               (alter (λ n, with_vtx (Bitset.set (vtx n) (uid b)) n) (uid a) g)).
  assert (Hlk : ∀ u nu, g' !! u = Some nu →
            ∃ n, g !! u = Some n ∧ color nu = color n
                 ∧ ∀ v, Bitset.get (vtx nu) v
                        = Bitset.get (vtx n) v
                          || (bool_decide (u = uid a) && bool_decide (v = uid b))
                          || (bool_decide (u = uid b) && bool_decide (v = uid a))).
  { intros u nu (n1 & Hn1 & Hc1 & Hb1)%lookup_set_row.
    apply lookup_set_row in Hn1 as (n & Hn & Hc & Hb0).
    exists n. split; [assumption|]. split; [congruence|].
    intros v. rewrite Hb1, Hb0. reflexivity. }
  split.
  - intros u nu (n & Hn & _ & Hbits)%Hlk. rewrite Hbits, (Hself u n Hn). reflexivity.
  - intros u nu (n & Hn & -> & _)%Hlk. eauto.
  - intros u v nu nv (n & Hn & _ & Hbn)%Hlk (m & Hm & _ & Hbm)%Hlk.
    rewrite Hbn, Hbm, (Hsym u v n m Hn Hm).
    destruct (Bitset.get (vtx m) u); simpl; [reflexivity|].
    rewrite (andb_comm (bool_decide (v = uid a))), (andb_comm (bool_decide (v = uid b))).
    apply orb_comm.
  - intros u v nu nv (n & Hn & _ & Hbn)%Hlk (m & Hm & _ & Hbm)%Hlk Huv.
    rewrite Hbn. intros H.
    apply orb_true_iff in H as [H|H]; [apply orb_true_iff in H as [H|H]|].
    + eauto.
    + apply andb_true_iff in H as [->%bool_decide_eq_true ->%bool_decide_eq_true].
      rewrite !from_uid_uid. exact Hi.
    + apply andb_true_iff in H as [->%bool_decide_eq_true ->%bool_decide_eq_true].
      rewrite !from_uid_uid, interferes_with_comm. exact Hi.
Qed.

Lemma built_add_set (g : graph) (max_reg_id : N) (b : Bitset.t) (def : mreg) :
  built g → built (add_set max_reg_id b def g).
Proof.
  intros Hb. unfold add_set. apply foldl_preserves; [assumption|].
  intros y i Hy. destruct (Bitset.get b i); [apply built_add_vertex|]; assumption.
Qed.

Lemma built_edges_insn (max_reg_id : N) (st : graph * Bitset.t) (i : minsn) :
  built st.1 → built (edges_insn max_reg_id st i).1.
Proof.
  destruct st as [g live]. simpl. intros Hb. unfold edges_insn.
  set (g1 := if is_op i movi || is_op i movf then _ else g).
  assert (H1 : built g1).
  { unfold g1. destruct (is_op i movi || is_op i movf); [|assumption].
    destruct (default op_none (arg i !! 0%nat)); try assumption.
    apply built_hint, built_hint. assumption. }
  clearbody g1.
  destruct (negb (is_null (out i))); simpl;
    apply foldl_preserves; try (apply built_add_set; assumption); try assumption;
    intros y [r is_read] Hy; simpl; destruct is_read;
    try apply built_add_set; assumption.
Qed.

(** A graph [init_graph] returns is the list of the nodes [node_at]. *)
Lemma init_node_at (reg_use_counter : list N) (i : nat) (n : graph_node) :
  init_node reg_use_counter i = Some n → n = node_at reg_use_counter i.
Proof.
  unfold init_node, node_at. destruct (reg_use_counter !! i) as [c|]; simpl; [|discriminate].
  intros [= <-]. reflexivity.
Qed.

Lemma init_graph_nodes (reg_use_counter : list N) (max_reg_id : N) (g : graph) :
  init_graph reg_use_counter max_reg_id = Some g → g = nodes_at reg_use_counter max_reg_id.
Proof.
  unfold init_graph, nodes_at. generalize (seq 0 (N.to_nat max_reg_id)). intros l.
  revert g. induction l as [|i l IH]; intros g; simpl.
  - intros [= <-]. reflexivity.
  - destruct (init_node reg_use_counter i) as [n|] eqn:Hn; simpl; [|discriminate].
    destruct (mapM (init_node reg_use_counter) l) as [g'|]; simpl; [|discriminate].
    intros [= <-]. rewrite (init_node_at _ _ _ Hn), (IH g' eq_refl). reflexivity.
Qed.

Lemma built_edges_block (max_reg_id : N) (g : graph) (b : basic_block) :
  built g → built (edges_block max_reg_id g b).
Proof.
  intros Hb. unfold edges_block.
  apply (foldl_preserves (λ st, built st.1)); [assumption|].
  intros y i Hy. apply built_edges_insn. assumption.
Qed.

(** The graph [build_graph] returns is built as the invariant says. *)
Lemma build_graph_built (proc proc' : mprocedure) (g : graph) :
  build_graph proc = Some (proc', g) → built g ∧ N.of_nat (length g) < 2 ^ 32.
Proof.
  unfold build_graph. destruct (use_counts proc) as [cnt mx].
  destruct (liveness _ _) as [bbs|]; simpl; [|discriminate].
  destruct (init_graph _ _) as [g0|] eqn:Hg0; simpl; [|discriminate].
  apply init_graph_nodes in Hg0 as ->.
  intros [= <- <-]. split.
  - apply foldl_preserves; [apply built_init|].
    intros y b Hy. apply built_edges_block. assumption.
  - assert (Hlen : ∀ l m (g0 : graph), length (foldl (edges_block m) g0 l) = length g0).
    { intros l m. induction l as [|b l IH]; intros g0; simpl; [reflexivity|].
      rewrite IH. unfold edges_block.
      apply (foldl_preserves (λ st, length st.1 = length g0)); [reflexivity|].
      intros [y live] i Hy. simpl in Hy. unfold edges_insn.
      assert (Hset : ∀ l d (y0 : graph), length (add_set m l d y0) = length y0).
      { intros l0 d y0. unfold add_set.
        apply (foldl_preserves (λ z, length z = length y0)); [reflexivity|].
        intros z k Hz. destruct (Bitset.get l0 k); [|assumption].
        unfold add_vertex. destruct (negb _); [assumption|].
        rewrite !length_alter. assumption. }
      set (g1 := if is_op i movi || is_op i movf then _ else y).
      assert (H1 : length g1 = length g0).
      { unfold g1. destruct (is_op i movi || is_op i movf); [|assumption].
        destruct (default op_none (arg i !! 0%nat)); try assumption.
        rewrite !length_alter. assumption. }
      clearbody g1.
      destruct (negb (is_null (out i))); simpl;
        apply (foldl_preserves (λ z, length z = length g0));
        rewrite ?Hset; try assumption;
        intros z [r is_read] Hz; simpl; destruct is_read; rewrite ?Hset; assumption. }
    rewrite Hlen. unfold nodes_at. rewrite length_fmap, length_seq, N2Nat.id.
    unfold wrap32. apply N.mod_lt. discriminate.
Qed.

(** A graph built over legal physical registers is well formed. *)
Lemma built_wf (g : graph) : bands_ok RB → built g → wf_graph g.
Proof.
  intros [Hbound Hinj] [Hself Hcol Hsym Hedge]. split.
  - assumption.
  - intros u nu Hu _. eauto.
  - intros u v nu nv Hu Hv Huv Hadj Hcu Hcv.
    rewrite (Hcol u nu Hu), (Hcol v nv Hv) in *. unfold init_color in *.
    destruct (is_phys (from_uid u)) eqn:Hpu; [|congruence].
    destruct (is_phys (from_uid v)) eqn:Hpv; [|congruence].
    pose proof (Hbound _ Hpu). pose proof (Hbound _ Hpv).
    assert (Hne : from_uid u ≠ from_uid v).
    { unfold from_uid. lia. }
    pose proof (Hinj _ _ Hpu Hpv
                  (interferes_with_class _ _ (Hedge u v nu nv Hu Hv Huv Hadj)) Hne).
    unfold wrap_u8. change (2 ^ 8) with 256.
    rewrite !N.mod_small by lia. lia.
  - intros u nu Hu. rewrite (Hcol u nu Hu). unfold init_color.
    destruct (is_phys (from_uid u)) eqn:Hpu; [|lia].
    pose proof (Hbound _ Hpu). unfold wrap_u8. change (2 ^ 8) with 256.
    rewrite N.mod_small by lia. lia.
Qed.

End WithBands.

End BuildFacts.
Module AllocFacts.
Import Mir Ralloc GraphSpec ColorAux BuildSpec AllocSpec BitsetFacts WordFacts ColorFacts
  PickFacts ColoringFacts TryColorFacts TotalFacts BuildFacts.

(** With no spill reported, the two ends of every edge are colored, and
    differently. *)
Lemma try_color_colors_edges (gr gr' : graph) (K M : N) :
  K < 64 → M < 64 → N.of_nat (length gr) < 2 ^ 64 → wf_graph gr →
  try_color gr K M = Some (gr', (0, 0)) →
  ∀ u v nu nv, gr' !! u = Some nu → gr' !! v = Some nv → u ≠ v →
               Bitset.get (vtx nu) v = true →
               color nu ≠ 0 ∧ color nv ≠ 0 ∧ color nu ≠ color nv.
Proof.
  intros HK HM Hlen Hwf Hrun u v nu nv Hu Hv Huv Hadj.
  destruct (try_color_fuel_inv _ gr gr' K M 0 0 HK HM Hlen Hwf Hrun)
    as (_ & Hwf' & _ & Hall).
  specialize (Hall eq_refl eq_refl).
  assert (Hcu : color nu ≠ 0).
  { apply (Hall u nu Hu). apply (get_nonempty _ v). assumption. }
  assert (Hcv : color nv ≠ 0).
  { apply (Hall v nv Hv). apply (get_nonempty _ u).
    rewrite <- (wf_sym gr' Hwf' u v nu nv Hu Hv). assumption. }
  split; [assumption|]. split; [assumption|].
  apply (wf_proper gr' Hwf' u v nu nv); assumption.
Qed.

Section WithBands.
Context {RB : reg_bands}.
Variable a : Arch.abi.
Variable native_code : Arch.native_reg → Z.

(** The graph the loop ends with is what [try_color] made, without a spill, of
    a well-formed graph. *)
Lemma color_loop_final (steps fuel : nat) :
  ∀ (proc : mprocedure) (g gc : graph) (K M : N) (st : rw_state) (r : loop_result),
    bands_ok RB → MAX_K a < 64 → MAX_M a < 64 →
    wf_graph g → wf_graph gc →
    N.of_nat (length g) < 2 ^ 64 → N.of_nat (length gc) < 2 ^ 64 →
    K ≤ MAX_K a → M ≤ MAX_M a →
    color_loop a steps fuel proc g gc K M st = Ok r →
    ∃ g0 K0 M0, wf_graph g0 ∧ N.of_nat (length g0) < 2 ^ 64 ∧ K0 < 64 ∧ M0 < 64
                ∧ try_color g0 K0 M0 = Some (lr_graph r, (0, 0)).
Proof.
  induction steps as [|steps IH];
    intros proc g gc K M st r Hok HK HM Hg Hgc Hlg Hlgc HKle HMle Hrun;
    [discriminate|].
  cbn [color_loop] in Hrun.
  destruct (try_color g K M) as [[gr [spill_gp spill_fp]]|] eqn:Htc;
    [|discriminate Hrun].
  cbn [of_option mbind res_bind] in Hrun.
  destruct (N.eqb_spec spill_gp 0) as [->|Hsg]; cbn [andb negb] in Hrun.
  - destruct (N.eqb_spec spill_fp 0) as [->|Hsf]; cbn [andb negb orb] in Hrun.
    + injection Hrun as <-. exists g, K, M. simpl.
      split; [assumption|]. split; [assumption|]. split; [lia|]. split; [lia|].
      assumption.
    + destruct (N.eqb_spec M (MAX_M a)) as [HMeq|HMne]; cbn [negb orb] in Hrun.
      * destruct (rewrite_blocks _ _ _ _ _ _) as [[bbs st']|]; [|discriminate Hrun].
        cbn [mbind res_bind] in Hrun.
        destruct (build_graph _) as [[proc' g']|] eqn:Hbg; [|discriminate Hrun].
        cbn [of_option mbind res_bind] in Hrun.
        destruct (build_graph_built _ _ _ Hbg) as [Hb Hl].
        assert (Hl' : N.of_nat (length g') < 2 ^ 64).
        { eapply N.lt_trans; [exact Hl | reflexivity]. }
        revert Hrun. apply IH; try assumption; try (apply built_wf; assumption).
        -- unfold wrap64. rewrite N.add_0_r. rewrite N.mod_small by lia. assumption.
        -- unfold wrap64. rewrite N.add_0_r. rewrite N.mod_small by lia. assumption.
      * revert Hrun. apply IH; try assumption.
        -- unfold wrap64. rewrite N.add_0_r. rewrite N.mod_small by lia. assumption.
        -- unfold wrap64. rewrite N.mod_small by lia. lia.
  - destruct (N.eqb_spec K (MAX_K a)) as [HKeq|HKne]; cbn [andb negb orb] in Hrun.
    + destruct (negb (spill_fp =? 0) && negb (M =? MAX_M a)) eqn:Hm; cbn [orb] in Hrun.
      * apply andb_true_iff in Hm as [_ HMne%negb_true_iff%N.eqb_neq].
        revert Hrun. apply IH; try assumption.
        -- unfold wrap64. rewrite N.add_0_r. rewrite N.mod_small by lia. assumption.
        -- unfold wrap64. rewrite N.mod_small by lia. lia.
      * destruct (rewrite_blocks _ _ _ _ _ _) as [[bbs st']|]; [|discriminate Hrun].
        cbn [mbind res_bind] in Hrun.
        destruct (build_graph _) as [[proc' g']|] eqn:Hbg; [|discriminate Hrun].
        cbn [of_option mbind res_bind] in Hrun.
        destruct (build_graph_built _ _ _ Hbg) as [Hb Hl].
        assert (Hl' : N.of_nat (length g') < 2 ^ 64).
        { eapply N.lt_trans; [exact Hl | reflexivity]. }
        revert Hrun. apply IH; try assumption; try (apply built_wf; assumption).
        -- unfold wrap64. rewrite N.add_0_r. rewrite N.mod_small by lia. assumption.
        -- unfold wrap64. rewrite N.add_0_r. rewrite N.mod_small by lia. assumption.
    + assert (HK1 : wrap64 (K + 1) ≤ MAX_K a).
      { unfold wrap64. rewrite N.mod_small by lia. lia. }
      assert (HM1 : wrap64 (M + (if negb (spill_fp =? 0) && negb (M =? MAX_M a)
                                 then 1 else 0)) ≤ MAX_M a).
      { destruct (negb (spill_fp =? 0) && negb (M =? MAX_M a)) eqn:Hm.
        - apply andb_true_iff in Hm as [_ HMne%negb_true_iff%N.eqb_neq].
          unfold wrap64. rewrite N.mod_small by lia. lia.
        - unfold wrap64. rewrite N.add_0_r. rewrite N.mod_small by lia. assumption. }
      revert Hrun. apply IH; assumption.
Qed.

End WithBands.

End AllocFacts.
Module RewriteFacts.
Import Mir Ralloc AllocSpec SpillSpec.

Lemma visit_args_preserves {S} (P : S → Prop) (f : mreg → bool → S → mreg * S)
    (os : list mop) (s : S) :
  (∀ r b s, P s → P (f r b s).2) → P s → P (visit_args f os s).2.
Proof.
  intros Hf. revert s. induction os as [|o os IH]; intros s Hs; simpl; [assumption|].
  destruct (visit_arg f o s) as [o' s1] eqn:Ho.
  assert (H1 : P s1).
  { unfold visit_arg in Ho. destruct o as [|r|z|m].
    - injection Ho as <- <-. assumption.
    - destruct (is_null r); [injection Ho as <- <-; assumption|].
      specialize (Hf r true s Hs). destruct (f r true s). injection Ho as <- <-. assumption.
    - injection Ho as <- <-. assumption.
    - destruct (is_null (base m)); [injection Ho as <- <-; assumption|].
      specialize (Hf (base m) true s Hs). destruct (f (base m) true s).
      injection Ho as <- <-. assumption. }
  specialize (IH s1 H1). destruct (visit_args f os s1). assumption.
Qed.

Lemma for_each_reg_preserves {S} (P : S → Prop) (f : mreg → bool → S → mreg * S)
    (i : minsn) (s : S) :
  (∀ r b s, P s → P (f r b s).2) → P s → P (for_each_reg f i s).2.
Proof.
  intros Hf Hs. unfold for_each_reg.
  pose proof (visit_args_preserves P f (arg i) s Hf Hs) as H1.
  destruct (visit_args f (arg i) s) as [args' s1]. simpl in H1.
  destruct (is_null (out i)); [assumption|].
  specialize (Hf (out i) false s1 H1). destruct (f (out i) false s1). assumption.
Qed.

(** *** A callback that leaves the register it is given, and stops the run or
    leaves the state *)

Section Stops.
Context {A : Type} (f : mreg → bool → res A → mreg * res A).
Hypothesis Hf : ∀ r b s, f r b s = (r, s) ∨ ∃ e, f r b s = (r, Fail e).

Lemma visit_arg_same (o : mop) (s : res A) :
  visit_arg f o s = (o, s) ∨ ∃ e, visit_arg f o s = (o, Fail e).
Proof.
  destruct o as [|r|z|m]; simpl; auto.
  - destruct (is_null r); [auto|].
    destruct (Hf r true s) as [->|[e ->]]; [left | right; exists e]; reflexivity.
  - destruct (is_null (base m)); [auto|].
    destruct (Hf (base m) true s) as [->|[e ->]]; [left | right; exists e];
      destruct m; reflexivity.
Qed.

Lemma visit_args_same (os : list mop) (s : res A) :
  visit_args f os s = (os, s) ∨ ∃ e, visit_args f os s = (os, Fail e).
Proof.
  revert s. induction os as [|o os IH]; intros s; simpl; [auto|].
  destruct (visit_arg_same o s) as [->|[e ->]].
  - destruct (IH s) as [->|[e ->]]; [left | right; exists e]; reflexivity.
  - right. destruct (IH (Fail e)) as [->|[e' ->]]; eexists; reflexivity.
Qed.

Lemma for_each_reg_same (i : minsn) (s : res A) :
  for_each_reg f i s = (i, s) ∨ ∃ e, for_each_reg f i s = (i, Fail e).
Proof.
  unfold for_each_reg. destruct (visit_args_same (arg i) s) as [->|[e ->]].
  - destruct (is_null (out i)); [left; destruct i; reflexivity|].
    destruct (Hf (out i) false s) as [->|[e ->]]; [left | right; exists e];
      destruct i; reflexivity.
  - right. destruct (is_null (out i)); [exists e; destruct i; reflexivity|].
    destruct (Hf (out i) false (Fail e)) as [->|[e' ->]]; eexists;
      destruct i; reflexivity.
Qed.

(** A visit that ends without a failure has met no register the callback
    stops at. *)
Lemma visit_arg_Ok (o : mop) (x : A) :
  visit_arg f o (Ok x) = (o, Ok x) →
  ∀ r, r ∈ arg_regs o → f r true (Ok x) = (r, Ok x).
Proof.
  destruct o as [|r0|z|m]; simpl; intros E r Hr; try (inversion Hr; fail).
  - destruct (is_null r0); [inversion Hr|].
    apply list_elem_of_singleton in Hr. subst r0.
    destruct (Hf r true (Ok x)) as [E'|[e E']]; [exact E'|].
    rewrite E' in E. discriminate E.
  - destruct (is_null (base m)); [inversion Hr|].
    apply list_elem_of_singleton in Hr. subst r.
    destruct (Hf (base m) true (Ok x)) as [E'|[e E']]; [exact E'|].
    rewrite E' in E. discriminate E.
Qed.

Lemma visit_args_Ok (os : list mop) (x : A) :
  ∀ os' y, visit_args f os (Ok x) = (os', Ok y) →
           ∀ r, r ∈ concat (arg_regs <$> os) → f r true (Ok x) = (r, Ok x).
Proof.
  induction os as [|o os IH]; intros os' y H r Hr; simpl in *; [inversion Hr|].
  destruct (visit_arg_same o (Ok x)) as [E|[e E]]; rewrite E in H.
  - apply elem_of_app in Hr as [Hr|Hr]; [exact (visit_arg_Ok o x E r Hr)|].
    destruct (visit_args f os (Ok x)) as [os1 s1] eqn:E1.
    injection H as _ ->. exact (IH os1 y eq_refl r Hr).
  - destruct (visit_args_same os (Fail e)) as [E1|[e1 E1]]; rewrite E1 in H;
      discriminate H.
Qed.

Lemma for_each_reg_Ok (i i' : minsn) (x y : A) :
  for_each_reg f i (Ok x) = (i', Ok y) →
  i' = i ∧ y = x ∧ ∀ r rd, (r, rd) ∈ regs_of i → f r rd (Ok x) = (r, Ok x).
Proof.
  intros H.
  assert (Hsame : i' = i ∧ y = x).
  { destruct (for_each_reg_same i (Ok x)) as [E|[e E]]; rewrite E in H.
    - injection H as <- <-. auto.
    - discriminate H. }
  split; [apply Hsame|]. split; [apply Hsame|].
  unfold for_each_reg in H. intros r rd Hr.
  destruct (visit_args_same (arg i) (Ok x)) as [E|[e E]].
  - unfold regs_of in Hr. apply elem_of_app in Hr as [Hr|Hr].
    + apply list_elem_of_fmap in Hr as (r0 & [= -> ->] & Hr).
      exact (visit_args_Ok (arg i) x _ _ E r0 Hr).
    + rewrite E in H. destruct (is_null (out i)); [inversion Hr|].
      apply list_elem_of_singleton in Hr. injection Hr as -> ->.
      destruct (Hf (out i) false (Ok x)) as [E'|[e E']]; [exact E'|].
      rewrite E' in H. discriminate H.
  - rewrite E in H. destruct (is_null (out i)); [discriminate H|].
    destruct (Hf (out i) false (Fail e)) as [E'|[e' E']]; rewrite E' in H;
      discriminate H.
Qed.

End Stops.

Section WithBands.
Context {RB : reg_bands}.

(** *** The spill rewriter stops at the first spilled register *)

Lemma spill_and_swap_stops (m : mreg) (entries : list spill_entry)
    (slot slot_offset : Z) (st : rw_state) :
  spill_and_swap m entries slot slot_offset st = Fail unreachable_reached.
Proof.
  unfold spill_and_swap.
  destruct (place m entries slot slot_offset (set_need_cg true st)) as [[[p m'] l] st'].
  reflexivity.
Qed.

Lemma rewrite_reg_spilled (gr : graph) (slot_offset : Z) (r : mreg) (is_read : bool)
    (acc : rw_acc) :
  rewrite_reg gr slot_offset r is_read (Ok acc)
  = (r, if spilled gr r then Fail unreachable_reached else Ok acc).
Proof.
  unfold rewrite_reg, spilled. destruct acc as [[rl sl] st].
  destruct (is_pseudo r || negb (is_virt r)); simpl; [reflexivity|].
  destruct (gr !! uid r) as [info|]; [|reflexivity].
  destruct (spill_slot info =? 0)%Z; simpl; [reflexivity|].
  destruct is_read; rewrite spill_and_swap_stops; reflexivity.
Qed.

Lemma rewrite_reg_same (gr : graph) (slot_offset : Z) (r : mreg) (is_read : bool)
    (s : res rw_acc) :
  rewrite_reg gr slot_offset r is_read s = (r, s)
  ∨ ∃ e, rewrite_reg gr slot_offset r is_read s = (r, Fail e).
Proof.
  destruct s as [acc|e]; [|left; reflexivity].
  rewrite rewrite_reg_spilled.
  destruct (spilled gr r); [right; eexists; reflexivity | left; reflexivity].
Qed.

Lemma same_slots_refl (st : rw_state) : same_slots st st.
Proof. repeat split. Qed.

Lemma same_slots_trans (st1 st2 st3 : rw_state) :
  same_slots st1 st2 → same_slots st2 st3 → same_slots st1 st3.
Proof. unfold same_slots. intros (? & ? & ? & ?) (? & ? & ? & ?). repeat split; congruence. Qed.

Lemma with_instructions_id (bb : basic_block) : with_instructions (instructions bb) bb = bb.
Proof. destruct bb. reflexivity. Qed.

Variable a : Arch.abi.

(** A block the rewriter returns is the block it was given. *)
Lemma rewrite_block_Ok (fuel : nat) (gr : graph) (slot_offset : Z) :
  ∀ (done todo : list minsn) (st : rw_state) (out : list minsn) (st' : rw_state),
    rewrite_block a fuel gr slot_offset done todo st = Ok (out, st') →
    out = done ++ todo ∧ same_slots st st'
    ∧ ∀ i r rd, i ∈ todo → (r, rd) ∈ regs_of i → spilled gr r = false.
Proof.
  induction fuel as [|fuel IH]; intros done todo st out st'; [discriminate|].
  cbn [rewrite_block]. destruct todo as [|i rest].
  - intros [= <- <-]. rewrite app_nil_r. split; [reflexivity|].
    split; [apply same_slots_refl|]. intros i r rd Hi. inversion Hi.
  - destruct (for_each_reg _ i _) as [i' [[[rl sl] st1]|e]] eqn:E; [|discriminate].
    apply (for_each_reg_Ok _ (rewrite_reg_same gr slot_offset)) in E
      as (-> & [= -> -> ->] & Hregs).
    simpl (need_cg _). cbn [negb]. intros H.
    apply IH in H as (-> & Hs & Hrest).
    split; [rewrite <- app_assoc; reflexivity|]. split; [exact Hs|].
    intros i0 r rd [->|Hi]%elem_of_cons Hr.
    + specialize (Hregs r rd Hr). rewrite rewrite_reg_spilled in Hregs.
      destruct (spilled gr r); [discriminate Hregs | reflexivity].
    + eapply Hrest; eassumption.
Qed.

Lemma rewrite_blocks_Ok (fuel : nat) (gr : graph) (slot_offset : Z) :
  ∀ (bbs : list basic_block) (st : rw_state) (out : list basic_block) (st' : rw_state),
    rewrite_blocks a fuel gr slot_offset bbs st = Ok (out, st') →
    out = bbs ∧ same_slots st st'
    ∧ ∀ bb i r rd, bb ∈ bbs → i ∈ instructions bb → (r, rd) ∈ regs_of i →
                   spilled gr r = false.
Proof.
  induction bbs as [|bb bbs IH]; intros st out st'; simpl.
  - intros [= <- <-]. split; [reflexivity|]. split; [apply same_slots_refl|].
    intros bb i r rd Hbb. inversion Hbb.
  - destruct (rewrite_block a fuel gr slot_offset [] (instructions bb) st)
      as [[insns st1]|] eqn:H1; [|discriminate].
    cbn [mbind res_bind].
    destruct (rewrite_blocks a fuel gr slot_offset bbs st1) as [[bbs' st2]|] eqn:H2;
      [|discriminate].
    cbn [mbind res_bind]. intros [= <- <-].
    apply rewrite_block_Ok in H1 as (-> & Hs1 & Hr1).
    apply IH in H2 as (-> & Hs2 & Hr2).
    split; [simpl; rewrite with_instructions_id; reflexivity|].
    split; [exact (same_slots_trans _ _ _ Hs1 Hs2)|].
    intros bb0 i r rd [->|Hbb]%elem_of_cons Hi Hr.
    + eapply Hr1; eassumption.
    + eapply Hr2; eassumption.
Qed.

(** So the loop never hands on a slot: [num_spill_slots] and the slots filled
    in are at the end what they were at the start. *)
Lemma color_loop_slots (steps fuel : nat) :
  ∀ (proc : mprocedure) (g gc : graph) (K M : N) (st : rw_state) (r : loop_result),
    color_loop a steps fuel proc g gc K M st = Ok r →
    num_spill_slots (lr_state r) = num_spill_slots st
    ∧ slots_used (lr_state r) = slots_used st.
Proof.
  induction steps as [|steps IH]; intros proc g gc K M st r Hrun; [discriminate|].
  cbn [color_loop] in Hrun.
  destruct (try_color g K M) as [[gr [spill_gp spill_fp]]|]; [|discriminate Hrun].
  cbn [of_option mbind res_bind] in Hrun.
  destruct ((spill_gp =? 0) && (spill_fp =? 0)); [injection Hrun as <-; auto|].
  destruct (_ || _); [revert Hrun; apply IH|].
  destruct (rewrite_blocks _ _ _ _ _ _) as [[bbs st']|] eqn:Hrw; [|discriminate Hrun].
  cbn [mbind res_bind] in Hrun.
  destruct (build_graph _) as [[proc' g']|]; [|discriminate Hrun].
  cbn [of_option mbind res_bind] in Hrun.
  apply IH in Hrun as [H1 H2].
  apply rewrite_blocks_Ok in Hrw as (_ & (_ & _ & H3 & H4) & _).
  simpl in H3, H4. split; congruence.
Qed.

End WithBands.

End RewriteFacts.
Module PipelineFacts.
Import Mir Ralloc GraphSpec ColorAux BuildSpec AllocSpec BitsetFacts BuildFacts AllocFacts
  RewriteFacts.

Section WithBands.
Context {RB : reg_bands}.
Variable a : Arch.abi.
Variable native_code : Arch.native_reg → Z.

Lemma bind_Ok {A B} (x : res A) (f : A → res B) (b : B) :
  x ≫= f = Ok b → ∃ y, x = Ok y ∧ f y = Ok b.
Proof. destruct x as [y|e]; [eauto | discriminate]. Qed.

Lemma of_option_Ok {A} (e : failure) (o : option A) (y : A) :
  of_option e o = Ok y → o = Some y.
Proof. destruct o; simpl; congruence. Qed.

Lemma finish_allocation_Ok (lr : loop_result) (r : alloc_result) :
  finish_allocation lr = Ok r →
  ∃ bbs gp_mask fp_mask,
    visit_blocks (swap_reg (lr_graph lr)) (basic_blocks (lr_proc lr))
      (used_gp_mask (lr_proc lr), used_fp_mask (lr_proc lr), None)
    = (bbs, (gp_mask, fp_mask, None))
    ∧ ar_graph r = lr_graph lr
    ∧ ar_slots_used r = slots_used (lr_state lr)
    ∧ next_gp_id (ar_proc r) = next_gp_id (lr_proc lr)
    ∧ used_stack_length (ar_proc r)
      = (Z.land (num_spill_slots (lr_state lr) + 1) (Z.lnot 1) * 8)%Z
    ∧ basic_blocks (ar_proc r) = erase_moves <$> bbs.
Proof.
  unfold finish_allocation.
  destruct (visit_blocks _ _ _) as [bbs [[gp_mask fp_mask] [e|]]]; [discriminate|].
  intros [= <-]. exists bbs, gp_mask, fp_mask. repeat split.
Qed.

(** The stages of a run of [allocate_registers] that ends well. *)
Lemma allocate_registers_stages (fuel : nat) (proc : mprocedure) (r : alloc_result) :
  allocate_registers a native_code fuel proc = Ok r →
  ∃ proc1 proc2 g K M lr,
    build_graph proc1 = Some (proc2, g)
    ∧ K ≤ MAX_K a ∧ M ≤ MAX_M a
    ∧ color_loop a max_steps fuel proc2 g g K M (initial_state proc2) = Ok lr
    ∧ finish_allocation lr = Ok r.
Proof.
  unfold allocate_registers. intros H.
  apply bind_Ok in H as (proc1 & H1 & H).
  apply bind_Ok in H as ([proc2 g] & Hbg%of_option_Ok & H).
  apply bind_Ok in H as (lr & Hloop & H).
  eexists proc1, proc2, g, _, _, lr.
  split; [exact Hbg|]. split; [|split; [|split; [exact Hloop | exact H]]];
    apply N.le_min_l.
Qed.

End WithBands.

End PipelineFacts.
Module SampleFacts.
Import Mir Ralloc BuildSpec Sample.

Lemma bands_ok_sample : bands_ok bands.
Proof.
  split.
  - intros r. simpl. intros [H1 H2]%andb_true_iff.
    apply N.leb_le in H1. apply N.ltb_lt in H2.
    destruct (N.ltb_spec r 40); lia.
  - intros r r'. simpl. intros [H1 H2]%andb_true_iff [H3 H4]%andb_true_iff.
    apply N.leb_le in H1, H3. apply N.ltb_lt in H2, H4.
    destruct (N.ltb_spec r 72); [|lia]. destruct (N.ltb_spec r' 72); [|lia].
    destruct (N.leb_spec 40 r), (N.leb_spec 40 r'); try discriminate; intros _ Hne;
      destruct (N.ltb_spec r 40), (N.ltb_spec r' 40); lia.
Defined.

End SampleFacts.

Module Claims.
Import Mir Ralloc GraphSpec ColorAux BuildSpec AllocSpec BitsetFacts BuildFacts AllocFacts
  RewriteFacts PipelineFacts.

Section WithBands.
Context {RB : reg_bands}.
Variable a : Arch.abi.
Variable native_code : Arch.native_reg → Z.

(** C1.  After [allocate_registers] has ended well, the two nodes at the ends
    of every edge of the final interference graph are both spilled with
    different slots, or both colored with different colors.  (The proof shows
    the second: a run ends well only after a coloring without a spill.) *)
Theorem allocate_registers_valid_coloring (fuel : nat) (proc : mprocedure)
    (r : alloc_result) (u v : nat) (nu nv : graph_node) :
  bands_ok RB → Arch.num_gp_reg a < 64 → Arch.num_fp_reg a < 64 →
  allocate_registers a native_code fuel proc = Ok r →
  ar_graph r !! u = Some nu → ar_graph r !! v = Some nv → u ≠ v →
  Bitset.get (vtx nu) v = true →
  ends_apart nu nv.
Proof.
  intros Hok HK HM Hrun Hu Hv Huv Hadj.
  destruct (allocate_registers_stages a native_code fuel proc r Hrun)
    as (proc1 & proc2 & g & K & M & lr & Hbg & HKle & HMle & Hloop & Hfin).
  destruct (finish_allocation_Ok lr r Hfin) as (bbs & gp & fp & _ & Hg & _).
  destruct (build_graph_built _ _ _ Hbg) as [Hb Hl].
  assert (Hl' : N.of_nat (length g) < 2 ^ 64).
  { eapply N.lt_trans; [exact Hl | reflexivity]. }
  pose proof (built_wf g Hok Hb) as Hwf.
  destruct (color_loop_final a max_steps fuel proc2 g g K M _ lr Hok HK HM
              Hwf Hwf Hl' Hl' HKle HMle Hloop)
    as (g0 & K0 & M0 & Hwf0 & Hl0 & HK0 & HM0 & Htc).
  rewrite Hg in Hu, Hv. right.
  exact (try_color_colors_edges g0 (lr_graph lr) K0 M0 HK0 HM0 Hl0 Hwf0 Htc
           u v nu nv Hu Hv Huv Hadj).
Qed.

(** C8.  After the last pass of [allocate_registers] no instruction of the
    procedure is a register-to-register move ([movi], [movf]) whose
    destination is its source. *)
Theorem no_self_move_left (fuel : nat) (proc : mprocedure) (r : alloc_result)
    (bb : basic_block) (i : minsn) :
  allocate_registers a native_code fuel proc = Ok r →
  bb ∈ basic_blocks (ar_proc r) → i ∈ instructions bb →
  ¬ self_move i.
Proof.
  intros Hrun Hbb Hi.
  destruct (allocate_registers_stages a native_code fuel proc r Hrun)
    as (proc1 & proc2 & g & K & M & lr & Hbg & HKle & HMle & Hloop & Hfin).
  destruct (finish_allocation_Ok lr r Hfin) as (bbs & gp & fp & _ & _ & _ & _ & _ & Hblocks).
  rewrite Hblocks in Hbb. apply list_elem_of_fmap in Hbb as (bb0 & -> & _).
  unfold erase_moves in Hi. simpl in Hi.
  apply list_elem_of_In, filter_In in Hi as [_ Hkeep].
  apply negb_true_iff in Hkeep.
  intros [Hop (x & Harg & Hout)].
  unfold eliminated_move, is_op in Hkeep.
  assert (Hmov : bool_decide (vopcode i = movf) || bool_decide (vopcode i = movi) = true).
  { destruct Hop as [-> | ->]; reflexivity. }
  rewrite Hmov, Harg in Hkeep. simpl in Hkeep.
  rewrite Hout, N.eqb_refl in Hkeep. discriminate.
Qed.

End WithBands.

End Claims.
Module Witnesses.
Import Mir Ralloc GraphSpec BuildSpec AllocSpec Sample SampleFacts Claims.

Lemma allocate_registers_valid_coloring_witness :
  ∃ r nu nv,
    allocate_registers (RB := bands) Arch.MS64 native_code 100 straight_line = Ok r
    ∧ ar_graph r !! 72%nat = Some nu ∧ ar_graph r !! 74%nat = Some nv
    ∧ Bitset.get (vtx nu) 74 = true
    ∧ ends_apart nu nv.
Proof.
  eexists _, _, _.
  split; [vm_compute; reflexivity|].
  split; [vm_compute; reflexivity|].
  split; [vm_compute; reflexivity|].
  split; [vm_compute; reflexivity|].
  eapply (allocate_registers_valid_coloring (RB := bands) Arch.MS64 native_code 100
            straight_line _ 72 74).
  - exact bands_ok_sample.
  - vm_compute; reflexivity.
  - vm_compute; reflexivity.
  - vm_compute; reflexivity.
  - vm_compute; reflexivity.
  - vm_compute; reflexivity.
  - lia.
  - vm_compute; reflexivity.
Defined.

Lemma no_self_move_left_witness :
  ∃ r bb i,
    allocate_registers (RB := bands) Arch.MS64 native_code 100 coalesced = Ok r
    ∧ bb ∈ basic_blocks (ar_proc r) ∧ i ∈ instructions bb
    ∧ ¬ self_move i.
Proof.
  eexists _, _, _.
  split; [vm_compute; reflexivity|].
  split; [vm_compute; apply list_elem_of_here|].
  split; [vm_compute; apply list_elem_of_here|].
  eapply (no_self_move_left (RB := bands) Arch.MS64 native_code 100 coalesced).
  - vm_compute; reflexivity.
  - vm_compute; apply list_elem_of_here.
  - vm_compute; apply list_elem_of_here.
Defined.

End Witnesses.

Module StackClaims.
Import Mir Ralloc AllocSpec Sample RewriteFacts PipelineFacts.

(** C7 (the code when a slot is needed).  No run of [allocate_registers]
    that ends well has filled in a spill slot, and [used_stack_length] is 0
    after every one of them: the rewriter fills in a slot only inside
    [spill_and_swap], and every call of [spill_and_swap] comes to
    [assume_unreachable()].  So a procedure with one spilled slot does not get
    [used_stack_length = 16]: for seventeen general-purpose values live at
    once on the MS64 ABI, [try_color] with all the registers spills one node,
    register 72, into slot 1, and the run stops at line 514 before line 567
    is reached.  (A run without a spill, as of [straight_line], ends well
    with [used_stack_length = 0].) *)
Theorem used_stack_length_never_counts_a_slot :
  (∀ {RB : reg_bands} (a : Arch.abi) (native_code : Arch.native_reg → Z) (fuel : nat)
     (proc : mprocedure) (r : alloc_result),
     allocate_registers a native_code fuel proc = Ok r →
     ar_slots_used r = [] ∧ used_stack_length (ar_proc r) = 0%Z)
  ∧ (∃ p g g' n, build_graph (RB := bands) one_spill = Some (p, g)
                 ∧ try_color g (MAX_K Arch.MS64) (MAX_M Arch.MS64) = Some (g', (1, 0))
                 ∧ List.filter (λ s, negb (s =? 0)%Z) (spill_slot <$> g') = [1%Z]
                 ∧ g' !! 72%nat = Some n ∧ spill_slot n = 1%Z)
  ∧ allocate_registers (RB := bands) Arch.MS64 native_code 100 one_spill
    = Fail unreachable_reached
  ∧ ∃ r, allocate_registers (RB := bands) Arch.MS64 native_code 100 straight_line = Ok r
         ∧ used_stack_length (ar_proc r) = 0%Z.
Proof.
  split; [|split; [|split]].
  - intros RB a nc fuel proc r Hrun.
    destruct (allocate_registers_stages a nc fuel proc r Hrun)
      as (proc1 & proc2 & g & K & M & lr & Hbg & HKle & HMle & Hloop & Hfin).
    destruct (finish_allocation_Ok lr r Hfin)
      as (bbs & gp & fp & _ & _ & Hused & _ & Hstack & _).
    destruct (color_loop_slots a _ _ _ _ _ _ _ _ _ Hloop) as [Hn Hs].
    rewrite Hstack, Hused, Hn, Hs. split; reflexivity.
  - eexists _, _, _, _.
    split; [vm_compute; reflexivity|].
    split; [vm_compute; reflexivity|].
    split; [vm_compute; reflexivity|].
    split; vm_compute; reflexivity.
  - vm_compute. reflexivity.
  - eexists. split; vm_compute; reflexivity.
Qed.

End StackClaims.

(** ** The liveness analysis *)

Module LiveFacts.
Import Mir Ralloc LiveSpec BitsetFacts PickFacts.

Lemma existsb_false_In {A} (f : A → bool) (l : list A) (x : A) :
  existsb f l = false → In x l → f x = false.
Proof.
  intros He Hin. destruct (f x) eqn:Hf; [|reflexivity].
  assert (existsb f l = true) by (apply existsb_exists; eauto). congruence.
Qed.

Lemma get_to_nat (x : Bitset.t) (k : N) : Bitset.get x (N.to_nat k) = N.testbit x k.
Proof. unfold Bitset.get. rewrite N2Nat.id. reflexivity. Qed.

(** Two different sets, one inside the other: a register of the larger one
    is missing in the smaller. *)
Lemma differ_bit (W : nat) (x y : Bitset.t) :
  sub x y → below W y → x ≠ y →
  ∃ i, (i < W)%nat ∧ Bitset.get x i = false ∧ Bitset.get y i = true.
Proof.
  intros Hsub Hbel Hne.
  destruct (existsb (λ i, negb (Bitset.get x i) && Bitset.get y i) (seq 0 W)) eqn:E.
  - apply existsb_exists in E as (i & Hin & Hi).
    apply in_seq in Hin. apply andb_true_iff in Hi as [Hx%negb_true_iff Hy].
    exists i. split; [lia|]. split; assumption.
  - exfalso. apply Hne. apply N.bits_inj. intros k.
    rewrite <- !get_to_nat.
    destruct (Bitset.get y (N.to_nat k)) eqn:Hy.
    + pose proof (Hbel _ Hy) as Hlt.
      assert (Hin : In (N.to_nat k) (seq 0 W)) by (apply in_seq; lia).
      pose proof (existsb_false_In _ _ _ E Hin) as Hf. simpl in Hf.
      rewrite Hy, andb_true_r in Hf. apply negb_false_iff in Hf. exact Hf.
    + destruct (Bitset.get x (N.to_nat k)) eqn:Hx; [|reflexivity].
      apply Hsub in Hx. congruence.
Qed.

Lemma cnt_le (W : nat) (x : Bitset.t) : (cnt W x ≤ W)%nat.
Proof.
  unfold cnt.
  assert (H : ∀ l : list nat,
            (sum_list ((λ i, if Bitset.get x i then 1 else 0)%nat <$> l) ≤ length l)%nat).
  { induction l as [|i l IH]; [simpl; lia|].
    rewrite fmap_cons. cbn [sum_list sum_list_with length].
    change (id (if Bitset.get x i then 1 else 0))%nat
      with (if Bitset.get x i then 1 else 0)%nat.
    destruct (Bitset.get x i); lia. }
  specialize (H (seq 0 W)). rewrite length_seq in H. exact H.
Qed.

Lemma cnt_lt (W : nat) (x y : Bitset.t) :
  sub x y → below W y → x ≠ y → (cnt W x < cnt W y)%nat.
Proof.
  intros Hsub Hbel Hne.
  destruct (differ_bit W x y Hsub Hbel Hne) as (i & Hi & Hx & Hy).
  unfold cnt. apply (sum_list_pointwise_lt _ _ i 1 0).
  - rewrite !length_fmap. reflexivity.
  - intros j c c'. rewrite !list_lookup_fmap.
    destruct (seq 0 W !! j) as [k|]; simpl; [|discriminate].
    intros [= <-] [= <-].
    destruct (Bitset.get x k) eqn:Hk; [rewrite (Hsub _ Hk); lia|].
    destruct (Bitset.get y k); lia.
  - rewrite list_lookup_fmap, lookup_seq_lt by assumption. simpl. rewrite Hy. reflexivity.
  - rewrite list_lookup_fmap, lookup_seq_lt by assumption. simpl. rewrite Hx. reflexivity.
  - lia.
Qed.

Lemma live_size_le (W : nat) (bbs : list basic_block) :
  (live_size W bbs ≤ length bbs * W)%nat.
Proof.
  unfold live_size. induction bbs as [|bb bbs IH]; [simpl; lia|].
  rewrite fmap_cons. cbn [sum_list sum_list_with length].
  change (id (cnt W (df_in_live bb))) with (cnt W (df_in_live bb)).
  pose proof (cnt_le W (df_in_live bb)). lia.
Qed.

(** *** The sets the equations give *)

Lemma get_union_fold (bbs : list basic_block) (succs : list nat) (acc : Bitset.t)
    (i : nat) :
  Bitset.get (foldl (λ acc s, Bitset.set_union acc (in_live_of bbs s)) acc succs) i
  = Bitset.get acc i || existsb (λ s, Bitset.get (in_live_of bbs s) i) succs.
Proof.
  revert acc. induction succs as [|s succs IH]; intros acc; simpl.
  - rewrite orb_false_r. reflexivity.
  - rewrite IH, get_union, orb_assoc. reflexivity.
Qed.

Lemma get_new_live (bbs : list basic_block) (bb : basic_block) (i : nat) :
  Bitset.get (new_live bbs bb) i
  = existsb (λ s, Bitset.get (in_live_of bbs s) i) (successors bb)
    && negb (Bitset.get (df_def bb) i)
    || Bitset.get (df_ref bb) i.
Proof.
  unfold new_live. rewrite get_union, get_difference, get_union_fold, get_empty.
  reflexivity.
Qed.

Lemma new_live_mono (bbs bbs' : list basic_block) (bb bb' : basic_block) :
  (∀ s, sub (in_live_of bbs s) (in_live_of bbs' s)) →
  successors bb' = successors bb → df_def bb' = df_def bb → df_ref bb' = df_ref bb →
  sub (new_live bbs bb) (new_live bbs' bb').
Proof.
  intros Hin Hs Hd Hr i. rewrite !get_new_live, Hs, Hd, Hr.
  intros [[He Hdef]%andb_true_iff | Href]%orb_true_iff; apply orb_true_iff;
    [left | right; assumption].
  apply andb_true_iff. split; [|assumption].
  apply existsb_exists in He as (s & Hsin & Hbit).
  apply existsb_exists. exists s. split; [assumption|]. apply Hin. assumption.
Qed.

Lemma in_live_of_alter (bbs : list basic_block) (b s : nat) (bb : basic_block)
    (nl : Bitset.t) :
  bbs !! b = Some bb →
  in_live_of (alter (with_in_live nl) b bbs) s
  = if decide (s = b) then nl else in_live_of bbs s.
Proof.
  intros Hb. unfold in_live_of. rewrite list_lookup_alter.
  destruct (decide (b = s)) as [->|Hne].
  - rewrite Hb. simpl. rewrite decide_True by reflexivity. reflexivity.
  - rewrite decide_False by congruence. reflexivity.
Qed.

Lemma in_live_of_below (W : nat) (bbs : list basic_block) (s : nat) :
  live_inv W bbs → below W (in_live_of bbs s).
Proof.
  intros Hinv. unfold in_live_of. destruct (bbs !! s) as [bs|] eqn:Hs; simpl.
  - apply (Hinv s bs Hs).
  - intros i. rewrite get_empty. discriminate.
Qed.

(** *** One block of a round *)

Lemma live_block_step (W : nat) (bbs bbs' : list basic_block) (ch ch' : bool) (b : nat) :
  live_inv W bbs → live_block (bbs, ch) b = (bbs', ch') →
  live_inv W bbs' ∧ length bbs' = length bbs
  ∧ ((ch' = ch ∧ bbs' = bbs ∧ ∀ bb, bbs !! b = Some bb → new_live bbs bb = df_in_live bb)
     ∨ (ch' = true ∧ (live_size W bbs < live_size W bbs')%nat)).
Proof.
  intros Hinv. unfold live_block.
  destruct (bbs !! b) as [bb|] eqn:Hb.
  2: { intros [= <- <-]. split; [assumption|]. split; [reflexivity|]. left.
       split; [reflexivity|]. split; [reflexivity|]. discriminate. }
  destruct (N.eqb_spec (new_live bbs bb) (df_in_live bb)) as [Heq|Hne]; simpl.
  { intros [= <- <-]. split; [assumption|]. split; [reflexivity|]. left.
    split; [reflexivity|]. split; [reflexivity|]. intros bb0 [= <-]. assumption. }
  intros [= <- <-].
  destruct (Hinv b bb Hb) as (Hsub & Hbel & Href & Hout).
  set (nl := new_live bbs bb) in *.
  assert (Hgrow : ∀ s, sub (in_live_of bbs s) (in_live_of (alter (with_in_live nl) b bbs) s)).
  { intros s. rewrite (in_live_of_alter bbs b s bb nl Hb).
    destruct (decide (s = b)) as [->|]; [|intros i; auto].
    unfold in_live_of. rewrite Hb. exact Hsub. }
  assert (Hnl : below W nl).
  { intros i. unfold nl. rewrite get_new_live.
    intros [[He _]%andb_true_iff | Hr]%orb_true_iff; [|apply Href; assumption].
    apply existsb_exists in He as (s & _ & Hbit).
    apply (in_live_of_below W bbs s Hinv i Hbit). }
  split; [|split; [apply length_alter|right; split; [reflexivity|]]].
  - intros c bc. rewrite list_lookup_alter.
    destruct (decide (b = c)) as [<-|Hbc].
    + rewrite Hb. simpl. intros [= <-]. simpl.
      split; [|split; [assumption|split; assumption]].
      apply (new_live_mono bbs _ bb); auto.
    + intros Hc. destruct (Hinv c bc Hc) as (Hsub' & Hbel' & Href' & Hout').
      split; [|split; [assumption|split; assumption]].
      intros i Hi. apply (new_live_mono bbs _ bc bc); auto.
  - unfold live_size.
    apply (sum_list_pointwise_lt _ _ b (cnt W nl) (cnt W (df_in_live bb))).
    + rewrite !length_fmap, length_alter. reflexivity.
    + intros j c c'. rewrite !list_lookup_fmap, list_lookup_alter.
      destruct (decide (b = j)) as [<-|Hbj].
      * rewrite Hb. simpl. intros [= <-] [= <-].
        destruct (decide (df_in_live bb = nl)) as [->|Hd]; [lia|].
        pose proof (cnt_lt W _ _ Hsub Hnl Hd). lia.
      * destruct (bbs !! j); simpl; [|discriminate]. intros [= <-] [= <-]. lia.
    + rewrite list_lookup_fmap, list_lookup_alter_eq, Hb. reflexivity.
    + rewrite list_lookup_fmap, Hb. reflexivity.
    + apply cnt_lt; auto.
Qed.

(** *** A round, and the loop *)

Lemma live_fold (W : nat) (l : list nat) :
  ∀ (bbs bbs' : list basic_block) (ch ch' : bool),
    live_inv W bbs → foldl live_block (bbs, ch) l = (bbs', ch') →
    live_inv W bbs' ∧ length bbs' = length bbs
    ∧ ((ch' = ch ∧ bbs' = bbs
        ∧ ∀ b bb, b ∈ l → bbs !! b = Some bb → new_live bbs bb = df_in_live bb)
       ∨ (ch' = true ∧ (live_size W bbs < live_size W bbs')%nat)).
Proof.
  induction l as [|b l IH]; intros bbs bbs' ch ch' Hinv; cbn [foldl].
  - intros [= <- <-]. split; [assumption|]. split; [reflexivity|]. left.
    split; [reflexivity|]. split; [reflexivity|]. intros b bb Hin. inversion Hin.
  - destruct (live_block (bbs, ch) b) as [bbs1 ch1] eqn:H1.
    destruct (live_block_step W bbs bbs1 ch ch1 b Hinv H1) as (Hinv1 & Hlen1 & Hcase1).
    intros H2. destruct (IH bbs1 bbs' ch1 ch' Hinv1 H2) as (Hinv' & Hlen' & Hcase').
    split; [assumption|]. split; [congruence|].
    destruct Hcase1 as [(-> & -> & Hfix1) | (-> & Hlt1)].
    + destruct Hcase' as [(-> & -> & Hfix') | (-> & Hlt')].
      * left. split; [reflexivity|]. split; [reflexivity|].
        intros c bc [->|Hin]%elem_of_cons Hc; eauto.
      * right. split; [reflexivity | assumption].
    + right. destruct Hcase' as [(-> & -> & _) | (-> & Hlt')].
      * split; [reflexivity | assumption].
      * split; [reflexivity | lia].
Qed.

Lemma live_sweep_spec (W : nat) (bbs bbs' : list basic_block) (ch : bool) :
  live_inv W bbs → live_sweep bbs = (bbs', ch) →
  live_inv W bbs' ∧ length bbs' = length bbs
  ∧ ((ch = false ∧ bbs' = bbs ∧ live_fixed bbs)
     ∨ (ch = true ∧ (live_size W bbs < live_size W bbs')%nat)).
Proof.
  intros Hinv Hs. unfold live_sweep in Hs.
  destruct (live_fold W _ bbs bbs' false ch Hinv Hs) as (Hinv' & Hlen & Hcase).
  split; [assumption|]. split; [assumption|].
  destruct Hcase as [(-> & -> & Hfix) | (-> & Hlt)]; [left | right; auto].
  split; [reflexivity|]. split; [reflexivity|].
  intros b bb Hb. apply (Hfix b bb); [|assumption].
  apply elem_of_seq. apply lookup_lt_Some in Hb. lia.
Qed.

(** With enough rounds the loop ends, at a fixed point of the equations. *)
Lemma live_loop_total (W : nat) (fuel : nat) :
  ∀ bbs, live_inv W bbs → (length bbs * W - live_size W bbs < fuel)%nat →
         ∃ bbs', live_loop fuel bbs = Some bbs' ∧ live_inv W bbs' ∧ live_fixed bbs'.
Proof.
  induction fuel as [|fuel IH]; intros bbs Hinv Hlt; [lia|].
  cbn [live_loop]. destruct (live_sweep bbs) as [bbs1 ch] eqn:Hs.
  destruct (live_sweep_spec W bbs bbs1 ch Hinv Hs) as (Hinv1 & Hlen & Hcase).
  destruct Hcase as [(-> & -> & Hfix) | (-> & Hgrow)].
  - exists bbs. auto.
  - apply IH; [assumption|].
    pose proof (live_size_le W bbs1). rewrite Hlen in *. lia.
Qed.

(** Whenever the loop ends, it ends at a fixed point of the equations. *)
Lemma live_loop_fixed (W : nat) (fuel : nat) :
  ∀ bbs bbs', live_inv W bbs → live_loop fuel bbs = Some bbs' →
              live_inv W bbs' ∧ live_fixed bbs'.
Proof.
  induction fuel as [|fuel IH]; intros bbs bbs' Hinv; [discriminate|].
  cbn [live_loop]. destruct (live_sweep bbs) as [bbs1 ch] eqn:Hs.
  destruct (live_sweep_spec W bbs bbs1 ch Hinv Hs) as (Hinv1 & Hlen & Hcase).
  destruct Hcase as [(-> & -> & Hfix) | (-> & Hgrow)].
  - intros [= <-]. auto.
  - apply IH. assumption.
Qed.

End LiveFacts.
Module LivenessFacts.
Import Mir Ralloc LiveSpec BitsetFacts PickFacts LiveFacts BuildFacts.

(** *** out-live *)

Lemma out_live_block_ext (st st' : list basic_block) (b : basic_block) :
  (∀ s, in_live_of st s = in_live_of st' s) → out_live_block st b = out_live_block st' b.
Proof.
  intros H. unfold out_live_block. f_equal.
  generalize (df_out_live b). induction (successors b) as [|s l IH]; intros acc; simpl;
    [reflexivity|].
  rewrite H. apply IH.
Qed.

Lemma in_live_of_out_live (st : list basic_block) (f : basic_block → basic_block)
    (j s : nat) :
  (∀ x, df_in_live (f x) = df_in_live x) →
  in_live_of (alter f j st) s = in_live_of st s.
Proof.
  intros Hf. unfold in_live_of. rewrite list_lookup_alter.
  destruct (decide (j = s)) as [->|]; [|reflexivity].
  destruct (st !! s); simpl; [apply Hf | reflexivity].
Qed.

Lemma out_live_fold (bbs : list basic_block) (k : nat) :
  (∀ s, in_live_of (foldl (λ st b, alter (out_live_block st) b st) bbs (seq 0 k)) s
        = in_live_of bbs s)
  ∧ ∀ j, foldl (λ st b, alter (out_live_block st) b st) bbs (seq 0 k) !! j
         = if bool_decide (j < k)%nat then out_live_block bbs <$> bbs !! j
           else bbs !! j.
Proof.
  induction k as [|k [IHin IHlk]].
  - split; [reflexivity|]. intros j. reflexivity.
  - rewrite seq_S, foldl_snoc. cbn [Nat.add].
    set (st := foldl (λ st b, alter (out_live_block st) b st) bbs (seq 0 k)) in *.
    split.
    + intros s. rewrite in_live_of_out_live; [apply IHin | reflexivity].
    + intros j. rewrite list_lookup_alter.
      destruct (decide (k = j)) as [->|Hne].
      * rewrite (bool_decide_eq_true_2 (j < S j)%nat) by lia.
        rewrite IHlk, (bool_decide_eq_false_2 (j < j)%nat) by lia.
        destruct (bbs !! j); simpl; [|reflexivity].
        f_equal. apply out_live_block_ext. exact IHin.
      * rewrite IHlk. apply (f_equal (λ c : bool, if c then _ else _)).
        apply bool_decide_ext. lia.
Qed.

Lemma out_live_pass_lookup (bbs : list basic_block) (j : nat) :
  out_live_pass bbs !! j = out_live_block bbs <$> bbs !! j.
Proof.
  unfold out_live_pass. destruct (out_live_fold bbs (length bbs)) as [_ H].
  rewrite H. case_bool_decide as Hj; [reflexivity|].
  rewrite lookup_ge_None_2 by lia. reflexivity.
Qed.

Lemma out_live_pass_in_live (bbs : list basic_block) (s : nat) :
  in_live_of (out_live_pass bbs) s = in_live_of bbs s.
Proof. apply (out_live_fold bbs (length bbs)). Qed.

(** *** The code of the blocks stays *)

Lemma same_code_refl (bb : basic_block) : same_code bb bb.
Proof.
  exists (df_def bb), (df_ref bb), (df_in_live bb), (df_out_live bb).
  destruct bb; reflexivity.
Qed.

Lemma same_code_with_df (bb bb' : basic_block) (d r i o : Bitset.t) :
  same_code bb bb' → same_code bb (with_df d r i o bb').
Proof. intros (d' & r' & i' & o' & ->). exists d, r, i, o. reflexivity. Qed.

Lemma live_block_same_code (bbs0 bbs : list basic_block) (ch : bool) (b : nat) :
  Forall2 same_code bbs0 bbs → Forall2 same_code bbs0 (live_block (bbs, ch) b).1.
Proof.
  intros H. unfold live_block. destruct (bbs !! b) as [bb|]; [|assumption].
  destruct (negb _); [|assumption]. simpl.
  apply Forall2_alter_r; [assumption|].
  intros x y _ _ Hxy. apply same_code_with_df. assumption.
Qed.

Lemma live_sweep_same_code (bbs0 bbs : list basic_block) :
  Forall2 same_code bbs0 bbs → Forall2 same_code bbs0 (live_sweep bbs).1.
Proof.
  intros H. unfold live_sweep.
  apply (foldl_preserves (λ st : list basic_block * bool, Forall2 same_code bbs0 st.1));
    [assumption|].
  intros [y ch] b Hy. apply live_block_same_code. assumption.
Qed.

Lemma live_loop_same_code (fuel : nat) :
  ∀ bbs0 bbs bbs', Forall2 same_code bbs0 bbs → live_loop fuel bbs = Some bbs' →
                   Forall2 same_code bbs0 bbs'.
Proof.
  induction fuel as [|fuel IH]; intros bbs0 bbs bbs' H; [discriminate|].
  cbn [live_loop].
  pose proof (live_sweep_same_code bbs0 bbs H) as Hs.
  destruct (live_sweep bbs) as [bbs1 ch]. simpl in Hs.
  destruct ch; [apply IH; assumption | intros [= <-]; assumption].
Qed.

Lemma out_live_pass_same_code (bbs0 bbs : list basic_block) :
  Forall2 same_code bbs0 bbs → Forall2 same_code bbs0 (out_live_pass bbs).
Proof.
  intros H. unfold out_live_pass. apply foldl_preserves; [assumption|].
  intros y b Hy. apply Forall2_alter_r; [assumption|].
  intros x z _ _ Hxz. apply same_code_with_df. assumption.
Qed.

Section WithBands.
Context {RB : reg_bands}.

Lemma def_ref_block_same_code (bb bb' : basic_block) :
  same_code bb bb' → def_ref_block bb' = def_ref_block bb.
Proof.
  intros (d & r & i & o & ->). unfold def_ref_block. simpl.
  destruct (foldl _ _ _). reflexivity.
Qed.

Lemma def_ref_same_code (bbs bbs' : list basic_block) :
  Forall2 same_code bbs bbs' → def_ref_block <$> bbs' = def_ref_block <$> bbs.
Proof.
  induction 1 as [|bb bb' bbs bbs' H _ IH]; [reflexivity|].
  rewrite !fmap_cons, IH, (def_ref_block_same_code bb bb' H). reflexivity.
Qed.

Lemma liveness_same_code (fuel : nat) (bbs bbs' : list basic_block) :
  liveness fuel bbs = Some bbs' → Forall2 same_code bbs bbs'.
Proof.
  unfold liveness.
  destruct (live_loop fuel (def_ref_block <$> bbs)) as [bbs1|] eqn:H; [|discriminate].
  simpl. intros [= <-]. apply out_live_pass_same_code.
  apply (live_loop_same_code fuel bbs (def_ref_block <$> bbs) bbs1); [|assumption].
  apply Forall2_fmap_r. apply Forall_Forall2_diag. apply Forall_forall.
  intros bb _. unfold def_ref_block. simpl. destruct (foldl _ _ _).
  apply same_code_with_df, same_code_refl.
Qed.

(** The analysis reads the instructions and the successor links only. *)
Lemma liveness_reads_code (fuel : nat) (bbs bbs' : list basic_block) :
  Forall2 same_code bbs bbs' → liveness fuel bbs' = liveness fuel bbs.
Proof. intros H. unfold liveness. rewrite (def_ref_same_code bbs bbs' H). reflexivity. Qed.

(** *** The start of the loop *)

Lemma def_ref_reg_below (W : nat) (st : Bitset.t * Bitset.t) (x : mreg * bool) :
  (uid x.1 < W)%nat → below W st.1 ∧ below W st.2 →
  below W (def_ref_reg st x).1 ∧ below W (def_ref_reg st x).2.
Proof.
  destruct st as [def ref], x as [r is_read]. simpl. intros Hr [Hd Hf].
  unfold def_ref_reg. destruct (is_pseudo r); [auto|].
  assert (Hset : ∀ y, below W y → below W (Bitset.set y (uid r))).
  { intros y Hy i. rewrite get_set. case_bool_decide; [subst; auto | apply Hy]. }
  destruct is_read; [destruct (negb _)|]; simpl; auto.
Qed.

Lemma def_ref_block_inv (W : nat) (bbs : list basic_block) :
  regs_below W bbs → live_inv W (def_ref_block <$> bbs).
Proof.
  intros Hregs b bb'. rewrite list_lookup_fmap.
  destruct (bbs !! b) as [bb|] eqn:Hb; simpl; [|discriminate]. intros [= <-].
  assert (Hbb : bb ∈ bbs) by (apply list_elem_of_lookup; eauto).
  unfold def_ref_block.
  assert (H : ∀ l st, (∀ i, i ∈ l → i ∈ instructions bb) →
            below W st.1 ∧ below W st.2 →
            below W (foldl (λ st i, foldl def_ref_reg st (regs_of i)) st l).1
            ∧ below W (foldl (λ st i, foldl def_ref_reg st (regs_of i)) st l).2).
  { induction l as [|i l IH]; intros st Hl Hst; simpl; [assumption|].
    apply IH; [intros j Hj; apply Hl; right; assumption|].
    assert (Hi : i ∈ instructions bb) by (apply Hl; left).
    assert (H : ∀ rs st0, (∀ x, x ∈ rs → x ∈ regs_of i) →
              below W st0.1 ∧ below W st0.2 →
              below W (foldl def_ref_reg st0 rs).1 ∧ below W (foldl def_ref_reg st0 rs).2).
    { induction rs as [|x rs IHr]; intros st0 Hrs Hst0; simpl; [assumption|].
      apply IHr; [intros y Hy; apply Hrs; right; assumption|].
      apply def_ref_reg_below; [|assumption].
      assert (Hx : x ∈ regs_of i) by (apply Hrs; left).
      destruct x as [r is_read]. apply (Hregs bb i r is_read); assumption. }
    apply H; auto. }
  specialize (H (instructions bb) (Bitset.empty, Bitset.empty) (λ i Hi, Hi)).
  destruct (foldl _ _ _) as [def ref]. simpl in *.
  assert (He : below W Bitset.empty) by (intros i; rewrite get_empty; discriminate).
  destruct (H (conj He He)) as [_ Href].
  split; [intros i; rewrite get_empty; discriminate|].
  split; [assumption|]. split; [assumption | reflexivity].
Qed.

End WithBands.

End LivenessFacts.
Module LivenessClaims.
Import Mir Ralloc LiveSpec BitsetFacts LiveFacts LivenessFacts.

Lemma regs_belowb_sound (W : nat) (bbs : list basic_block) :
  regs_belowb W bbs = true → regs_below W bbs.
Proof.
  unfold regs_belowb. rewrite forallb_forall. intros H bb i r is_read Hbb Hi Hr.
  apply list_elem_of_In in Hbb, Hi, Hr.
  specialize (H bb Hbb). rewrite forallb_forall in H.
  specialize (H i Hi). rewrite forallb_forall in H.
  specialize (H (r, is_read) Hr). simpl in H. apply Nat.ltb_lt in H. exact H.
Qed.

Section WithBands.
Context {RB : reg_bands}.

Lemma liveness_equations (W fuel : nat) (bbs bbs' : list basic_block) :
  regs_below W bbs → liveness fuel bbs = Some bbs' → solves_equations bbs'.
Proof.
  intros Hregs. unfold liveness.
  destruct (live_loop fuel (def_ref_block <$> bbs)) as [bbs1|] eqn:Hloop; [|discriminate].
  simpl. intros [= <-].
  destruct (live_loop_fixed W fuel _ bbs1 (def_ref_block_inv W bbs Hregs) Hloop)
    as [Hinv Hfix].
  intros b bb. rewrite out_live_pass_lookup.
  destruct (bbs1 !! b) as [bb1|] eqn:Hb; simpl; [|discriminate]. intros [= <-].
  destruct (Hinv b bb1 Hb) as (_ & _ & _ & Hout).
  split.
  - intros i. simpl. rewrite Hout, get_union_fold, get_empty. simpl.
    rewrite existsb_exists. split.
    + intros (s & Hs & Hbit). apply list_elem_of_In in Hs.
      rewrite <- out_live_pass_in_live in Hbit. unfold in_live_of in Hbit.
      destruct (out_live_pass bbs1 !! s) as [bs|] eqn:Hbs; simpl in Hbit.
      * eauto.
      * rewrite get_empty in Hbit. discriminate.
    + intros (s & bs & Hs & Hbs & Hbit). exists s. split; [apply list_elem_of_In, Hs|].
      rewrite <- out_live_pass_in_live. unfold in_live_of. rewrite Hbs. exact Hbit.
  - simpl. rewrite Hout, <- (Hfix b bb1 Hb). reflexivity.
Qed.

Lemma liveness_total (W : nat) (bbs : list basic_block) :
  regs_below W bbs → is_Some (liveness (live_rounds (N.of_nat W) bbs) bbs).
Proof.
  intros Hregs. unfold liveness, live_rounds. rewrite Nat2N.id.
  destruct (live_loop_total W (S (length bbs * W)) (def_ref_block <$> bbs)
              (def_ref_block_inv W bbs Hregs)) as (bbs1 & -> & _).
  - rewrite length_fmap. lia.
  - simpl. eauto.
Qed.


(** C10.  Running the liveness analysis again on the procedure it has just
    analysed gives the same four bitsets at every block. *)
Theorem liveness_rerun (fuel : nat) (bbs bbs' : list basic_block) :
  liveness fuel bbs = Some bbs' → liveness fuel bbs' = Some bbs'.
Proof.
  intros H. rewrite (liveness_reads_code fuel bbs bbs'); [assumption|].
  apply (liveness_same_code fuel). assumption.
Qed.

End WithBands.

End LivenessClaims.

Module LivenessWitnesses.
Import Mir Ralloc LiveSpec Sample LivenessClaims.


Lemma liveness_rerun_witness :
  ∃ bbs', liveness (RB := bands) 10 (basic_blocks looping) = Some bbs'
          ∧ liveness (RB := bands) 10 bbs' = Some bbs'.
Proof.
  eexists. split; [vm_compute; reflexivity|].
  apply (liveness_rerun (RB := bands) 10 (basic_blocks looping)).
  vm_compute; reflexivity.
Defined.

End LivenessWitnesses.
Module CountFacts.
Import Mir Ralloc BuildSpec CountSpec BuildFacts.

Lemma tally_app (p : occurrence → bool) (l l' : list occurrence) :
  tally p (l ++ l') = tally p l + tally p l'.
Proof. unfold tally. rewrite List.filter_app, length_app. lia. Qed.

Lemma tally_one (p : occurrence → bool) (o : occurrence) :
  tally p [o] = if p o then 1 else 0.
Proof. unfold tally. simpl. destruct (p o); reflexivity. Qed.

Lemma use_count_snoc (r : mreg) (l : list occurrence) (o : occurrence) :
  use_count r (l ++ [o])
  = use_count r l
    + (if occ_reg o =? r then (if occ_read o then 1 else 0) + (if occ_mem o then 100 else 0)
       else 0).
Proof.
  unfold use_count, reads_of, mem_operands_of. rewrite !tally_app, !tally_one.
  destruct (occ_reg o =? r), (occ_read o), (occ_mem o); simpl; lia.
Qed.

Lemma wrap64_add_l (x y : N) : wrap64 (wrap64 x + y) = wrap64 (x + y).
Proof. unfold wrap64. apply N.Div0.add_mod_idemp_l. Qed.

Lemma default_alter (f : N → N) (l : list N) (k j : nat) :
  (k < length l)%nat →
  default 0 (alter f k l !! j)
  = if bool_decide (j = k) then f (default 0 (l !! j)) else default 0 (l !! j).
Proof.
  intros Hk. rewrite list_lookup_alter. case_bool_decide as Hjk.
  - subst j. rewrite decide_True by reflexivity.
    destruct (lookup_lt_is_Some_2 l k Hk) as [x ->]. reflexivity.
  - rewrite decide_False by congruence. reflexivity.
Qed.

Lemma default_resize (l : list N) (n j : nat) :
  (length l ≤ n)%nat → default 0 (resize n 0 l !! j) = default 0 (l !! j).
Proof.
  intros Hn. destruct (decide (j < length l)%nat) as [Hj|Hj].
  - rewrite lookup_resize by lia. reflexivity.
  - rewrite (lookup_ge_None_2 l j) by lia.
    destruct (decide (j < n)%nat).
    + rewrite lookup_resize_new by lia. reflexivity.
    + rewrite lookup_resize_old by lia. reflexivity.
Qed.

Lemma uid_inj (r r' : mreg) : uid r = uid r' ↔ r = r'.
Proof. unfold uid. split; [apply N2Nat.inj | congruence]. Qed.

(** One more occurrence keeps the counters right. *)
Lemma counted_step (l : list occurrence) (st : list N * N) (o : occurrence) :
  occ_reg o ≠ 0 → occ_reg o + 1 < 2 ^ 32 →
  counted l st → counted (l ++ [o]) (count_occ st o).
Proof.
  destruct st as [cnt mx], o as [r rd m]. simpl. intros Hr Hfit (Hmax & Hlen & Hcnt).
  simpl in *. unfold count_occ. simpl.
  set (st1 := if mx <? r then (resize (N.to_nat (wrap32 (r + 1))) 0 cnt, r) else (cnt, mx)).
  assert (H1 : r ≤ st1.2 ∧ mx ≤ st1.2 ∧ length st1.1 = S (N.to_nat st1.2)
               ∧ ∀ j, default 0 (st1.1 !! j) = default 0 (cnt !! j)).
  { unfold st1. destruct (N.ltb_spec mx r) as [Hlt|Hge]; simpl.
    - unfold wrap32. rewrite N.mod_small by assumption.
      split; [lia|]. split; [lia|]. split; [rewrite length_resize; lia|].
      intros j. apply default_resize. destruct (mx =? 0); lia.
    - split; [assumption|]. split; [lia|].
      destruct (N.eqb_spec mx 0); [lia|]. split; [assumption | reflexivity]. }
  destruct st1 as [cnt1 mx1]. simpl in H1. destruct H1 as (Hr1 & Hmx1 & Hlen1 & Hcnt1).
  assert (Hin : (uid r < length cnt1)%nat) by (unfold uid; lia).
  set (cnt2 := if rd then alter (λ c, wrap64 (c + 1)) (uid r) cnt1 else cnt1).
  assert (Hlen2 : length cnt2 = length cnt1).
  { unfold cnt2. destruct rd; [apply length_alter | reflexivity]. }
  split; [|split].
  - intros o [Ho|Ho]%elem_of_app; simpl.
    + specialize (Hmax o Ho). lia.
    + apply list_elem_of_singleton in Ho. subst o. simpl. assumption.
  - simpl. destruct m; rewrite ?length_alter, Hlen2, Hlen1;
      destruct (N.eqb_spec mx1 0); lia.
  - intros r'. simpl. rewrite use_count_snoc. simpl.
    assert (H2 : default 0 (cnt2 !! uid r')
                 = if r =? r' then wrap64 (use_count r' l + (if rd then 1 else 0))
                   else wrap64 (use_count r' l)).
    { unfold cnt2. destruct rd.
      - rewrite default_alter by assumption. rewrite Hcnt1, Hcnt.
        case_bool_decide as Heq.
        + apply uid_inj in Heq. subst r'. rewrite N.eqb_refl. apply wrap64_add_l.
        + destruct (N.eqb_spec r r') as [->|]; [congruence | reflexivity].
      - rewrite Hcnt1, Hcnt, N.add_0_r. destruct (r =? r'); reflexivity. }
    destruct m.
    + rewrite default_alter by lia. rewrite H2.
      case_bool_decide as Heq.
      * apply uid_inj in Heq. subst r'. rewrite N.eqb_refl, wrap64_add_l.
        f_equal. lia.
      * destruct (N.eqb_spec r r') as [->|]; [congruence|]. f_equal. lia.
    + rewrite H2. destruct (r =? r'); f_equal; lia.
Qed.

Lemma counted_fold (l2 : list occurrence) :
  ∀ l1 st, (∀ o, o ∈ l2 → occ_reg o ≠ 0 ∧ occ_reg o + 1 < 2 ^ 32) →
           counted l1 st → counted (l1 ++ l2) (foldl count_occ st l2).
Proof.
  induction l2 as [|o l2 IH]; intros l1 st Hok Hst; simpl.
  - rewrite app_nil_r. assumption.
  - rewrite (cons_middle o l1 l2), app_assoc. apply IH.
    + intros o' Ho'. apply Hok. right. assumption.
    + destruct (Hok o) as [Hnz Hfit]; [left|]. apply counted_step; assumption.
Qed.

Lemma elem_of_concat {A} (x : A) (ls : list (list A)) :
  x ∈ concat ls ↔ ∃ l, x ∈ l ∧ l ∈ ls.
Proof.
  rewrite list_elem_of_In, in_concat. split; intros (l & H1 & H2); exists l.
  - split; apply list_elem_of_In; assumption.
  - split; apply list_elem_of_In; assumption.
Qed.

Lemma regs_of_nonnull (i : minsn) (r : mreg) (is_read : bool) :
  (r, is_read) ∈ regs_of i → r ≠ 0.
Proof.
  unfold regs_of. intros [H|H]%elem_of_app.
  - apply list_elem_of_fmap in H as (r' & [= -> _] & H).
    apply elem_of_concat in H as (rs & Hr & Hrs).
    apply list_elem_of_fmap in Hrs as (o & -> & _).
    destruct o as [|x|z|mm]; unfold arg_regs, is_null in Hr; try (inversion Hr; fail).
    + destruct (N.eqb_spec x 0); [inversion Hr|].
      apply list_elem_of_singleton in Hr. congruence.
    + destruct (N.eqb_spec (base mm) 0); [inversion Hr|].
      apply list_elem_of_singleton in Hr. congruence.
  - unfold is_null in H. destruct (N.eqb_spec (out i) 0); [inversion H|].
    apply list_elem_of_singleton in H. congruence.
Qed.

Lemma occurrences_nonnull (proc : mprocedure) (o : occurrence) :
  o ∈ occurrences proc → occ_reg o ≠ 0.
Proof.
  unfold occurrences. intros H.
  apply elem_of_concat in H as (l & Ho & Hl).
  apply list_elem_of_fmap in Hl as (bb & -> & _).
  apply elem_of_concat in Ho as (l & Ho & Hl).
  apply list_elem_of_fmap in Hl as (i & -> & _).
  apply list_elem_of_fmap in Ho as ([r rd] & -> & Hx). simpl.
  apply (regs_of_nonnull i r rd Hx).
Qed.

Section WithBands.
Context {RB : reg_bands}.

Lemma count_insn_occ (st : list N * N) (i : minsn) :
  count_insn st i = foldl count_occ st (occurrences_of i).
Proof.
  unfold count_insn, occurrences_of. rewrite foldl_fmap.
  generalize (regs_of i). intros l. revert st.
  induction l as [|[r rd] l IH]; intros st; simpl; [reflexivity|].
  rewrite <- IH. destruct st as [cnt mx]. reflexivity.
Qed.

Lemma count_block_occ (st : list N * N) (bb : basic_block) :
  count_block st bb = foldl count_occ st (concat (occurrences_of <$> instructions bb)).
Proof.
  unfold count_block. generalize (instructions bb). intros l. revert st.
  induction l as [|i l IH]; intros st; simpl; [reflexivity|].
  rewrite foldl_app, <- count_insn_occ. apply IH.
Qed.

Lemma use_counts_occ (proc : mprocedure) :
  use_counts proc = foldl count_occ ([], 0) (occurrences proc).
Proof.
  unfold use_counts, occurrences. generalize (basic_blocks proc). intros l.
  generalize (([], 0) : list N * N).
  induction l as [|bb l IH]; intros st; simpl; [reflexivity|].
  rewrite foldl_app, <- count_block_occ. apply IH.
Qed.

Lemma use_counts_counted (proc : mprocedure) :
  ids_fit (occurrences proc) → counted (occurrences proc) (use_counts proc).
Proof.
  intros Hfit. rewrite use_counts_occ.
  apply (counted_fold (occurrences proc) [] ([], 0)).
  - intros o Ho. split; [apply (occurrences_nonnull proc o Ho) | apply Hfit, Ho].
  - split; [intros o Ho; inversion Ho|]. split; [reflexivity|].
    intros r. reflexivity.
Qed.

(** The priorities the nodes are seeded with stay as they are while the
    edges and hints are added. *)
Lemma priority_kept (cnt : list N) (mx : N) (bbs : list basic_block) (u : nat)
    (n : graph_node) :
  foldl (edges_block mx) (nodes_at cnt mx) bbs !! u = Some n →
  priority n = priority (node_at cnt u).
Proof.
  revert u n.
  apply (foldl_preserves
           (λ g : graph, ∀ u n, g !! u = Some n → priority n = priority (node_at cnt u))).
  - intros u n. unfold nodes_at. rewrite list_lookup_fmap.
    destruct (seq 0 (N.to_nat mx) !! u) as [k|] eqn:Hk; simpl; [|discriminate].
    apply lookup_seq in Hk as [-> _]. intros [= <-]. reflexivity.
  - intros g b Hg. unfold edges_block.
    apply (foldl_preserves
             (λ st : graph * Bitset.t,
                ∀ u n, st.1 !! u = Some n → priority n = priority (node_at cnt u)));
      [assumption|].
    intros [y live] i Hy. simpl in Hy. unfold edges_insn.
    assert (Halter : ∀ (f : graph_node → graph_node) (j : nat) (z : graph),
              (∀ x, priority (f x) = priority x) →
              (∀ u n, z !! u = Some n → priority n = priority (node_at cnt u)) →
              ∀ u n, alter f j z !! u = Some n → priority n = priority (node_at cnt u)).
    { intros f j z Hf Hz u n. rewrite list_lookup_alter.
      destruct (decide (j = u)) as [->|]; [|apply Hz].
      destruct (z !! u) as [x|] eqn:Hx; simpl; [|discriminate].
      intros [= <-]. rewrite Hf. apply Hz. assumption. }
    assert (Hset : ∀ l d (z : graph),
              (∀ u n, z !! u = Some n → priority n = priority (node_at cnt u)) →
              ∀ u n, add_set mx l d z !! u = Some n →
                     priority n = priority (node_at cnt u)).
    { intros l d z Hz. unfold add_set.
      apply (foldl_preserves
               (λ g0 : graph, ∀ u n, g0 !! u = Some n →
                                     priority n = priority (node_at cnt u)));
        [assumption|].
      intros g0 k Hg0. destruct (Bitset.get l k); [|assumption].
      unfold add_vertex. destruct (negb _); [assumption|].
      apply Halter; [reflexivity|]. apply Halter; [reflexivity | assumption]. }
    set (g1 := if is_op i movi || is_op i movf then _ else y).
    assert (H1 : ∀ u n, g1 !! u = Some n → priority n = priority (node_at cnt u)).
    { unfold g1. destruct (is_op i movi || is_op i movf); [|assumption].
      destruct (default op_none (arg i !! 0%nat)); try assumption.
      apply Halter; [reflexivity|]. apply Halter; [reflexivity | assumption]. }
    clearbody g1.
    destruct (negb (is_null (out i))); simpl;
      apply (foldl_preserves
               (λ g0 : graph, ∀ u n, g0 !! u = Some n →
                                     priority n = priority (node_at cnt u)));
      try (apply Hset; assumption); try assumption;
      intros z [r is_read] Hz; simpl; destruct is_read; try apply Hset; assumption.
Qed.

End WithBands.

End CountFacts.
Module CountClaims.
Import Mir Ralloc BuildSpec CountSpec BuildFacts CountFacts.

Lemma ids_fitb_sound (l : list occurrence) : ids_fitb l = true → ids_fit l.
Proof.
  unfold ids_fitb, ids_fit. rewrite forallb_forall. intros H o Ho.
  apply N.ltb_lt. apply H. apply list_elem_of_In. assumption.
Qed.

Section WithBands.
Context {RB : reg_bands}.

(** C6, as the code has it.  The use count of a register is 1 for each read
    of it plus 100 for each occurrence of it, read or written, as an operand of
    a load or store (in 64-bit arithmetic), and the node of a register id is
    seeded with the priority (use count + 1) × 12.0 in binary32. *)
Theorem use_counts_seed_priorities (proc proc' : mprocedure) (g : graph) :
  ids_fit (occurrences proc) → build_graph proc = Some (proc', g) →
  (∀ r, default 0 ((use_counts proc).1 !! uid r)
        = wrap64 (use_count r (occurrences proc)))
  ∧ ∀ u n, g !! u = Some n →
           priority n
           = seeded_priority (wrap64 (use_count (from_uid u) (occurrences proc))).
Proof.
  intros Hfit Hbg.
  destruct (use_counts_counted proc Hfit) as (_ & _ & Hcnt).
  split; [exact Hcnt|].
  intros u n Hu. unfold build_graph in Hbg.
  destruct (use_counts proc) as [cnt mx]. simpl in Hcnt.
  destruct (liveness _ _) as [bbs|]; simpl in Hbg; [|discriminate].
  destruct (init_graph _ _) as [g0|] eqn:Hg0; simpl in Hbg; [|discriminate].
  apply init_graph_nodes in Hg0 as ->.
  injection Hbg as _ <-.
  rewrite (priority_kept cnt _ bbs u n Hu). unfold node_at, seeded_priority. simpl.
  rewrite <- Hcnt, uid_from_uid. reflexivity.
Qed.

End WithBands.

End CountClaims.

Module CountWitnesses.
Import Mir Ralloc CountSpec Sample CountClaims.

Lemma use_counts_seed_priorities_witness :
  ids_fit (occurrences load_only)
  ∧ ∃ p g n,
      build_graph (RB := bands) load_only = Some (p, g)
      ∧ default 0 ((use_counts load_only).1 !! 12%nat) = 101
      ∧ g !! 72%nat = Some n
      ∧ priority n = seeded_priority 100.
Proof.
  assert (Hfit : ids_fit (occurrences load_only)).
  { apply ids_fitb_sound. vm_compute. reflexivity. }
  split; [exact Hfit|]. eexists _, _, _.
  split; [vm_compute; reflexivity|].
  assert (Hbg : build_graph (RB := bands) load_only = Some _) by (vm_compute; reflexivity).
  destruct (use_counts_seed_priorities (RB := bands) load_only _ _ Hfit Hbg) as [Hc Hp].
  split; [exact (Hc 12)|].
  split; [vm_compute; reflexivity|].
  apply (Hp 72%nat). vm_compute; reflexivity.
Defined.

(** C6 as stated fails on a register that a load writes and nothing reads:
    the claim counts 0 for it and seeds the priority 1 × 12.0, the code counts
    100 and seeds 101 × 12.0. *)
Lemma use_count_not_as_claimed :
  reads_of 72 (occurrences load_only) = 0
  ∧ claimed_use_count 72 (occurrences load_only) = 0
  ∧ default 0 ((use_counts load_only).1 !! 72%nat) = 100
  ∧ ∃ p g n,
      build_graph (RB := bands) load_only = Some (p, g)
      ∧ g !! 72%nat = Some n
      ∧ priority n = seeded_priority 100
      ∧ priority n ≠ seeded_priority (claimed_use_count 72 (occurrences load_only)).
Proof.
  split; [vm_compute; reflexivity|].
  split; [vm_compute; reflexivity|].
  split; [vm_compute; reflexivity|].
  eexists _, _, _.
  split; [vm_compute; reflexivity|].
  split; [vm_compute; reflexivity|].
  split; [vm_compute; reflexivity|].
  vm_compute. discriminate.
Qed.

End CountWitnesses.
Module FloatFacts.

Lemma SFltb_irrefl (a : spec_float) : SFltb a a = false.
Proof.
  unfold SFltb, SFcompare. destruct a as [s|s| |s m e]; try destruct s; try reflexivity.
  - rewrite Z.compare_refl. change (Pos.compare_cont Eq m m) with (Pos.compare m m).
    rewrite Pos.compare_refl. reflexivity.
  - rewrite Z.compare_refl. change (Pos.compare_cont Eq m m) with (Pos.compare m m).
    rewrite Pos.compare_refl. reflexivity.
Qed.

Lemma SFltb_trans (a b c : spec_float) :
  SFltb a b = true → SFltb b c = true → SFltb a c = true.
Proof.
  unfold SFltb, SFcompare.
  destruct a as [sa|sa| |sa ma ea], b as [sb|sb| |sb mb eb], c as [sc|sc| |sc mc ec];
    try destruct sa; try destruct sb; try destruct sc;
    try discriminate; try reflexivity;
    change (Pos.compare_cont Eq ma mb) with (Pos.compare ma mb);
    change (Pos.compare_cont Eq mb mc) with (Pos.compare mb mc);
    change (Pos.compare_cont Eq ma mc) with (Pos.compare ma mc);
    destruct (Z.compare_spec ea eb), (Z.compare_spec eb ec), (Z.compare_spec ea ec);
    try discriminate; try reflexivity; try lia;
    destruct (Pos.compare_spec ma mb), (Pos.compare_spec mb mc),
             (Pos.compare_spec ma mc);
    simpl; try discriminate; try reflexivity; lia.
Qed.

End FloatFacts.

Module PickClaims.
Import Mir Ralloc ColorAux PickSpec BitsetFacts PickFacts FloatFacts.

Lemma off_budgetb_sound (K M : N) (gr : graph) :
  off_budgetb K M gr = true → off_budget K M gr.
Proof.
  unfold off_budgetb, off_budget. rewrite forallb_forall. intros H j n Hj [Hc Hv] Hd.
  assert (Hin : In n gr) by (apply list_elem_of_In, list_elem_of_lookup; eauto).
  specialize (H n Hin). rewrite Hc, Hd, !N.eqb_refl in H. simpl in H.
  destruct (N.eqb_spec (vtx n) 0); [contradiction | simpl in H; discriminate].
Qed.

Lemma scanned_nil (K M : N) : scanned K M [] None.
Proof. split; intros j m Hj; rewrite lookup_nil in Hj; discriminate. Qed.

Lemma lookup_snoc_inv (pre : graph) (x m : graph_node) (j : nat) :
  (pre ++ [x]) !! j = Some m → pre !! j = Some m ∨ (j = length pre ∧ m = x).
Proof.
  intros H. apply lookup_app_Some in H as [H|[Hge H]]; [left; exact H|].
  right. apply list_lookup_singleton_Some in H as [E <-]. split; [lia | reflexivity].
Qed.

Lemma scanned_skip (K M : N) (pre : graph) (x : graph_node)
    (ov : option (nat * graph_node)) :
  ¬ candidate x → scanned K M pre ov → scanned K M (pre ++ [x]) ov.
Proof.
  intros Hx [Hover Hov]. split.
  - intros j m Hj Hm. apply lookup_snoc_inv in Hj as [Hj|[_ ->]]; [eauto | contradiction].
  - destruct ov as [[o no]|].
    + destruct Hov as (Ho & Hc & Hmin). split; [|split; [exact Hc|]].
      * apply lookup_app_l_Some. exact Ho.
      * intros j m Hj Hm. apply lookup_snoc_inv in Hj as [Hj|[_ ->]]; [eauto | contradiction].
    + intros j m Hj. apply lookup_snoc_inv in Hj as [Hj|[_ ->]]; [eauto | exact Hx].
Qed.

Lemma scanned_over (K M : N) (pre : graph) (x : graph_node)
    (ov : option (nat * graph_node)) :
  candidate x → budget K M x < degree x → scanned K M pre ov →
  scanned K M (pre ++ [x])
    match ov with
    | None => Some (length pre, x)
    | Some (_, o) =>
        if SFltb (priority x) (priority o) then Some (length pre, x) else ov
    end.
Proof.
  intros Hx Hd [Hover Hov]. split.
  - intros j m Hj Hm. apply lookup_snoc_inv in Hj as [Hj|[_ ->]]; eauto.
  - assert (Hlast : (pre ++ [x]) !! length pre = Some x).
    { rewrite lookup_app_r by lia. rewrite Nat.sub_diag. reflexivity. }
    destruct ov as [[o no]|].
    + destruct Hov as (Ho & Hc & Hmin).
      destruct (SFltb (priority x) (priority no)) eqn:Hlt.
      * split; [exact Hlast|]. split; [exact Hx|].
        intros j m Hj Hm. apply lookup_snoc_inv in Hj as [Hj|[_ ->]].
        -- destruct (SFltb (priority m) (priority x)) eqn:Hmx; [|reflexivity].
           rewrite <- (Hmin j m Hj Hm). symmetry. eapply SFltb_trans; eassumption.
        -- apply SFltb_irrefl.
      * split; [apply lookup_app_l_Some; exact Ho|]. split; [exact Hc|].
        intros j m Hj Hm. apply lookup_snoc_inv in Hj as [Hj|[_ ->]]; eauto.
    + split; [exact Hlast|]. split; [exact Hx|].
      intros j m Hj Hm. apply lookup_snoc_inv in Hj as [Hj|[_ ->]].
      * exfalso. exact (Hov j m Hj Hm).
      * apply SFltb_irrefl.
Qed.

Lemma pick_scan_spec (K M : N) (rest pre : graph) (ov : option (nat * graph_node)) :
  scanned K M pre ov →
  match pick_scan K M rest (length pre) ov with
  | (Some (it, n), _) =>
      (pre ++ rest) !! it = Some n ∧ candidate n ∧ degree n ≤ budget K M n
      ∧ ∀ j m, (j < it)%nat → (pre ++ rest) !! j = Some m → candidate m →
               budget K M m < degree m
  | (None, ov') => scanned K M (pre ++ rest) ov'
  end.
Proof.
  revert pre ov. induction rest as [|x rest IH]; intros pre ov Hsc; simpl.
  - rewrite app_nil_r. exact Hsc.
  - assert (Hstep : ∀ ov', scanned K M (pre ++ [x]) ov' →
      match pick_scan K M rest (S (length pre)) ov' with
      | (Some (it, n), _) =>
          (pre ++ x :: rest) !! it = Some n ∧ candidate n ∧ degree n ≤ budget K M n
          ∧ ∀ j m, (j < it)%nat → (pre ++ x :: rest) !! j = Some m → candidate m →
                   budget K M m < degree m
      | (None, ov'') => scanned K M (pre ++ x :: rest) ov''
      end).
    { intros ov' H. specialize (IH (pre ++ [x]) ov' H).
      rewrite length_app in IH. simpl in IH. rewrite Nat.add_1_r in IH.
      rewrite <- app_assoc in IH. exact IH. }
    destruct (N.eqb_spec (color x) 0) as [Hc|Hc]; simpl.
    + destruct (Nat.eqb_spec (Bitset.popcount (vtx x)) 0) as [Hp|Hp].
      * apply Hstep, scanned_skip; [|exact Hsc].
        intros [_ Hv]. apply Hv, popcount_zero, Hp.
      * assert (Hx : candidate x).
        { split; [exact Hc|]. intros Hz. apply Hp, popcount_zero, Hz. }
        fold (degree x). destruct (N.ltb_spec (budget K M x) (degree x)) as [Hd|Hd].
        -- apply Hstep, scanned_over; assumption.
        -- split; [|split; [exact Hx|split; [exact Hd|]]].
           ++ rewrite lookup_app_r by lia. rewrite Nat.sub_diag. reflexivity.
           ++ intros j m Hj Hm. rewrite lookup_app_l in Hm by exact Hj.
              destruct Hsc as [Hover _]. eauto.
    + apply Hstep, scanned_skip; [|exact Hsc]. intros [Hc' _]. contradiction.
Qed.

(** C3, as the code has it and away from the boundary.  On a graph where no
    uncolored node with a non-empty row has exactly as many neighbours as its
    class has colors, the scan of [try_color] finds nothing exactly when no
    node is uncolored with a non-empty row; otherwise it takes the first such
    node, in the order of the graph, whose degree is below the budget of its
    class, and when there is none, a node over the budget that no other such
    node undercuts in priority. *)
Theorem pick_prefers_simplifiable (gr : graph) (K M : N) :
  off_budget K M gr →
  match pick gr K M with
  | None => ∀ j n, gr !! j = Some n → ¬ candidate n
  | Some (it, n) =>
      gr !! it = Some n
      ∧ ((simplifiable K M n
          ∧ ∀ j m, (j < it)%nat → gr !! j = Some m → ¬ simplifiable K M m)
         ∨ (over_degree K M n
            ∧ (∀ j m, gr !! j = Some m → ¬ simplifiable K M m)
            ∧ ∀ j m, gr !! j = Some m → over_degree K M m →
                     SFltb (priority m) (priority n) = false))
  end.
Proof.
  intros Hoff. unfold pick.
  pose proof (pick_scan_spec K M gr [] None (scanned_nil K M)) as H.
  simpl in H. destruct (pick_scan K M gr 0 None) as [[[it n]|] ov].
  - destruct H as (Hit & Hc & Hd & Hbefore). split; [exact Hit|]. left. split.
    + split; [exact Hc|]. specialize (Hoff it n Hit Hc). lia.
    + intros j m Hj Hm [Hcm Hlt]. specialize (Hbefore j m Hj Hm Hcm). lia.
  - destruct H as [Hover Hov]. destruct ov as [[o no]|].
    + destruct Hov as (Ho & Hc & Hmin). split; [exact Ho|]. right. split; [|split].
      * split; [exact Hc | eauto].
      * intros j m Hj [Hcm Hlt]. specialize (Hover j m Hj Hcm). lia.
      * intros j m Hj [Hcm _]. eauto.
    + exact Hov.
Qed.

End PickClaims.

Module PickWitnesses.
Import Mir Ralloc ColorAux PickSpec PickClaims Sample.

Lemma pick_prefers_simplifiable_witness :
  off_budget 1 1 triangle
  ∧ ∃ n, pick triangle 1 1 = Some (2%nat, n)
         ∧ over_degree 1 1 n
         ∧ ∀ j m, triangle !! j = Some m → over_degree 1 1 m →
                  SFltb (priority m) (priority n) = false.
Proof.
  assert (Hoff : off_budget 1 1 triangle).
  { apply off_budgetb_sound. vm_compute. reflexivity. }
  split; [exact Hoff|].
  pose proof (pick_prefers_simplifiable triangle 1 1 Hoff) as H.
  destruct (pick triangle 1 1) as [[it n]|] eqn:E; [|vm_compute in E; discriminate].
  assert (Hit : it = 2%nat) by (vm_compute in E; injection E as <- _; reflexivity).
  subst it. exists n. split; [reflexivity|].
  destruct H as [Hn [[[_ Hs] _]|(Ho & _ & Hmin)]].
  - exfalso. vm_compute in E. injection E as <-. vm_compute in Hs. discriminate.
  - split; assumption.
Defined.

(** C3 as stated fails on a node of degree 0: an uncolored node whose row
    holds nothing but its own bit is not skipped; the scan takes it and
    [try_color] gives it color 1. *)
Lemma pick_takes_isolated_node :
  degree isolated = 0
  ∧ pick [isolated] 2 2 = Some (0%nat, isolated)
  ∧ try_color [isolated] 2 2 = Some ([with_color 1 isolated], (0, 0))
  ∧ ∃ p g n, build_graph (RB := bands) load_only = Some (p, g)
             ∧ g !! 72%nat = Some n ∧ color n = 0 ∧ degree n = 0
             ∧ ∃ g', try_color g 7 6 = Some (g', (0, 0))
                     ∧ color <$> g' !! 72%nat = Some 1.
Proof.
  split; [vm_compute; reflexivity|].
  split; [vm_compute; reflexivity|].
  split; [vm_compute; reflexivity|].
  eexists _, _, _.
  split; [vm_compute; reflexivity|].
  split; [vm_compute; reflexivity|].
  split; [vm_compute; reflexivity|].
  split; [vm_compute; reflexivity|].
  eexists. split; vm_compute; reflexivity.
Qed.

End PickWitnesses.
Module SelectClaims.
Import Mir Ralloc ColorAux Sample TotalFacts.

(** C2 (the code at the boundary).  With K = 2 and three general-purpose
    nodes that are neighbours of one another, [try_color] reports no spill and
    colors the nodes 3, 2 and 1: the test before the spill is [n > K], so the
    node that finds colors 1 to K taken gets color K + 1.  Through the whole
    allocator: sixteen general-purpose values live at once are allocated on
    the MS64 ABI, which has fifteen general-purpose registers, without a
    spill, and bit 15 of [used_gp_mask] (color 16) is set, an index that
    [to_native] answers with the invalid register. *)
Theorem try_color_gives_color_past_budget :
  (∃ gr', try_color triangle 2 2 = Some (gr', (0, 0)) ∧ color <$> gr' = [3; 2; 1])
  ∧ ∃ r, allocate_registers (RB := bands) Arch.MS64 native_code 100 sixteen_live = Ok r
         ∧ ar_slots_used r = []
         ∧ Arch.num_gp_reg Arch.MS64 = 15
         ∧ N.testbit (used_gp_mask (ar_proc r)) 15 = true
         ∧ Arch.to_native Arch.MS64 16%Z = Arch.NO_REG.
Proof.
  split.
  - eexists. split; vm_compute; reflexivity.
  - eexists.
    split; [vm_compute; reflexivity|].
    split; [vm_compute; reflexivity|].
    split; [vm_compute; reflexivity|].
    split; vm_compute; reflexivity.
Qed.


(** X2.  The slot search of [try_color], started at slot 1, ends on the smallest
    positive slot that no other node with the bit of [it] in its row has. *)
Theorem spill_slot_is_first_free (fuel : nat) (gr : graph) (it : nat) (v : Z) :
  find_spill_slot fuel gr it 1 = Some v →
  (1 ≤ v)%Z ∧ slot_clash gr it v = false
  ∧ ∀ x, (1 ≤ x < v)%Z → slot_clash gr it x = true.
Proof. apply find_spill_slot_first. Qed.

Lemma spill_slot_is_first_free_witness :
  find_spill_slot 4 (alter (with_spill_slot 1) 0%nat triangle) 1 1 = Some 2%Z
  ∧ slot_clash (alter (with_spill_slot 1) 0%nat triangle) 1 2 = false.
Proof.
  assert (H : find_spill_slot 4 (alter (with_spill_slot 1) 0%nat triangle) 1 1 = Some 2%Z)
    by (vm_compute; reflexivity).
  split; [exact H|].
  exact (proj1 (proj2 (spill_slot_is_first_free 4 _ 1 2%Z H))).
Defined.

End SelectClaims.

Module SpillClaims.
Import Mir Ralloc Sample.

(** C9 (the code on every path).  [spill_and_swap] comes to
    [assume_unreachable()] on every call: the two [break]s leave the loop, and
    the statement after the loop is the assertion.  So it is reached also
    when the list has a free entry and the operand is substituted, as with
    register 72 and a reload list of four free entries: the loop is left by a
    [break] with the operand set to the fresh register 104, and the call
    still stops at the assertion. *)
Theorem spill_and_swap_reaches_assertion :
  (∀ {RB : reg_bands} (m : mreg) (entries : list spill_entry) (slot slot_offset : Z)
     (st : rw_state),
     spill_and_swap m entries slot slot_offset st = Fail unreachable_reached)
  ∧ (place (RB := bands) 72 (replicate 4 no_entry) 1 0
       (set_need_cg true (initial_state load_only))).1.1.1 = true
  ∧ (place (RB := bands) 72 (replicate 4 no_entry) 1 0
       (set_need_cg true (initial_state load_only))).1.1.2 = 104
  ∧ spill_and_swap (RB := bands) 72 (replicate 4 no_entry) 1 0
      (initial_state load_only) = Fail unreachable_reached.
Proof.
  split; [|split; [|split]; vm_compute; reflexivity].
  intros RB m entries slot slot_offset st. unfold spill_and_swap.
  destruct (place m entries slot slot_offset (set_need_cg true st)) as [[[p m'] l] st'].
  reflexivity.
Qed.

End SpillClaims.

(** * Further properties *)

(** ** The register tables *)

Module ArchTables.
Import Arch.

Section WithAbi.
Variable a : abi.

Lemma table_length :
  length (virtual_to_native_map a)
  = (N.to_nat (num_fp_reg a) + 1 + N.to_nat (num_gp_reg a))%nat.
Proof.
  unfold virtual_to_native_map, num_fp_reg, num_gp_reg.
  rewrite !length_app, !Nat2N.id. simpl. lia.
Qed.

(** [to_native] inside the table: the entry at [i + num_fp_reg]. *)
Lemma to_native_lookup (i : reg) :
  (Z.of_nat (length (virtual_to_native_map a)) < 2 ^ 31)%Z →
  (- Z.of_N (num_fp_reg a) ≤ i ≤ Z.of_N (num_gp_reg a))%Z →
  virtual_to_native_map a !! Z.to_nat (i + Z.of_N (num_fp_reg a))
  = Some (to_native a i).
Proof.
  intros Hlen Hi. pose proof table_length as Hl. unfold to_native.
  assert (Hw : wrap_i32 (i + Z.of_N (num_fp_reg a)) = (i + Z.of_N (num_fp_reg a))%Z).
  { unfold wrap_i32. rewrite Z.mod_small; lia. }
  rewrite Hw.
  destruct (Z.leb_spec 0 (i + Z.of_N (num_fp_reg a))); [|lia].
  destruct (Z.ltb_spec (i + Z.of_N (num_fp_reg a))
              (Z.of_nat (length (virtual_to_native_map a)))); [|lia].
  simpl.
  destruct (virtual_to_native_map a !! Z.to_nat (i + Z.of_N (num_fp_reg a))) eqn:E;
    [reflexivity|].
  apply lookup_ge_None_1 in E. lia.
Qed.

(** The scan of [from_native] stops at the first place that holds [n]. *)
Lemma from_native_scan_first (n : native_reg) (m : list native_reg) (r : Z) (k : nat) :
  m !! k = Some n → (∀ j, (j < k)%nat → m !! j ≠ Some n) →
  from_native_scan a n m r = (r + Z.of_nat k - Z.of_N (num_fp_reg a))%Z.
Proof.
  revert r k. induction m as [|x m IH]; intros r k Hk Hfirst; [discriminate|].
  simpl. destruct k as [|k].
  - injection Hk as ->. rewrite decide_True by reflexivity. lia.
  - rewrite decide_False.
    + rewrite (IH (r + 1)%Z k Hk); [lia|].
      intros j Hj. apply (Hfirst (S j)). lia.
    + intros ->. apply (Hfirst 0%nat); [lia | reflexivity].
Qed.

Lemma from_native_scan_none (n : native_reg) (m : list native_reg) (r : Z) :
  n ∉ m → from_native_scan a n m r = 0%Z.
Proof.
  revert r. induction m as [|x m IH]; intros r Hn; [reflexivity|].
  simpl. apply not_elem_of_cons in Hn as [Hx Hm].
  rewrite decide_False by congruence. apply IH. assumption.
Qed.

Lemma first_index (n : native_reg) (m : list native_reg) :
  n ∈ m → ∃ k, m !! k = Some n ∧ ∀ j, (j < k)%nat → m !! j ≠ Some n.
Proof.
  induction m as [|x m IH]; intros Hn; [inversion Hn|].
  destruct (decide (x = n)) as [->|Hx].
  - exists 0%nat. split; [reflexivity|]. intros j Hj. lia.
  - apply elem_of_cons in Hn as [->|Hn]; [contradiction|].
    destruct (IH Hn) as (k & Hk & Hfirst). exists (S k). split; [exact Hk|].
    intros [|j] Hj; simpl; [congruence|]. apply Hfirst. lia.
Qed.

(** X3.  [to_native] undoes [from_native] on every native register of the
    table: the index [from_native] finds for it is answered with the register
    itself. *)
Theorem to_native_from_native (n : native_reg) :
  (Z.of_nat (length (virtual_to_native_map a)) < 2 ^ 31)%Z →
  n ∈ virtual_to_native_map a →
  to_native a (from_native a n) = n.
Proof.
  intros Hlen Hn. destruct (first_index n _ Hn) as (k & Hk & Hfirst).
  unfold from_native. rewrite (from_native_scan_first n _ 0 k Hk Hfirst).
  pose proof (lookup_lt_Some _ _ _ Hk) as Hlt. pose proof table_length as Hl.
  assert (Hin : (- Z.of_N (num_fp_reg a) ≤ 0 + Z.of_nat k - Z.of_N (num_fp_reg a)
                 ≤ Z.of_N (num_gp_reg a))%Z) by lia.
  pose proof (to_native_lookup _ Hlen Hin) as H.
  replace (Z.to_nat (0 + Z.of_nat k - Z.of_N (num_fp_reg a) + Z.of_N (num_fp_reg a)))
    with k in H by lia.
  congruence.
Qed.

(** X4.  [from_native] undoes [to_native] on every index of the table, from
    [-num_fp_reg] to [num_gp_reg], when no native register is listed twice. *)
Theorem from_native_to_native (i : reg) :
  (Z.of_nat (length (virtual_to_native_map a)) < 2 ^ 31)%Z →
  NoDup (virtual_to_native_map a) →
  (- Z.of_N (num_fp_reg a) ≤ i ≤ Z.of_N (num_gp_reg a))%Z →
  from_native a (to_native a i) = i.
Proof.
  intros Hlen Hnd Hi. pose proof (to_native_lookup i Hlen Hi) as Hk.
  unfold from_native.
  rewrite (from_native_scan_first _ _ 0 _ Hk); [lia|].
  intros j Hj Hj'.
  pose proof (NoDup_lookup _ _ _ _ Hnd Hj' Hk). lia.
Qed.

(** X5.  A native register that is in none of the four register tables (and
    is not the invalid register) has index 0, the index of no register. *)
Theorem from_native_unlisted (n : native_reg) :
  n ∉ virtual_to_native_map a → from_native a n = 0%Z.
Proof. intros Hn. unfold from_native. apply from_native_scan_none. assumption. Qed.

(** X6.  [to_native] answers an index outside [-num_fp_reg .. num_gp_reg], and
    the index 0, with the invalid register. *)
Theorem to_native_outside (i : reg) :
  (- 2 ^ 31 ≤ i + Z.of_N (num_fp_reg a) < 2 ^ 31)%Z →
  (i < - Z.of_N (num_fp_reg a) ∨ Z.of_N (num_gp_reg a) < i ∨ i = 0)%Z →
  to_native a i = invalid a.
Proof.
  intros Hw Hi. pose proof table_length as Hl. unfold to_native.
  assert (Hwrap : wrap_i32 (i + Z.of_N (num_fp_reg a)) = (i + Z.of_N (num_fp_reg a))%Z).
  { unfold wrap_i32. rewrite Z.mod_small; lia. }
  rewrite Hwrap.
  destruct (Z.leb_spec 0 (i + Z.of_N (num_fp_reg a))); simpl; [|reflexivity].
  destruct (Z.ltb_spec (i + Z.of_N (num_fp_reg a))
              (Z.of_nat (length (virtual_to_native_map a)))); [|reflexivity].
  destruct Hi as [Hi | [Hi | Hi] ]; [lia | lia | subst i].
  replace (Z.to_nat (0 + Z.of_N (num_fp_reg a)))
    with (length (fp_nonvolatile a) + (length (fp_volatile a) + 0))%nat
    by (unfold num_fp_reg; lia).
  unfold virtual_to_native_map.
  rewrite lookup_app_r by lia. rewrite lookup_app_r by lia.
  replace (_ - _ - _)%nat with 0%nat by lia. reflexivity.
Qed.

(** X7.  [is_volatile] agrees with the tables: the register of an index it
    calls volatile is in the volatile table of its class, and the register of
    any other index of the table is in the non-volatile one. *)
Theorem is_volatile_tables (r : reg) :
  (Z.of_nat (length (virtual_to_native_map a)) < 2 ^ 31)%Z →
  (- Z.of_N (num_fp_reg a) ≤ r ≤ Z.of_N (num_gp_reg a))%Z → r ≠ 0%Z →
  to_native a r ∈
    (if is_volatile a r
     then (if (r <? 0)%Z then fp_volatile a else gp_volatile a)
     else (if (r <? 0)%Z then fp_nonvolatile a else gp_nonvolatile a)).
Proof.
  intros Hlen Hr Hnz. pose proof (to_native_lookup r Hlen Hr) as Hk.
  revert Hk. generalize (to_native a r). intros x Hk.
  unfold is_volatile, virtual_to_native_map, num_fp_reg, num_gp_reg in *.
  destruct (Z.ltb_spec r 0) as [Hneg|Hpos].
  - destruct (Z.leb_spec (- r) (Z.of_nat (length (fp_volatile a)))) as [Hv|Hv].
    + rewrite lookup_app_r in Hk by lia. rewrite lookup_app_l in Hk by lia.
      apply list_elem_of_lookup. eauto.
    + rewrite lookup_app_l in Hk by lia. apply list_elem_of_lookup. eauto.
  - rewrite lookup_app_r in Hk by lia. rewrite lookup_app_r in Hk by lia.
    rewrite lookup_app_r in Hk by (simpl; lia). simpl in Hk.
    destruct (Z.leb_spec r (Z.of_nat (length (gp_volatile a)))) as [Hv|Hv].
    + rewrite lookup_app_l in Hk by lia. apply list_elem_of_lookup. eauto.
    + rewrite lookup_app_r in Hk by lia. apply list_elem_of_lookup. eauto.
Qed.

End WithAbi.

End ArchTables.

Module ArchTablesWitnesses.
Import Arch ArchTables.

Lemma to_native_from_native_witness : to_native MS64 (from_native MS64 R12) = R12.
Proof.
  apply (to_native_from_native MS64 R12).
  - vm_compute. reflexivity.
  - vm_compute. apply list_elem_of_In. simpl. tauto.
Defined.

Lemma from_native_to_native_witness :
  from_native SYSV64 (to_native SYSV64 (-3)%Z) = (-3)%Z.
Proof.
  apply (from_native_to_native SYSV64 (-3)%Z).
  - vm_compute. reflexivity.
  - apply (bool_decide_unpack (NoDup (virtual_to_native_map SYSV64))).
    vm_compute. exact I.
  - vm_compute. split; discriminate.
Defined.

Lemma from_native_unlisted_witness : from_native MS64 (sp MS64) = 0%Z.
Proof.
  apply (from_native_unlisted MS64 RSP).
  apply (bool_decide_unpack (RSP ∉ virtual_to_native_map MS64)).
  vm_compute. exact I.
Defined.

Lemma to_native_outside_witness : to_native MS64 16%Z = NO_REG.
Proof.
  apply (to_native_outside MS64 16%Z).
  - vm_compute. split; [discriminate | reflexivity].
  - right. left. vm_compute. reflexivity.
Defined.

Lemma is_volatile_tables_witness :
  is_volatile MS64 (-7)%Z = false ∧ to_native MS64 (-7)%Z ∈ fp_nonvolatile MS64.
Proof.
  split; [reflexivity|].
  apply (is_volatile_tables MS64 (-7)%Z).
  - vm_compute. reflexivity.
  - vm_compute. split; discriminate.
  - discriminate.
Defined.

End ArchTablesWitnesses.

Module ArchNameFacts.
Import Arch ArchNames.

(** X25.  [name_native] gives two registers the same name exactly when
    neither has a [case] in the switch (both are then named "?"), or they
    are the same register, or they differ as XMM(10+k) and XMM(k) do, for k
    from 0 to 5: the names of XMM10 to XMM15 are those of XMM0 to XMM5, and
    the names of the other registers with a [case] are different. *)
Theorem name_native_same_name (r r' : native_reg) :
  name_native r = name_native r'
  ↔ low_xmm r = low_xmm r' ∨ (has_case r = false ∧ has_case r' = false).
Proof.
  split.
  - destruct r, r'; intros H;
      first [left; reflexivity | right; split; reflexivity | discriminate H].
  - intros [H|[H1 H2]].
    + destruct r, r'; first [reflexivity | discriminate H].
    + destruct r, r'; first [reflexivity | discriminate H1 | discriminate H2].
Qed.

End ArchNameFacts.

(** ** The graph that is built *)

Module InterfereFacts.
Import Mir Ralloc BuildFacts.

Section WithBands.
Context {RB : reg_bands}.

(** X8.  [interferes_with] is symmetric and transitive, and a register
    interferes with itself exactly when it is not a pseudo register: it
    is the relation "same class" on the registers that need allocation. *)
Theorem interferes_with_partial_equivalence :
  (∀ a b, interferes_with a b = interferes_with b a)
  ∧ (∀ a b c, interferes_with a b = true → interferes_with b c = true →
              interferes_with a c = true)
  ∧ (∀ a, interferes_with a a = negb (is_pseudo a))
  ∧ (∀ a b, is_pseudo a = true → interferes_with a b = false).
Proof.
  split; [exact interferes_with_comm|]. split; [|split].
  - intros a b c. unfold interferes_with.
    destruct (is_pseudo a), (is_pseudo b), (is_pseudo c); simpl; try discriminate.
    destruct (is_fp a), (is_fp b), (is_fp c); simpl; auto.
  - intros a. unfold interferes_with. rewrite orb_diag.
    destruct (is_pseudo a); simpl; [reflexivity|]. rewrite eqb_reflx. reflexivity.
  - intros a b Ha. unfold interferes_with. rewrite Ha. reflexivity.
Qed.

End WithBands.

End InterfereFacts.

Module GraphShape.
Import Mir Ralloc GraphSpec BuildSpec EdgeSpec CountSpec LiveSpec BitsetFacts BuildFacts
  CountFacts LiveFacts LivenessFacts LivenessClaims.

Section WithBands.
Context {RB : reg_bands}.

(** The largest id the counting loop has seen is the id of some register. *)
Lemma max_reg_attained (l : list occurrence) :
  ∀ st, (st.2 = 0 ∨ st.2 + 1 < 2 ^ 32) → (∀ o, o ∈ l → occ_reg o + 1 < 2 ^ 32) →
        (foldl count_occ st l).2 = 0 ∨ (foldl count_occ st l).2 + 1 < 2 ^ 32.
Proof.
  induction l as [|o l IH]; intros st Hst Hl; simpl; [assumption|].
  apply IH.
  - destruct st as [cnt mx]. unfold count_occ. simpl in *.
    destruct (N.ltb_spec mx (occ_reg o)); simpl.
    + destruct (occ_read o), (occ_mem o); simpl; right; apply Hl; left.
    + destruct (occ_read o), (occ_mem o); simpl; assumption.
  - intros o' Ho'. apply Hl. right. assumption.
Qed.

Lemma max_reg_fits (proc : mprocedure) :
  ids_fit (occurrences proc) → (use_counts proc).2 + 1 < 2 ^ 32.
Proof.
  intros Hfit. rewrite use_counts_occ.
  destruct (max_reg_attained (occurrences proc) ([], 0)) as [H|H];
    [left; reflexivity | exact Hfit | rewrite H; reflexivity | exact H].
Qed.

Lemma occurrence_of_reg (proc : mprocedure) (bb : basic_block) (i : minsn)
    (r : mreg) (is_read : bool) :
  bb ∈ basic_blocks proc → i ∈ instructions bb → (r, is_read) ∈ regs_of i →
  {| occ_reg := r; occ_read := is_read; occ_mem := is_mem_access i |} ∈ occurrences proc.
Proof.
  intros Hbb Hi Hr. unfold occurrences. apply elem_of_concat.
  exists (concat (occurrences_of <$> instructions bb)). split.
  - apply elem_of_concat. exists (occurrences_of i). split.
    + unfold occurrences_of. apply list_elem_of_fmap. exists (r, is_read). auto.
    + apply list_elem_of_fmap. eauto.
  - apply list_elem_of_fmap. eauto.
Qed.

(** Every register of the procedure is below [max_reg_id]. *)
Lemma regs_below_max (proc : mprocedure) :
  ids_fit (occurrences proc) →
  regs_below (N.to_nat (wrap32 ((use_counts proc).2 + 1))) (basic_blocks proc).
Proof.
  intros Hfit bb i r is_read Hbb Hi Hr.
  destruct (use_counts_counted proc Hfit) as (Hmax & _ & _).
  pose proof (max_reg_fits proc Hfit) as Hmx.
  specialize (Hmax _ (occurrence_of_reg proc bb i r is_read Hbb Hi Hr)). simpl in Hmax.
  unfold wrap32. rewrite N.mod_small by assumption. unfold uid. lia.
Qed.

Lemma edges_length (mx : N) (bbs : list basic_block) (g0 : graph) :
  length (foldl (edges_block mx) g0 bbs) = length g0.
Proof.
  revert g0. induction bbs as [|b l IH]; intros g0; simpl; [reflexivity|].
  rewrite IH. unfold edges_block.
  apply (foldl_preserves (λ st, length st.1 = length g0)); [reflexivity|].
  intros [y live] i Hy. simpl in Hy. unfold edges_insn.
  assert (Hset : ∀ l d (y0 : graph), length (add_set mx l d y0) = length y0).
  { intros l0 d y0. unfold add_set.
    apply (foldl_preserves (λ z, length z = length y0)); [reflexivity|].
    intros z k Hz. destruct (Bitset.get l0 k); [|assumption].
    unfold add_vertex. destruct (negb _); [assumption|].
    rewrite !length_alter. assumption. }
  set (g1 := if is_op i movi || is_op i movf then _ else y).
  assert (H1 : length g1 = length g0).
  { unfold g1. destruct (is_op i movi || is_op i movf); [|assumption].
    destruct (default op_none (arg i !! 0%nat)); try assumption.
    rewrite !length_alter. assumption. }
  clearbody g1.
  destruct (negb (is_null (out i))); simpl;
    apply (foldl_preserves (λ z, length z = length g0));
    rewrite ?Hset; try assumption;
    intros z [r is_read] Hz; simpl; destruct is_read; rewrite ?Hset; assumption.
Qed.

Lemma build_graph_length (proc proc' : mprocedure) (g : graph) :
  build_graph proc = Some (proc', g) →
  length g = N.to_nat (wrap32 ((use_counts proc).2 + 1)).
Proof.
  unfold build_graph. destruct (use_counts proc) as [cnt mx].
  destruct (liveness _ _) as [bbs|]; simpl; [|discriminate].
  destruct (init_graph _ _) as [g0|] eqn:Hg0; simpl; [|discriminate].
  apply init_graph_nodes in Hg0 as ->.
  intros [= _ <-]. rewrite edges_length. unfold nodes_at.
  rewrite length_fmap, length_seq. reflexivity.
Qed.

(** With an entry for every index the loop of lines 375 to 385 reads inside
    [reg_use_counter]. *)
Lemma init_graph_Some (cnt : list N) (mx : N) :
  length cnt = N.to_nat mx → init_graph cnt mx = Some (nodes_at cnt mx).
Proof.
  intros Hlen. unfold init_graph, nodes_at.
  assert (H : ∀ l : list nat, (∀ i, i ∈ l → (i < length cnt)%nat) →
                mapM (init_node cnt) l = Some (node_at cnt <$> l)).
  { induction l as [|i l IH]; intros Hl; simpl; [reflexivity|].
    rewrite IH by (intros j Hj; apply Hl; right; assumption).
    destruct (lookup_lt_is_Some_2 cnt i (Hl i ltac:(left))) as [c Hc].
    unfold init_node, node_at. rewrite Hc. reflexivity. }
  apply H. intros i Hi%elem_of_seq. lia.
Qed.

(** X9.  For a procedure whose register ids stay below 2^32 - 1,
    [build_graph] returns exactly when some instruction names a register.
    When none does, the read of [reg_use_counter[0]] at line 380 is outside
    the empty vector and no graph is returned.  When one does, the
    data-flow loop ends, every read of the vector is inside it, and the
    graph has a node for every register an instruction names. *)
Theorem build_graph_covers_registers (proc : mprocedure) :
  ids_fit (occurrences proc) →
  (occurrences proc = [] → build_graph proc = None)
  ∧ (occurrences proc ≠ [] →
     ∃ proc' g,
       build_graph proc = Some (proc', g)
       ∧ ∀ bb i r is_read, bb ∈ basic_blocks proc → i ∈ instructions bb →
                           (r, is_read) ∈ regs_of i → (uid r < length g)%nat).
Proof.
  intros Hfit. pose proof (regs_below_max proc Hfit) as Hregs.
  destruct (liveness_total _ _ Hregs) as [bbs Hlive].
  destruct (use_counts_counted proc Hfit) as (Hmax & Hlen & _).
  pose proof (max_reg_fits proc Hfit) as Hmx.
  split.
  - intros Hnil. clear Hlive Hregs Hmax Hlen Hmx.
    unfold build_graph. rewrite use_counts_occ, Hnil. simpl.
    destruct (liveness _ _); reflexivity.
  - intros Hne.
    assert (Hbg : build_graph proc
                  = Some (with_basic_blocks bbs proc,
                          foldl (edges_block (wrap32 ((use_counts proc).2 + 1)))
                            (nodes_at (use_counts proc).1
                               (wrap32 ((use_counts proc).2 + 1)))
                            bbs)).
    { unfold build_graph. destruct (use_counts proc) as [cnt mx]. simpl in *.
      rewrite N2Nat.id in Hlive. rewrite Hlive. simpl.
      rewrite init_graph_Some; [reflexivity|].
      rewrite Hlen. unfold wrap32. rewrite N.mod_small by assumption.
      destruct (occurrences proc) as [|o l] eqn:Ho; [congruence|].
      pose proof (Hmax o ltac:(left)) as Hle.
      assert (Hnz : occ_reg o ≠ 0).
      { apply (occurrences_nonnull proc). rewrite Ho. left. }
      destruct (N.eqb_spec mx 0); lia. }
    eexists _, _. split; [exact Hbg|].
    intros bb i r is_read Hbb Hi Hr.
    rewrite (build_graph_length _ _ _ Hbg). eapply Hregs; eassumption.
Qed.

(** A property of the nodes that adding edges and hints keeps. *)
Lemma graph_fold_nodes (φ : nat → graph_node → Prop) (cnt : list N) (mx : N)
    (bbs : list basic_block) :
  (∀ u, φ u (node_at cnt u)) →
  (∀ u n v, φ u n → φ u (with_vtx v n)) →
  (∀ u n a b, φ u n → φ u (add_hint a b n)) →
  ∀ u n, foldl (edges_block mx) (nodes_at cnt mx) bbs !! u = Some n → φ u n.
Proof.
  intros Hinit Hvtx Hhint.
  apply (foldl_preserves (λ g : graph, ∀ u n, g !! u = Some n → φ u n)).
  - intros u n. unfold nodes_at. rewrite list_lookup_fmap.
    destruct (seq 0 (N.to_nat mx) !! u) as [k|] eqn:Hk; simpl; [|discriminate].
    apply lookup_seq in Hk as [-> _]. intros [= <-]. apply Hinit.
  - intros g b Hg. unfold edges_block.
    apply (foldl_preserves
             (λ st : graph * Bitset.t, ∀ u n, st.1 !! u = Some n → φ u n));
      [assumption|].
    intros [y live] i Hy. simpl in Hy. unfold edges_insn.
    assert (Halter : ∀ (f : graph_node → graph_node) (j : nat) (z : graph),
              (∀ u x, φ u x → φ u (f x)) →
              (∀ u n, z !! u = Some n → φ u n) →
              ∀ u n, alter f j z !! u = Some n → φ u n).
    { intros f j z Hf Hz u n. rewrite list_lookup_alter.
      destruct (decide (j = u)) as [->|]; [|apply Hz].
      destruct (z !! u) as [x|] eqn:Hx; simpl; [|discriminate].
      intros [= <-]. apply Hf, Hz. assumption. }
    assert (Hset : ∀ l d (z : graph),
              (∀ u n, z !! u = Some n → φ u n) →
              ∀ u n, add_set mx l d z !! u = Some n → φ u n).
    { intros l d z Hz. unfold add_set.
      apply (foldl_preserves (λ g0 : graph, ∀ u n, g0 !! u = Some n → φ u n));
        [assumption|].
      intros g0 k Hg0. destruct (Bitset.get l k); [|assumption].
      unfold add_vertex. destruct (negb _); [assumption|].
      apply Halter; [intros; apply Hvtx; assumption|].
      apply Halter; [intros; apply Hvtx; assumption | assumption]. }
    set (g1 := if is_op i movi || is_op i movf then _ else y).
    assert (H1 : ∀ u n, g1 !! u = Some n → φ u n).
    { unfold g1. destruct (is_op i movi || is_op i movf); [|assumption].
      destruct (default op_none (arg i !! 0%nat)); try assumption.
      apply Halter; [intros; apply Hhint; assumption|].
      apply Halter; [intros; apply Hhint; assumption | assumption]. }
    clearbody g1.
    destruct (negb (is_null (out i))); simpl;
      apply (foldl_preserves (λ g0 : graph, ∀ u n, g0 !! u = Some n → φ u n));
      try (apply Hset; assumption); try assumption;
      intros z [r is_read] Hz; simpl; destruct is_read; try apply Hset; assumption.
Qed.

(** X10.  The nodes [build_graph] returns: node [u] has its own bit in its
    row, the class of register [u], no spill slot, and a color exactly when
    register [u] is physical, which is the absolute value of its index (as a
    byte). *)
Theorem build_graph_nodes (proc proc' : mprocedure) (g : graph) (u : nat)
    (n : graph_node) :
  build_graph proc = Some (proc', g) → g !! u = Some n →
  Bitset.get (vtx n) u = true
  ∧ node_is_fp n = is_fp (from_uid u)
  ∧ spill_slot n = 0%Z
  ∧ color n = (if is_phys (from_uid u)
               then wrap_u8 (Z.to_N (Z.abs (phys (from_uid u)))) else 0).
Proof.
  intros Hbg Hu. destruct (build_graph_built _ _ _ Hbg) as [[Hself Hcol _ _] _].
  split; [eauto|].
  unfold build_graph in Hbg. destruct (use_counts proc) as [cnt mx].
  destruct (liveness _ _) as [bbs|]; simpl in Hbg; [|discriminate].
  destruct (init_graph _ _) as [g0|] eqn:Hg0; simpl in Hbg; [|discriminate].
  apply init_graph_nodes in Hg0 as ->.
  injection Hbg as _ <-.
  apply (graph_fold_nodes
           (λ u n, node_is_fp n = is_fp (from_uid u) ∧ spill_slot n = 0%Z
                   ∧ color n = (if is_phys (from_uid u)
                                then wrap_u8 (Z.to_N (Z.abs (phys (from_uid u))))
                                else 0))
           cnt (wrap32 (mx + 1)) bbs); auto.
Qed.

(** X11.  The rows [build_graph] returns are symmetric, and two different
    nodes are joined only when their registers interfere: no row joins a
    general-purpose register with a floating-point one, and the row of a
    pseudo register holds its own bit only. *)
Theorem build_graph_edges_sound (proc proc' : mprocedure) (g : graph) (u v : nat)
    (nu nv : graph_node) :
  build_graph proc = Some (proc', g) → g !! u = Some nu → g !! v = Some nv →
  Bitset.get (vtx nu) v = Bitset.get (vtx nv) u
  ∧ (u ≠ v → Bitset.get (vtx nu) v = true →
     interferes_with (from_uid u) (from_uid v) = true
     ∧ is_pseudo (from_uid u) = false ∧ is_pseudo (from_uid v) = false
     ∧ is_fp (from_uid u) = is_fp (from_uid v)).
Proof.
  intros Hbg Hu Hv. destruct (build_graph_built _ _ _ Hbg) as [[_ _ Hsym Hedge] _].
  split; [eauto|]. intros Huv Hadj.
  pose proof (Hedge u v nu nv Hu Hv Huv Hadj) as Hi. split; [exact Hi|].
  pose proof (interferes_with_class _ _ Hi) as Hc.
  unfold interferes_with in Hi.
  destruct (is_pseudo (from_uid u)), (is_pseudo (from_uid v)); try discriminate.
  auto.
Qed.

End WithBands.

End GraphShape.

Module GraphShapeWitnesses.
Import Mir Ralloc GraphSpec BuildSpec EdgeSpec CountSpec LiveSpec Sample CountClaims GraphShape.

Lemma build_graph_covers_registers_witness :
  build_graph (RB := bands) (procedure [block [] []]) = None
  ∧ ∃ proc' g, build_graph (RB := bands) looping = Some (proc', g) ∧ length g = 75%nat.
Proof.
  split.
  - apply (build_graph_covers_registers (RB := bands) (procedure [block [] []])).
    + apply ids_fitb_sound. vm_compute. reflexivity.
    + vm_compute. reflexivity.
  - assert (Hfit : ids_fit (occurrences looping)).
    { apply ids_fitb_sound. vm_compute. reflexivity. }
    assert (Hne : occurrences looping ≠ []) by (vm_compute; discriminate).
    destruct (proj2 (build_graph_covers_registers (RB := bands) looping Hfit) Hne)
      as (proc' & g & Hbg & _).
    exists proc', g. split; [exact Hbg|].
    rewrite (build_graph_length _ _ _ Hbg). vm_compute. reflexivity.
Defined.

Lemma build_graph_nodes_witness :
  ∃ proc' g n, build_graph (RB := bands) straight_line = Some (proc', g)
               ∧ g !! 9%nat = Some n ∧ color n = 2 ∧ node_is_fp n = false.
Proof.
  eexists _, _, _.
  split; [vm_compute; reflexivity|].
  split; [vm_compute; reflexivity|].
  destruct (build_graph_nodes (RB := bands) straight_line _ _ 9%nat _
              ltac:(vm_compute; reflexivity) ltac:(vm_compute; reflexivity))
    as (_ & Hfp & _ & Hcol).
  split; [exact Hcol | exact Hfp].
Defined.

Lemma build_graph_edges_sound_witness :
  ∃ proc' g nu nv, build_graph (RB := bands) straight_line = Some (proc', g)
                   ∧ g !! 72%nat = Some nu ∧ g !! 74%nat = Some nv
                   ∧ Bitset.get (vtx nu) 74 = true
                   ∧ Bitset.get (vtx nv) 72 = true
                   ∧ interferes_with (RB := bands) (from_uid 72) (from_uid 74) = true.
Proof.
  eexists _, _, _, _.
  split; [vm_compute; reflexivity|].
  split; [vm_compute; reflexivity|].
  split; [vm_compute; reflexivity|].
  split; [vm_compute; reflexivity|].
  destruct (build_graph_edges_sound (RB := bands) straight_line _ _ 72%nat 74%nat _ _
              ltac:(vm_compute; reflexivity) ltac:(vm_compute; reflexivity)
              ltac:(vm_compute; reflexivity)) as [Hsym Hedge].
  split.
  - rewrite <- Hsym. vm_compute. reflexivity.
  - apply Hedge; [lia | vm_compute; reflexivity].
Defined.

End GraphShapeWitnesses.

Module GraphSlots.
Import Mir Ralloc BuildSpec SlotSpec BuildFacts GraphShape.

Section WithBands.
Context {RB : reg_bands}.

Lemma build_graph_no_slots (proc proc' : mprocedure) (g : graph) :
  build_graph proc = Some (proc', g) → no_slots g.
Proof.
  unfold build_graph. destruct (use_counts proc) as [cnt mx].
  destruct (liveness _ _) as [bbs|]; simpl; [|discriminate].
  destruct (init_graph _ _) as [g0|] eqn:Hg0; simpl; [|discriminate].
  apply init_graph_nodes in Hg0 as ->.
  intros [= _ <-] j n Hj.
  eapply (graph_fold_nodes (λ _ n, spill_slot n = 0%Z) cnt (wrap32 (mx + 1)) bbs);
    [auto | auto | auto | exact Hj].
Qed.

End WithBands.

End GraphSlots.

Module EdgeFacts.
Import Mir Ralloc GraphSpec BuildSpec EdgeSpec CountSpec LiveSpec BitsetFacts BuildFacts
  CountFacts LiveFacts LivenessFacts GraphShape.

Section WithBands.
Context {RB : reg_bands}.

Lemma grows_refl (g : graph) : grows g g.
Proof. split; auto. Qed.

Lemma grows_trans (g1 g2 g3 : graph) : grows g1 g2 → grows g2 g3 → grows g1 g3.
Proof. intros [Hl1 H1] [Hl2 H2]. split; [congruence | auto]. Qed.

Lemma grows_alter (f : graph_node → graph_node) (j : nat) (g : graph) :
  (∀ n v, Bitset.get (vtx n) v = true → Bitset.get (vtx (f n)) v = true) →
  grows g (alter f j g).
Proof.
  intros Hf. split; [apply length_alter|].
  intros u v (n & Hn & Hv). unfold adjacent. rewrite list_lookup_alter.
  destruct (decide (j = u)) as [->|]; [|eauto].
  rewrite Hn. simpl. eauto.
Qed.

Lemma set_row_keeps (k : nat) (n : graph_node) (v : nat) :
  Bitset.get (vtx n) v = true →
  Bitset.get (vtx (with_vtx (Bitset.set (vtx n) k) n)) v = true.
Proof. intros H. simpl. rewrite get_set, H. apply orb_true_r. Qed.

Lemma add_vertex_grows (a b : mreg) (g : graph) : grows g (add_vertex a b g).
Proof.
  unfold add_vertex. destruct (negb _); [apply grows_refl|].
  eapply grows_trans; apply grows_alter; intros n v; apply set_row_keeps.
Qed.

Lemma add_vertex_adds (a b : mreg) (g : graph) :
  interferes_with a b = true → (uid a < length g)%nat →
  adjacent (add_vertex a b g) (uid a) (uid b).
Proof.
  intros Hi Ha. unfold add_vertex. rewrite Hi. simpl.
  destruct (lookup_lt_is_Some_2 g (uid a) Ha) as [n Hn].
  eapply (proj2 (grows_alter _ (uid b) _ _)).
  - exists (with_vtx (Bitset.set (vtx n) (uid b)) n). split.
    + rewrite list_lookup_alter_eq, Hn. reflexivity.
    + simpl. rewrite get_set. rewrite bool_decide_eq_true_2 by reflexivity. reflexivity.
Unshelve. intros n0 v. apply set_row_keeps.
Qed.

Lemma fold_grows {B} (f : graph → B → graph) (l : list B) (g : graph) :
  (∀ y b, grows y (f y b)) → grows g (foldl f g l).
Proof.
  intros Hf. apply (foldl_preserves (grows g)); [apply grows_refl|].
  intros y b Hy. eapply grows_trans; [exact Hy | apply Hf].
Qed.

(** A fold of steps that only add to the rows has the edge that the step at
    [x] adds. *)
Lemma fold_adds {B} (f : graph → B → graph) (u v : nat) (x : B) (l : list B) :
  (∀ y b, grows y (f y b)) →
  (∀ y, (u < length y)%nat → adjacent (f y x) u v) →
  ∀ g, x ∈ l → (u < length g)%nat → adjacent (foldl f g l) u v.
Proof.
  intros Hf Hx. induction l as [|b l IH]; intros g Hin Hu; [inversion Hin|].
  simpl. apply elem_of_cons in Hin as [<-|Hin].
  - apply (proj2 (fold_grows f l (f g x) Hf)). apply Hx. assumption.
  - apply IH; [assumption|]. rewrite (proj1 (Hf g b)). assumption.
Qed.

Lemma add_set_grows (mx : N) (live : Bitset.t) (d : mreg) (g : graph) :
  grows g (add_set mx live d g).
Proof.
  unfold add_set. apply fold_grows. intros y k.
  destruct (Bitset.get live k); [apply add_vertex_grows | apply grows_refl].
Qed.

Lemma add_set_adds (mx : N) (live : Bitset.t) (d : mreg) (g : graph) (v : nat) :
  (v < N.to_nat mx)%nat → Bitset.get live v = true →
  interferes_with d (from_uid v) = true → (uid d < length g)%nat →
  adjacent (add_set mx live d g) (uid d) v.
Proof.
  intros Hv Hlive Hi Hd. unfold add_set.
  apply (fold_adds _ (uid d) v v).
  - intros y k. destruct (Bitset.get live k); [apply add_vertex_grows | apply grows_refl].
  - intros y Hy. rewrite Hlive.
    pose proof (add_vertex_adds d (from_uid v) y Hi Hy) as H.
    rewrite uid_from_uid in H. exact H.
  - apply elem_of_seq. lia.
  - assumption.
Qed.

Lemma edges_insn_live (mx : N) (g : graph) (live : Bitset.t) (i : minsn) :
  (edges_insn mx (g, live) i).2 = live_step live i.
Proof.
  unfold edges_insn, live_step. destruct (negb (is_null (out i))); reflexivity.
Qed.

Lemma hint_keeps (a b : nat) (n : graph_node) (v : nat) :
  Bitset.get (vtx n) v = true → Bitset.get (vtx (add_hint a b n)) v = true.
Proof. auto. Qed.

Lemma hints_grow (i : minsn) (g : graph) :
  grows g (if is_op i movi || is_op i movf then
             match default op_none (arg i !! 0%nat) with
             | op_reg r =>
                 alter (add_hint (uid (out i)) (uid r)) (uid (out i))
                   (alter (add_hint (uid r) (uid (out i))) (uid r) g)
             | _ => g
             end
           else g).
Proof.
  destruct (is_op i movi || is_op i movf); [|apply grows_refl].
  destruct (default op_none (arg i !! 0%nat)); try apply grows_refl.
  eapply grows_trans; apply grows_alter; intros n v; apply hint_keeps.
Qed.

Lemma reads_grow (mx : N) (live : Bitset.t) (l : list (mreg * bool)) (g : graph) :
  grows g (foldl (λ g0 (x : mreg * bool), if x.2 then add_set mx live x.1 g0 else g0) g l).
Proof.
  apply fold_grows. intros y [r rd]. simpl.
  destruct rd; [apply add_set_grows | apply grows_refl].
Qed.

Lemma edges_insn_grows (mx : N) (g : graph) (live : Bitset.t) (i : minsn) :
  grows g (edges_insn mx (g, live) i).1.
Proof.
  unfold edges_insn. eapply grows_trans; [apply (hints_grow i g)|].
  destruct (negb (is_null (out i))); simpl.
  - eapply grows_trans; [apply add_set_grows | apply reads_grow].
  - apply reads_grow.
Qed.

(** The defined register is joined with what is live after the instruction. *)
Lemma edges_insn_adds_def (mx : N) (g : graph) (live : Bitset.t) (i : minsn) (v : nat) :
  is_null (out i) = false → Bitset.get live v = true → v ≠ uid (out i) →
  (v < N.to_nat mx)%nat → interferes_with (out i) (from_uid v) = true →
  (uid (out i) < length g)%nat →
  adjacent (edges_insn mx (g, live) i).1 (uid (out i)) v.
Proof.
  intros Hout Hlive Hne Hv Hi Hlen. unfold edges_insn. rewrite Hout. simpl.
  apply (proj2 (reads_grow mx _ (regs_of i) _)).
  apply add_set_adds; try assumption.
  - rewrite get_reset, Hlive. rewrite bool_decide_eq_false_2 by congruence. reflexivity.
  - rewrite (proj1 (hints_grow i g)). assumption.
Qed.

(** A register that is read is joined with what is live before the
    instruction. *)
Lemma edges_insn_adds_read (mx : N) (g : graph) (live : Bitset.t) (i : minsn)
    (r : mreg) (v : nat) :
  (r, true) ∈ regs_of i → Bitset.get (live_step live i) v = true →
  (v < N.to_nat mx)%nat → interferes_with r (from_uid v) = true →
  (uid r < length g)%nat →
  adjacent (edges_insn mx (g, live) i).1 (uid r) v.
Proof.
  intros Hr Hlive Hv Hi Hlen. unfold edges_insn, live_step in *.
  destruct (negb (is_null (out i))); simpl in *.
  - apply (fold_adds _ (uid r) v (r, true)); try assumption.
    + intros y [r' rd]. simpl. destruct rd; [apply add_set_grows | apply grows_refl].
    + intros y Hy. simpl. apply add_set_adds; assumption.
    + rewrite (proj1 (add_set_grows _ _ _ _)), (proj1 (hints_grow i g)). assumption.
  - apply (fold_adds _ (uid r) v (r, true)); try assumption.
    + intros y [r' rd]. simpl. destruct rd; [apply add_set_grows | apply grows_refl].
    + intros y Hy. simpl. apply add_set_adds; assumption.
    + rewrite (proj1 (hints_grow i g)). assumption.
Qed.

Lemma fold_insns_grows (mx : N) (l : list minsn) (g : graph) (live : Bitset.t) :
  grows g (foldl (edges_insn mx) (g, live) l).1.
Proof.
  revert g live. induction l as [|i l IH]; intros g live; cbn [foldl]; [apply grows_refl|].
  destruct (edges_insn mx (g, live) i) as [g1 live1] eqn:E.
  eapply grows_trans; [|apply IH].
  pose proof (edges_insn_grows mx g live i) as H. rewrite E in H. exact H.
Qed.

Lemma fold_insns_live (mx : N) (l : list minsn) (g : graph) (live : Bitset.t) :
  (foldl (edges_insn mx) (g, live) l).2 = foldl live_step live l.
Proof.
  revert g live. induction l as [|i l IH]; intros g live; cbn [foldl]; [reflexivity|].
  destruct (edges_insn mx (g, live) i) as [g1 live1] eqn:E.
  rewrite IH. f_equal. rewrite <- (edges_insn_live mx g live i), E. reflexivity.
Qed.

Lemma edges_block_grows (mx : N) (g : graph) (b : basic_block) :
  grows g (edges_block mx g b).
Proof. apply fold_insns_grows. Qed.

Lemma reverse_at (l : list minsn) (k : nat) (i : minsn) :
  l !! k = Some i →
  reverse l = reverse (drop (S k) l) ++ [i] ++ reverse (take k l).
Proof.
  intros Hk. rewrite <- (take_drop_middle l k i Hk) at 1.
  rewrite reverse_app, reverse_cons, <- app_assoc. reflexivity.
Qed.

Lemma live_before_step (b : basic_block) (k : nat) (i : minsn) :
  instructions b !! k = Some i → live_before b k = live_step (live_after b k) i.
Proof.
  intros Hk. unfold live_before, live_after.
  rewrite (drop_S _ _ _ Hk), reverse_cons, foldl_app. reflexivity.
Qed.

(** What one block adds for its instruction [k]. *)
Lemma edges_block_adds (mx : N) (g : graph) (b : basic_block) (k : nat) (i : minsn)
    (v : nat) :
  instructions b !! k = Some i → (v < N.to_nat mx)%nat →
  (is_null (out i) = false → (uid (out i) < length g)%nat →
   Bitset.get (live_after b k) v = true → v ≠ uid (out i) →
   interferes_with (out i) (from_uid v) = true →
   adjacent (edges_block mx g b) (uid (out i)) v)
  ∧ (∀ r, (r, true) ∈ regs_of i → (uid r < length g)%nat →
          Bitset.get (live_before b k) v = true →
          interferes_with r (from_uid v) = true →
          adjacent (edges_block mx g b) (uid r) v).
Proof.
  intros Hk Hv. unfold edges_block.
  rewrite (reverse_at _ k i Hk), !foldl_app.
  pose proof (fold_insns_grows mx (reverse (drop (S k) (instructions b))) g (df_out_live b))
    as Hg1.
  pose proof (fold_insns_live mx (reverse (drop (S k) (instructions b))) g (df_out_live b))
    as Hl1.
  destruct (foldl (edges_insn mx) (g, df_out_live b)
              (reverse (drop (S k) (instructions b)))) as [g1 live1].
  simpl in Hg1, Hl1. fold (live_after b k) in Hl1. subst live1.
  cbn [foldl].
  pose proof (fold_insns_grows mx (reverse (take k (instructions b)))
                (edges_insn mx (g1, live_after b k) i).1
                (edges_insn mx (g1, live_after b k) i).2) as Hg3.
  rewrite <- surjective_pairing in Hg3.
  split.
  - intros Hout Hlen Hlive Hne Hi. apply (proj2 Hg3).
    apply edges_insn_adds_def; try assumption. rewrite (proj1 Hg1). assumption.
  - intros r Hr Hlen Hlive Hi. apply (proj2 Hg3).
    apply edges_insn_adds_read; try assumption.
    + rewrite <- (live_before_step b k i Hk). assumption.
    + rewrite (proj1 Hg1). assumption.
Qed.

Lemma edges_blocks_adds (mx : N) (bbs : list basic_block) (g : graph) (b : basic_block)
    (u v : nat) :
  b ∈ bbs → (∀ y, length y = length g → adjacent (edges_block mx y b) u v) →
  adjacent (foldl (edges_block mx) g bbs) u v.
Proof.
  intros Hb Hadd. apply list_elem_of_split in Hb as (l1 & l2 & ->).
  rewrite foldl_app. simpl.
  apply (proj2 (fold_grows (edges_block mx) l2 _ (edges_block_grows mx))).
  apply Hadd. apply (proj1 (fold_grows (edges_block mx) l1 g (edges_block_grows mx))).
Qed.

(** X12.  In the graph [build_graph] returns, the register an instruction
    defines is joined with every register that is live after the instruction
    and interferes with it, and every register the instruction reads is
    joined with every register that is live before the instruction and
    interferes with it. *)
Theorem live_registers_are_joined (proc proc' : mprocedure) (g : graph)
    (b : basic_block) (k : nat) (i : minsn) (v : nat) :
  ids_fit (occurrences proc) →
  build_graph proc = Some (proc', g) →
  b ∈ basic_blocks proc' → instructions b !! k = Some i → (v < length g)%nat →
  (is_null (out i) = false → Bitset.get (live_after b k) v = true →
   v ≠ uid (out i) → interferes_with (out i) (from_uid v) = true →
   adjacent g (uid (out i)) v)
  ∧ (∀ r, (r, true) ∈ regs_of i → Bitset.get (live_before b k) v = true →
          interferes_with r (from_uid v) = true → adjacent g (uid r) v).
Proof.
  intros Hfit Hbg Hb Hk Hv.
  pose proof (build_graph_length _ _ _ Hbg) as Hlen.
  pose proof (regs_below_max proc Hfit) as Hregs. rewrite <- Hlen in Hregs.
  unfold build_graph in Hbg. destruct (use_counts proc) as [cnt mx]. simpl in Hlen.
  destruct (liveness _ _) as [bbs|] eqn:Hlive; simpl in Hbg; [|discriminate].
  destruct (init_graph _ _) as [g0|] eqn:Hg0; simpl in Hbg; [|discriminate].
  apply init_graph_nodes in Hg0 as ->.
  injection Hbg as <- <-. simpl in Hb.
  assert (Hin : ∀ r rd, (r, rd) ∈ regs_of i → (uid r < length
            (foldl (edges_block (wrap32 (mx + 1))) (nodes_at cnt (wrap32 (mx + 1))) bbs))%nat).
  { intros r rd Hr.
    pose proof (liveness_same_code _ _ _ Hlive) as Hsame.
    apply list_elem_of_lookup in Hb as [j Hj].
    destruct (Forall2_lookup_r _ _ _ _ _ Hsame Hj) as (bb0 & Hbb0 & (d & rf & il & ol & ->)).
    apply (Hregs bb0 i r rd).
    - apply list_elem_of_lookup. eauto.
    - apply list_elem_of_lookup. exists k. exact Hk.
    - assumption. }
  rewrite edges_length in Hin, Hv.
  assert (Hvmx : (v < N.to_nat (wrap32 (mx + 1)))%nat).
  { unfold nodes_at in Hv. rewrite length_fmap, length_seq in Hv. exact Hv. }
  split.
  - intros Hout Hl Hne Hi. apply (edges_blocks_adds _ bbs _ b); [assumption|].
    intros y Hy.
    apply (proj1 (edges_block_adds _ y b k i v Hk Hvmx)); try assumption.
    rewrite Hy. apply (Hin (out i) false). unfold regs_of. apply elem_of_app. right.
    rewrite Hout. apply list_elem_of_singleton. reflexivity.
  - intros r Hr Hl Hi. apply (edges_blocks_adds _ bbs _ b); [assumption|].
    intros y Hy.
    apply (proj2 (edges_block_adds _ y b k i v Hk Hvmx)); try assumption.
    rewrite Hy. apply (Hin r true). assumption.
Qed.

End WithBands.

End EdgeFacts.

Module EdgeWitnesses.
Import Mir Ralloc GraphSpec BuildSpec EdgeSpec CountSpec LiveSpec Sample CountClaims
  EdgeFacts.

Lemma live_registers_are_joined_witness :
  ∃ proc' g b i,
    build_graph (RB := bands) straight_line = Some (proc', g)
    ∧ basic_blocks proc' !! 0%nat = Some b
    ∧ instructions b !! 1%nat = Some i
    ∧ out i = 74
    ∧ Bitset.get (live_after b 1) 72 = true
    ∧ adjacent g (uid (out i)) 72.
Proof.
  assert (Hfit : ids_fit (occurrences straight_line)).
  { apply ids_fitb_sound. vm_compute. reflexivity. }
  eexists _, _, _, _.
  split; [vm_compute; reflexivity|].
  split; [vm_compute; reflexivity|].
  split; [vm_compute; reflexivity|].
  split; [vm_compute; reflexivity|].
  split; [vm_compute; reflexivity|].
  refine (proj1 (live_registers_are_joined (RB := bands) straight_line _ _ _ 1%nat _ 72%nat
                   Hfit _ _ _ _) _ _ _ _).
  - vm_compute; reflexivity.
  - vm_compute. apply list_elem_of_here.
  - vm_compute; reflexivity.
  - vm_compute. lia.
  - vm_compute; reflexivity.
  - vm_compute; reflexivity.
  - vm_compute. lia.
  - vm_compute; reflexivity.
Defined.

End EdgeWitnesses.

(** ** The first pass and the least solution *)

Module LeastFacts.
Import Mir Ralloc EdgeSpec FlowSpec LiveSpec BitsetFacts BuildFacts LiveFacts LivenessFacts.

Lemma flow_alter (f : basic_block → basic_block) (j : nat) (cur : list basic_block) :
  (∀ x, flow (f x) = flow x) → flow <$> alter f j cur = flow <$> cur.
Proof.
  intros Hf. apply list_eq. intros k.
  rewrite !list_lookup_fmap, list_lookup_alter.
  destruct (decide (j = k)) as [->|]; [|reflexivity].
  destruct (cur !! k); simpl; [|reflexivity]. rewrite Hf. reflexivity.
Qed.

Lemma closed_flow (cur cur' : list basic_block) (sol : nat → Bitset.t) :
  flow <$> cur = flow <$> cur' → closed cur sol → closed cur' sol.
Proof.
  intros Heq Hc b bb' i Hb' H.
  assert (Hlen : length cur = length cur').
  { rewrite <- (length_fmap flow cur), Heq, length_fmap. reflexivity. }
  assert (Hb : (flow <$> cur) !! b = Some (flow bb')).
  { rewrite Heq, list_lookup_fmap, Hb'. reflexivity. }
  rewrite list_lookup_fmap in Hb.
  destruct (cur !! b) as [bb|] eqn:Hbb; [|discriminate].
  injection Hb as Hs Hd Hr. apply (Hc b bb i Hbb).
  rewrite Hr, Hd, Hs, Hlen. exact H.
Qed.

Lemma live_block_flow (cur : list basic_block) (ch : bool) (b : nat) :
  flow <$> (live_block (cur, ch) b).1 = flow <$> cur.
Proof.
  unfold live_block. destruct (cur !! b); [|reflexivity].
  destruct (negb _); [|reflexivity]. simpl. apply flow_alter. reflexivity.
Qed.

(** A round keeps the in-live sets inside any closed family of sets. *)
Lemma live_block_under (cur : list basic_block) (ch : bool) (b : nat)
    (sol : nat → Bitset.t) :
  closed cur sol → (∀ s, sub (in_live_of cur s) (sol s)) →
  ∀ s, sub (in_live_of (live_block (cur, ch) b).1 s) (sol s).
Proof.
  intros Hc Hu s. unfold live_block.
  destruct (cur !! b) as [bb|] eqn:Hb; [|apply Hu].
  destruct (negb _); [|apply Hu]. simpl.
  rewrite (in_live_of_alter cur b s bb _ Hb).
  destruct (decide (s = b)) as [->|]; [|apply Hu].
  intros i. rewrite get_new_live. intros H. apply (Hc b bb i Hb).
  apply orb_true_iff in H as [H|H]; [right | left; assumption].
  apply andb_true_iff in H as [He Hd]. apply negb_true_iff in Hd.
  split; [assumption|].
  apply existsb_exists in He as (s' & Hs' & Hbit). exists s'.
  split; [apply list_elem_of_In; assumption|]. split; [|apply Hu; assumption].
  unfold in_live_of in Hbit. destruct (cur !! s') as [bs|] eqn:Hbs.
  - apply lookup_lt_Some in Hbs. assumption.
  - simpl in Hbit. rewrite get_empty in Hbit. discriminate.
Qed.

Lemma live_sweep_under (cur : list basic_block) (sol : nat → Bitset.t) :
  closed cur sol → (∀ s, sub (in_live_of cur s) (sol s)) →
  flow <$> (live_sweep cur).1 = flow <$> cur
  ∧ ∀ s, sub (in_live_of (live_sweep cur).1 s) (sol s).
Proof.
  intros Hc Hu. unfold live_sweep.
  apply (foldl_preserves
           (λ st : list basic_block * bool,
              flow <$> st.1 = flow <$> cur ∧ ∀ s, sub (in_live_of st.1 s) (sol s))).
  - split; [reflexivity | assumption].
  - intros [y ch] b [Hf Hy]. simpl in Hf, Hy. split.
    + rewrite live_block_flow. assumption.
    + apply live_block_under; [|assumption].
      apply (closed_flow cur); [symmetry; assumption | assumption].
Qed.

Lemma live_loop_under (fuel : nat) (sol : nat → Bitset.t) :
  ∀ cur cur', closed cur sol → (∀ s, sub (in_live_of cur s) (sol s)) →
              live_loop fuel cur = Some cur' →
              flow <$> cur' = flow <$> cur ∧ ∀ s, sub (in_live_of cur' s) (sol s).
Proof.
  induction fuel as [|fuel IH]; intros cur cur' Hc Hu; [discriminate|].
  cbn [live_loop]. destruct (live_sweep_under cur sol Hc Hu) as [Hf Hs].
  destruct (live_sweep cur) as [cur1 ch]. simpl in Hf, Hs.
  destruct ch.
  - intros Hrun. destruct (IH cur1 cur') as [Hf' Hs']; try assumption.
    + apply (closed_flow cur); [symmetry; assumption | assumption].
    + split; [congruence | assumption].
  - intros [= <-]. auto.
Qed.

Lemma out_live_pass_flow (cur : list basic_block) :
  flow <$> out_live_pass cur = flow <$> cur.
Proof.
  unfold out_live_pass.
  apply (foldl_preserves (λ st : list basic_block, flow <$> st = flow <$> cur));
    [reflexivity|].
  intros y b Hy. rewrite flow_alter; [assumption | reflexivity].
Qed.

Section WithBands.
Context {RB : reg_bands}.

Lemma def_ref_block_visits (bb : basic_block) :
  def_ref_block bb
  = with_df (foldl def_ref_reg (Bitset.empty, Bitset.empty) (visits bb)).1
            (foldl def_ref_reg (Bitset.empty, Bitset.empty) (visits bb)).2
            Bitset.empty Bitset.empty bb.
Proof.
  unfold def_ref_block, visits.
  assert (H : ∀ l st, foldl (λ st i, foldl def_ref_reg st (regs_of i)) st l
                      = foldl def_ref_reg st (concat (regs_of <$> l))).
  { induction l as [|i l IH]; intros st; simpl; [reflexivity|].
    rewrite foldl_app. apply IH. }
  rewrite H. destruct (foldl def_ref_reg _ _). reflexivity.
Qed.

(** What [df_def] and [df_ref] hold after the calls [l] of the visitor. *)
Lemma def_ref_fold (l : list (mreg * bool)) (u : nat) :
  (Bitset.get (foldl def_ref_reg (Bitset.empty, Bitset.empty) l).1 u = true
   ↔ (from_uid u, false) ∈ l ∧ is_pseudo (from_uid u) = false)
  ∧ (Bitset.get (foldl def_ref_reg (Bitset.empty, Bitset.empty) l).2 u = true
     ↔ ∃ l1 l2, l = l1 ++ (from_uid u, true) :: l2
                ∧ is_pseudo (from_uid u) = false ∧ (from_uid u, false) ∉ l1).
Proof.
  induction l as [|[r rd] l IH] using rev_ind.
  - simpl. rewrite get_empty. split.
    + split; [discriminate|]. intros [H _]. inversion H.
    + split; [discriminate|]. intros (l1 & l2 & H & _). destruct l1; discriminate.
  - rewrite foldl_app. cbn [foldl].
    destruct (foldl def_ref_reg (Bitset.empty, Bitset.empty) l) as [def ref].
    simpl in IH. destruct IH as [IHd IHr]. unfold def_ref_reg.
    assert (Hsnoc : ∀ (b : bool) l1 l2,
              l ++ [(r, rd)] = l1 ++ (from_uid u, b) :: l2 →
              (l2 = [] ∧ l1 = l ∧ r = from_uid u ∧ rd = b)
              ∨ ∃ l2', l2 = l2' ++ [(r, rd)] ∧ l = l1 ++ (from_uid u, b) :: l2').
    { intros b l1 l2 H. destruct l2 as [|y l2 _] using rev_ind.
      - left. apply app_inj_tail in H as [-> [= -> ->]]. auto.
      - right. exists l2. rewrite app_comm_cons, app_assoc in H.
        apply app_inj_tail in H as [-> ->]. auto. }
    destruct (is_pseudo r) eqn:Hps.
    { split.
      - rewrite IHd. split; intros [Hin Hp]; (split; [|exact Hp]).
        + apply elem_of_app. left. assumption.
        + apply elem_of_app in Hin as [Hin|Hin]; [assumption|].
          apply list_elem_of_singleton in Hin. injection Hin as <- _. congruence.
      - rewrite IHr. split.
        + intros (l1 & l2 & -> & Hp & Hn). exists l1, (l2 ++ [(r, rd)]).
          rewrite <- app_assoc. auto.
        + intros (l1 & l2 & H & Hp & Hn).
          destruct (Hsnoc true l1 l2 H) as [(_ & _ & -> & _) | (l2' & _ & Hl)];
            [congruence | eauto]. }
    destruct rd.
    + destruct (Bitset.get def (uid r)) eqn:Hdef; simpl.
      * split.
        -- rewrite IHd. split; intros [Hin Hp]; (split; [|exact Hp]).
           ++ apply elem_of_app. left. assumption.
           ++ apply elem_of_app in Hin as [Hin|Hin]; [assumption|].
              apply list_elem_of_singleton in Hin. discriminate.
        -- rewrite IHr. split.
           ++ intros (l1 & l2 & -> & Hp & Hn). exists l1, (l2 ++ [(r, true)]).
              rewrite <- app_assoc. auto.
           ++ intros (l1 & l2 & H & Hp & Hn).
              destruct (Hsnoc true l1 l2 H) as [(_ & -> & -> & _) | (l2' & _ & Hl)];
                [|eauto].
              exfalso. apply Hn. rewrite uid_from_uid in Hdef. apply IHd. assumption.
      * split.
        -- rewrite IHd. split; intros [Hin Hp]; (split; [|exact Hp]).
           ++ apply elem_of_app. left. assumption.
           ++ apply elem_of_app in Hin as [Hin|Hin]; [assumption|].
              apply list_elem_of_singleton in Hin. discriminate.
        -- rewrite get_set. split.
           ++ intros [Heq|Hold]%orb_true_iff.
              ** apply bool_decide_eq_true in Heq. subst u. rewrite from_uid_uid.
                 exists l, []. split; [reflexivity|]. split; [assumption|].
                 intros Hin. assert (Hd : Bitset.get def (uid r) = true).
                 { apply IHd. rewrite from_uid_uid. auto. }
                 congruence.
              ** apply IHr in Hold as (l1 & l2 & -> & Hp & Hn).
                 exists l1, (l2 ++ [(r, true)]). rewrite <- app_assoc. auto.
           ++ intros (l1 & l2 & H & Hp & Hn). apply orb_true_iff.
              destruct (Hsnoc true l1 l2 H) as [(_ & _ & -> & _) | (l2' & _ & Hl)].
              ** left. apply bool_decide_eq_true. apply uid_from_uid.
              ** right. apply IHr. eauto.
    + simpl. split.
      * rewrite get_set. split.
        -- intros [Heq|Hold]%orb_true_iff.
           ++ apply bool_decide_eq_true in Heq. subst u. rewrite from_uid_uid.
              split; [|assumption]. apply elem_of_app. right.
              apply list_elem_of_singleton. reflexivity.
           ++ apply IHd in Hold as [Hin Hp]. split; [|assumption].
              apply elem_of_app. left. assumption.
        -- intros [Hin Hp]. apply orb_true_iff.
           apply elem_of_app in Hin as [Hin|Hin].
           ++ right. apply IHd. auto.
           ++ left. apply list_elem_of_singleton in Hin. injection Hin as <-.
              apply bool_decide_eq_true. apply uid_from_uid.
      * rewrite IHr. split.
        -- intros (l1 & l2 & -> & Hp & Hn). exists l1, (l2 ++ [(r, false)]).
           rewrite <- app_assoc. auto.
        -- intros (l1 & l2 & H & Hp & Hn).
           destruct (Hsnoc true l1 l2 H) as [(_ & _ & _ & [=]) | (l2' & _ & Hl)]. eauto.
Qed.

(** X13.  After the first pass of the analysis, [df_def] of a block holds
    the registers that need allocation and that some instruction of the block
    writes, and [df_ref] those that are read at a point of the block before
    which the block has not written them (operands are visited before the
    destination, so a register an instruction both reads and defines is
    read first). *)
Theorem def_ref_block_sets (bb : basic_block) (u : nat) :
  (Bitset.get (df_def (def_ref_block bb)) u = true
   ↔ (from_uid u, false) ∈ visits bb ∧ is_pseudo (from_uid u) = false)
  ∧ (Bitset.get (df_ref (def_ref_block bb)) u = true
     ↔ ∃ l1 l2, visits bb = l1 ++ (from_uid u, true) :: l2
                ∧ is_pseudo (from_uid u) = false ∧ (from_uid u, false) ∉ l1).
Proof. rewrite def_ref_block_visits. simpl. apply def_ref_fold. Qed.

(** X14.  The in-live sets the analysis ends with are the least ones: they
    lie inside every family of sets that is closed under the two equations
    (each set holds the block's [df_ref] and what a successor's set holds
    outside the block's [df_def]). *)
Theorem liveness_is_least (fuel : nat) (bbs bbs' : list basic_block)
    (sol : nat → Bitset.t) (b : nat) (bb : basic_block) :
  liveness fuel bbs = Some bbs' → closed bbs' sol → bbs' !! b = Some bb →
  sub (df_in_live bb) (sol b).
Proof.
  unfold liveness. intros Hrun Hc Hb.
  destruct (live_loop fuel (def_ref_block <$> bbs)) as [cur|] eqn:Hloop; [|discriminate].
  injection Hrun as <-.
  assert (Hc1 : closed cur sol).
  { apply (closed_flow (out_live_pass cur)); [apply out_live_pass_flow | assumption]. }
  assert (Hu0 : ∀ s, sub (in_live_of (def_ref_block <$> bbs) s) (sol s)).
  { intros s i. unfold in_live_of. rewrite list_lookup_fmap.
    destruct (bbs !! s) as [x|]; simpl.
    - rewrite def_ref_block_visits. simpl. rewrite get_empty. discriminate.
    - rewrite get_empty. discriminate. }
  assert (Hflow : ∀ fuel0 c c', live_loop fuel0 c = Some c' → flow <$> c' = flow <$> c).
  { induction fuel0 as [|fuel0 IH]; intros c c'; [discriminate|]. cbn [live_loop].
    assert (Hs : flow <$> (live_sweep c).1 = flow <$> c).
    { unfold live_sweep.
      apply (foldl_preserves
               (λ st : list basic_block * bool, flow <$> st.1 = flow <$> c));
        [reflexivity|].
      intros [y ch] k Hy. rewrite live_block_flow. assumption. }
    destruct (live_sweep c) as [c1 ch]. simpl in Hs.
    destruct ch; [intros H; rewrite (IH _ _ H); assumption | intros [= <-]; assumption]. }
  assert (Hc0 : closed (def_ref_block <$> bbs) sol).
  { apply (closed_flow cur); [apply (Hflow fuel); assumption | assumption]. }
  destruct (live_loop_under fuel sol _ cur Hc0 Hu0 Hloop) as [_ Hu].
  specialize (Hu b). rewrite <- (out_live_pass_in_live cur b) in Hu.
  unfold in_live_of in Hu. rewrite Hb in Hu. exact Hu.
Qed.

End WithBands.

End LeastFacts.

Module LeastWitnesses.
Import Mir Ralloc EdgeSpec FlowSpec LiveSpec Sample BitsetFacts LiveFacts LivenessFacts
  LivenessClaims LeastFacts.

Lemma liveness_is_least_witness :
  ∃ bbs' bb,
    liveness (RB := bands) 10 (basic_blocks looping) = Some bbs'
    ∧ bbs' !! 1%nat = Some bb
    ∧ sub (df_in_live bb) (in_live_of bbs' 1).
Proof.
  assert (Hregs : regs_below 75 (basic_blocks looping)).
  { apply regs_belowb_sound. vm_compute. reflexivity. }
  eexists _, _.
  split; [vm_compute; reflexivity|].
  split; [vm_compute; reflexivity|].
  eapply (liveness_is_least (RB := bands) 10 (basic_blocks looping) _ (in_live_of _) 1%nat).
  - vm_compute; reflexivity.
  - intros b bb i Hb H.
    pose proof (liveness_equations (RB := bands) 75 10 (basic_blocks looping) _ Hregs
                  ltac:(vm_compute; reflexivity) b bb Hb) as [Hout Hin].
    unfold in_live_of at 1. rewrite Hb. simpl.
    rewrite Hin, get_union, get_difference.
    destruct H as [-> | (-> & s & Hs & Hlt & Hbit)]; [apply orb_true_r|].
    simpl. rewrite andb_true_r. apply orb_true_iff. left.
    apply Hout. unfold in_live_of in Hbit.
    destruct (_ !! s) as [bs|] eqn:Hbs; simpl in Hbit.
    + exists s, bs. auto.
    + rewrite get_empty in Hbit. discriminate.
  - vm_compute; reflexivity.
Defined.

End LeastWitnesses.

(** ** Spill slots *)

Module SlotFacts.
Import Mir Ralloc GraphSpec ColorAux SlotSpec BitsetFacts WordFacts ColorFacts PickFacts
  ColoringFacts TryColorFacts TotalFacts.

Lemma no_slots_remove (gr : graph) (it : nat) (tmp : Bitset.t) :
  no_slots gr → no_slots (remove_node it tmp gr).
Proof.
  intros H j n. rewrite remove_node_lookup.
  destruct (gr !! j) as [m|] eqn:Hm; simpl; [|discriminate].
  intros [= <-]. simpl. eauto.
Qed.

(** The step of the induction: the node [it] put back, colored or spilled. *)
Lemma slots_step (gr gr2 : graph) (it : nat) (node : graph_node)
    (g : graph_node → graph_node) :
  wf_graph gr → gr !! it = Some node → candidate node → no_slots gr →
  rows_kept (remove_node it (vtx node) gr) gr2 →
  slots_ok (remove_node it (vtx node) gr) gr2 →
  let gr' := alter g it (restore_node it (vtx node) gr2).1 in
  rows_kept gr gr' → wf_graph gr' →
  ((∀ x, spill_slot (g x) = spill_slot x)
   ∨ ∃ s, (∀ x, spill_slot (g x) = s) ∧ (1 ≤ s)%Z
          ∧ ∀ i n, gr' !! i = Some n → i ≠ it → Bitset.get (vtx n) it = true →
                   spill_slot n ≠ s) →
  slots_ok gr gr'.
Proof.
  intros Hwf Hit [Hc0 Hv0] Hno [Hlen2 Hk2] (Hpos2 & Hempty2 & Hapart2) gr' [Hlen Hk] Hwf' Hg.
  (* the node of [gr2] behind a node of [gr'] *)
  assert (Hlk : ∀ j n', gr' !! j = Some n' →
            ∃ n n2, gr !! j = Some n ∧ gr2 !! j = Some n2 ∧ vtx n' = vtx n
                    ∧ vtx n2 = removed_row it (vtx node) j n
                    ∧ (j ≠ it → spill_slot n' = spill_slot n2)
                    ∧ (j = it → ∃ x, n' = g x ∧ spill_slot x = spill_slot n2)).
  { intros j n' Hj.
    destruct (gr !! j) as [n|] eqn:Hgj.
    2: { apply lookup_ge_None in Hgj. apply lookup_lt_Some in Hj. lia. }
    destruct (Hk j n Hgj) as (n'' & Hj'' & Hvn & _).
    assert (n'' = n') as -> by congruence.
    destruct (Hk2 j (with_vtx (removed_row it (vtx node) j n) n)) as (n2 & Hj2 & Hv2 & _).
    { rewrite remove_node_lookup, Hgj. reflexivity. }
    exists n, n2. split; [reflexivity|]. split; [assumption|]. split; [assumption|].
    split; [exact Hv2|]. unfold gr' in Hj. split.
    - intros Hne. rewrite list_lookup_alter_ne in Hj by congruence.
      rewrite restore_node_lookup, Hj2 in Hj. injection Hj as <-. reflexivity.
    - intros ->. rewrite list_lookup_alter_eq, restore_node_lookup, Hj2 in Hj.
      injection Hj as <-. eexists. split; reflexivity. }
  (* the node [it] comes back from the recursion without a slot *)
  assert (Hit2 : ∀ n2, gr2 !! it = Some n2 → spill_slot n2 = 0%Z).
  { intros n2 H2.
    apply (Hempty2 it (with_vtx (removed_row it (vtx node) it node) node) n2).
    - rewrite remove_node_lookup, Hit. reflexivity.
    - assumption.
    - simpl. unfold removed_row. rewrite bool_decide_eq_true_2 by reflexivity.
      reflexivity. }
  split; [|split].
  - intros j n' Hj. destruct (Hlk j n' Hj) as (n & n2 & Hgj & H2j & _ & _ & Hne & Heq).
    destruct (decide (j = it)) as [->|Hji].
    + destruct (Heq eq_refl) as (x & -> & Hx).
      destruct Hg as [Hg | (s & Hg & Hs & _)]; rewrite Hg; [|lia].
      rewrite Hx, (Hit2 n2 H2j). lia.
    + rewrite (Hne Hji). eauto.
  - intros j n n' Hgj Hj Hvn.
    destruct (Hlk j n' Hj) as (n0 & n2 & Hgj0 & H2j & _ & Hrow & Hne & _).
    assert (n0 = n) as -> by congruence.
    assert (Hji : j ≠ it).
    { intros ->. assert (n = node) as -> by congruence. contradiction. }
    rewrite (Hne Hji).
    apply (Hempty2 j (with_vtx (removed_row it (vtx node) j n) n) n2).
    + rewrite remove_node_lookup, Hgj. reflexivity.
    + assumption.
    + simpl. unfold removed_row. rewrite bool_decide_eq_false_2 by assumption.
      rewrite Hvn. destruct (Bitset.get (vtx node) j); [apply reset_empty | reflexivity].
  - intros u v nu nv Hu Hv Huv Hadj Hsu.
    destruct (Hlk u nu Hu) as (n0u & n2u & Hgu & H2u & Hvu & Hrowu & Hneu & Hequ).
    destruct (Hlk v nv Hv) as (n0v & n2v & Hgv & H2v & Hvv & Hrowv & Hnev & Heqv).
    destruct (decide (u = it)) as [Hui|Hui]; destruct (decide (v = it)) as [Hvi|Hvi].
    + congruence.
    + (* the node put back, and a neighbour *)
      destruct (Hequ Hui) as (x & -> & Hx).
      destruct Hg as [Hg | (s & Hg & Hs & Hfree)].
      * exfalso. apply Hsu. rewrite Hg, Hx. apply Hit2. congruence.
      * rewrite Hg. intros Heq. apply (Hfree v nv Hv Hvi); [|congruence].
        rewrite <- Hui. rewrite <- (wf_sym gr' Hwf' u v _ nv Hu Hv). assumption.
    + (* a neighbour, and the node put back *)
      destruct (Heqv Hvi) as (x & -> & Hx).
      destruct Hg as [Hg | (s & Hg & Hs & Hfree)].
      * rewrite Hg, Hx, (Hit2 n2v) by congruence. assumption.
      * rewrite Hg. apply (Hfree u nu Hu Hui). rewrite <- Hvi. assumption.
    + rewrite (Hneu Hui), (Hnev Hvi). rewrite (Hneu Hui) in Hsu.
      apply (Hapart2 u v n2u n2v H2u H2v Huv); [|assumption].
      rewrite Hrowu. rewrite (removed_row_bit gr it u v node n0u Hwf Hit Hgu).
      rewrite <- Hvu, Hadj. rewrite !bool_decide_eq_false_2 by assumption. reflexivity.
Qed.

Lemma try_color_fuel_slots (fuel : nat) :
  ∀ (gr gr' : graph) (K M sg sf : N),
    K < 64 → M < 64 → N.of_nat (length gr) < 2 ^ 64 → wf_graph gr → no_slots gr →
    try_color_fuel fuel gr K M = Some (gr', (sg, sf)) →
    slots_ok gr gr'.
Proof.
  induction fuel as [|fuel IH]; intros gr gr' K M sg sf HK HM Hlen Hwf Hno H;
    [discriminate|].
  destruct (try_color_fuel_inv (S fuel) gr gr' K M sg sf HK HM Hlen Hwf H)
    as (Hkept & Hwf' & _ & _).
  cbn [try_color_fuel] in H.
  destruct (pick gr K M) as [[it node]|] eqn:Hpick.
  2: { injection H as <- <- <-. split; [|split].
       - intros j n Hj. rewrite (Hno j n Hj). lia.
       - intros j n n' Hj Hj' _. eauto.
       - intros u v nu nv Hu _ _ _ Hs. exfalso. apply Hs. eauto. }
  destruct (pick_sound gr K M it node Hpick) as [Hit Hcand].
  destruct (try_color_fuel fuel (remove_node it (vtx node) gr) K M)
    as [[gr2 [rg rf]]|] eqn:Hrec; [|discriminate H].
  cbn [mbind option_bind] in H.
  assert (Hlen1 : N.of_nat (length (remove_node it (vtx node) gr)) < 2 ^ 64).
  { rewrite remove_node_length. assumption. }
  pose proof (wf_remove gr it node Hwf Hit) as Hwf1.
  destruct (try_color_fuel_inv fuel _ gr2 K M rg rf HK HM Hlen1 Hwf1 Hrec)
    as (Hk2 & _ & _ & _).
  pose proof (IH _ gr2 K M rg rf HK HM Hlen1 Hwf1 (no_slots_remove gr it _ Hno) Hrec)
    as Hok2.
  pose proof (slots_step gr gr2 it node) as Hstep.
  destruct (restore_node it (vtx node) gr2) as [gr3 mask] eqn:Hres.
  cbn [fst] in Hstep.
  destruct (try_hints gr3 it mask (coalescing_hints node)) as [c|] eqn:Hh.
  - injection H as <- <- <-.
    apply (Hstep (with_color c) Hwf Hit Hcand Hno Hk2 Hok2 Hkept Hwf').
    left. reflexivity.
  - destruct (N.ltb_spec (budget K M node) (countr_zero mask)) as [Hover|Hfit].
    + destruct (find_spill_slot _ _ it 1) as [slot|] eqn:Hslot; [|discriminate H].
      cbn [mbind option_bind] in H. injection H as <- <- <-.
      destruct (find_spill_slot_first _ _ _ _ _ Hslot) as (Hge & Hfree & _).
      rewrite list_alter_alter_eq in Hkept, Hwf' |- *.
      apply (Hstep _ Hwf Hit Hcand Hno Hk2 Hok2 Hkept Hwf').
      right. exists slot. split; [reflexivity|]. split; [assumption|].
      intros i n Hi Hne Hbit Heq.
      assert (Hclash : slot_clash
                (alter (λ x, with_spill_slot 1 (with_color 0 x)) it gr3) it slot = true).
      { apply slot_clash_true. exists i, n. split; [|auto].
        rewrite list_lookup_alter_ne in Hi |- * by congruence. assumption. }
      congruence.
    + injection H as <- <- <-.
      apply (Hstep _ Hwf Hit Hcand Hno Hk2 Hok2 Hkept Hwf').
      left. reflexivity.
Qed.

(** X15.  [try_color] puts the graph back as it found it: the result has
    the same number of nodes, every node keeps its row and its class, and a
    node that came in colored (a physical register) is returned unchanged. *)
Theorem try_color_keeps_graph (gr gr' : graph) (K M : N) (s : N * N) (j : nat)
    (n : graph_node) :
  wf_graph gr → K < 64 → M < 64 → N.of_nat (length gr) < 2 ^ 64 →
  try_color gr K M = Some (gr', s) → gr !! j = Some n →
  length gr' = length gr
  ∧ ∃ n', gr' !! j = Some n' ∧ vtx n' = vtx n ∧ node_is_fp n' = node_is_fp n
          ∧ (color n ≠ 0 → n' = n).
Proof.
  intros Hwf HK HM Hlen Hrun Hj. destruct s as [sg sf].
  destruct (try_color_fuel_inv _ gr gr' K M sg sf HK HM Hlen Hwf Hrun)
    as ([Hl Hk] & _ & _ & _).
  split; [assumption|]. destruct (Hk j n Hj) as (n' & Hj' & Hkept). eauto.
Qed.

(** X16.  On a graph that has no spill slots yet, [try_color] gives a node
    it spills a slot from 1 on that none of its neighbours has: two
    interfering registers never share a spill slot. *)
Theorem try_color_slots_apart (gr gr' : graph) (K M : N) (s : N * N) (u v : nat)
    (nu nv : graph_node) :
  wf_graph gr → K < 64 → M < 64 → N.of_nat (length gr) < 2 ^ 64 → no_slots gr →
  try_color gr K M = Some (gr', s) →
  gr' !! u = Some nu → gr' !! v = Some nv → u ≠ v → Bitset.get (vtx nu) v = true →
  spill_slot nu ≠ 0%Z →
  (1 ≤ spill_slot nu)%Z ∧ spill_slot nu ≠ spill_slot nv.
Proof.
  intros Hwf HK HM Hlen Hno Hrun Hu Hv Huv Hadj Hs. destruct s as [sg sf].
  destruct (try_color_fuel_slots _ gr gr' K M sg sf HK HM Hlen Hwf Hno Hrun)
    as (Hpos & _ & Hapart).
  split; [|eauto]. specialize (Hpos u nu Hu). lia.
Qed.

End SlotFacts.

(** ** The spill rewriter and the last stage *)

Module VisitFacts.
Import Mir.

Section Visit.
Context {S : Type} (f : mreg → bool → S → mreg * S).

Lemma visit_arg_id (o : mop) (s : S) :
  (∀ r, r ∈ arg_regs o → f r true s = (r, s)) → visit_arg f o s = (o, s).
Proof.
  intros H. destruct o as [|r|z|m]; simpl in *; try reflexivity.
  - destruct (is_null r); [reflexivity|]. rewrite H by apply list_elem_of_here.
    reflexivity.
  - destruct (is_null (base m)); [reflexivity|]. rewrite H by apply list_elem_of_here.
    destruct m. reflexivity.
Qed.

Lemma visit_args_id (os : list mop) (s : S) :
  (∀ r s', r ∈ concat (arg_regs <$> os) → f r true s' = (r, s')) →
  visit_args f os s = (os, s).
Proof.
  revert s. induction os as [|o os IH]; intros s H; simpl; [reflexivity|].
  rewrite visit_arg_id.
  - rewrite IH; [reflexivity|]. intros r s' Hr. apply H. simpl.
    apply elem_of_app. right. assumption.
  - intros r Hr. apply H. simpl. apply elem_of_app. left. assumption.
Qed.

Lemma for_each_reg_id (i : minsn) (s : S) :
  (∀ r rd s', (r, rd) ∈ regs_of i → f r rd s' = (r, s')) →
  for_each_reg f i s = (i, s).
Proof.
  intros H. unfold for_each_reg. rewrite visit_args_id.
  - destruct (is_null (out i)) eqn:Hout; [destruct i; reflexivity|].
    rewrite H; [destruct i; reflexivity|].
    unfold regs_of. rewrite Hout. apply elem_of_app. right. apply list_elem_of_here.
  - intros r s' Hr. apply H. unfold regs_of. apply elem_of_app. left.
    apply list_elem_of_fmap. exists r. auto.
Qed.

(** What holds of the state after a visit held before it, and the registers
    the visit leaves in the instruction are those the callback gave.  [G] may
    look at the state, as long as later calls keep what it says. *)
Context (Q : S → Prop) (G : S → mreg → Prop).
Hypothesis Hf : ∀ r rd s r' s', f r rd s = (r', s') → Q s' → Q s ∧ G s' r'.
Hypothesis Hmono : ∀ r rd s x, G s x → G (f r rd s).2 x.

Lemma visit_arg_back (o o' : mop) (s s' : S) :
  visit_arg f o s = (o', s') → Q s' → Q s ∧ ∀ r, r ∈ arg_regs o' → G s' r.
Proof.
  destruct o as [|r|z|m]; simpl.
  - intros [= <- <-] HQ. split; [assumption|]. intros r Hr. inversion Hr.
  - destruct (is_null r) eqn:Hn.
    + intros [= <- <-] HQ. split; [assumption|]. simpl. rewrite Hn.
      intros r0 Hr. inversion Hr.
    + destruct (f r true s) as [r1 s1] eqn:E. intros [= <- <-] HQ.
      destruct (Hf _ _ _ _ _ E HQ) as [Hs HG]. split; [assumption|].
      simpl. intros r0 Hr. destruct (is_null r1); [inversion Hr|].
      apply list_elem_of_singleton in Hr. subst. assumption.
  - intros [= <- <-] HQ. split; [assumption|]. intros r Hr. inversion Hr.
  - destruct (is_null (base m)) eqn:Hn.
    + intros [= <- <-] HQ. split; [assumption|]. simpl. rewrite Hn.
      intros r0 Hr. inversion Hr.
    + destruct (f (base m) true s) as [r1 s1] eqn:E. intros [= <- <-] HQ.
      destruct (Hf _ _ _ _ _ E HQ) as [Hs HG]. split; [assumption|].
      simpl. intros r0 Hr. destruct (is_null r1); [inversion Hr|].
      apply list_elem_of_singleton in Hr. subst. assumption.
Qed.

Lemma visit_args_mono (os : list mop) (s : S) (x : mreg) :
  G s x → G (visit_args f os s).2 x.
Proof.
  apply (RewriteFacts.visit_args_preserves (λ s, G s x)). intros r b s0. apply Hmono.
Qed.

Lemma for_each_reg_mono (i : minsn) (s : S) (x : mreg) :
  G s x → G (for_each_reg f i s).2 x.
Proof.
  apply (RewriteFacts.for_each_reg_preserves (λ s, G s x)). intros r b s0. apply Hmono.
Qed.

Lemma visit_args_back (os : list mop) :
  ∀ os' s s', visit_args f os s = (os', s') → Q s' →
              Q s ∧ ∀ r, r ∈ concat (arg_regs <$> os') → G s' r.
Proof.
  induction os as [|o os IH]; intros os' s s'; simpl.
  - intros [= <- <-] HQ. split; [assumption|]. intros r Hr. inversion Hr.
  - destruct (visit_arg f o s) as [o1 s1] eqn:E1.
    destruct (visit_args f os s1) as [os2 s2] eqn:E2.
    intros [= <- <-] HQ.
    destruct (IH _ _ _ E2 HQ) as [HQ1 HG2].
    destruct (visit_arg_back _ _ _ _ E1 HQ1) as [HQ0 HG1].
    split; [assumption|]. simpl. intros r [Hr|Hr]%elem_of_app; [|auto].
    pose proof (visit_args_mono os s1 r (HG1 r Hr)) as H. rewrite E2 in H. exact H.
Qed.

Lemma for_each_reg_back (i i' : minsn) (s s' : S) :
  for_each_reg f i s = (i', s') → Q s' →
  Q s ∧ ∀ r rd, (r, rd) ∈ regs_of i' → G s' r.
Proof.
  unfold for_each_reg. destruct (visit_args f (arg i) s) as [args1 s1] eqn:E1.
  destruct (is_null (out i)) eqn:Hout.
  - intros [= <- <-] HQ. destruct (visit_args_back _ _ _ _ E1 HQ) as [HQ0 HG].
    split; [assumption|]. unfold regs_of. simpl. rewrite Hout.
    intros r rd [Hr|Hr]%elem_of_app; [|inversion Hr].
    apply list_elem_of_fmap in Hr as (r0 & [= -> _] & Hr). auto.
  - destruct (f (out i) false s1) as [o1 s2] eqn:E2. intros [= <- <-] HQ.
    destruct (Hf _ _ _ _ _ E2 HQ) as [HQ1 HGo].
    destruct (visit_args_back _ _ _ _ E1 HQ1) as [HQ0 HG].
    split; [assumption|]. unfold regs_of. simpl.
    intros r rd [Hr|Hr]%elem_of_app.
    + apply list_elem_of_fmap in Hr as (r0 & [= -> _] & Hr).
      pose proof (Hmono (out i) false s1 r0 (HG r0 Hr)) as H. rewrite E2 in H. exact H.
    + destruct (is_null o1); [inversion Hr|].
      apply list_elem_of_singleton in Hr. injection Hr as -> _. assumption.
Qed.

End Visit.

End VisitFacts.

Module PlaceFacts.
Import Mir Ralloc.

Section WithBands.
Context {RB : reg_bands}.

(** X17.  A register the loop of [spill_and_swap] has placed in a list is
    found there by every later call: the same fresh register is substituted
    again, and neither the list nor the state (no new register, no new slot)
    changes.  So a spilled register that an instruction reads twice is
    reloaded once. *)
Theorem place_reuses_entry (m : mreg) (entries entries' : list spill_entry)
    (slot slot_offset : Z) (st st' : rw_state) (d : mreg) :
  is_null m = false →
  place m entries slot slot_offset st = (true, d, entries', st') →
  ∀ slot2 offset2 st2, place m entries' slot2 offset2 st2 = (true, d, entries', st2).
Proof.
  intros Hm. revert entries' st' d.
  induction entries as [|e rest IH]; intros entries' st' d; simpl; [discriminate|].
  destruct (is_null (src e)) eqn:Hnull.
  - destruct (next_reg (is_fp m) st) as [d0 st0]. intros [= <- <- <-] slot2 offset2 st2.
    simpl. rewrite Hm, N.eqb_refl. reflexivity.
  - destruct (N.eqb_spec (src e) m) as [Heq|Hne].
    + intros [= <- <- <-] slot2 offset2 st2. simpl. rewrite Hnull, Heq, N.eqb_refl.
      reflexivity.
    + destruct (place m rest slot slot_offset st) as [[[p m1] rest1] st1] eqn:E.
      intros [= -> <- <- <-] slot2 offset2 st2. simpl. rewrite Hnull.
      destruct (N.eqb_spec (src e) m); [contradiction|].
      rewrite (IH _ _ _ eq_refl). reflexivity.
Qed.

(** X18.  The loop of [spill_and_swap] runs off the end of the list exactly
    when every entry holds another register; the operand is then left as it
    is, a spilled virtual register for which no reload or spill is emitted,
    and neither the list nor the state changes. *)
Theorem place_runs_off_full_list (m : mreg) (entries : list spill_entry)
    (slot slot_offset : Z) (st : rw_state) :
  ((place m entries slot slot_offset st).1.1.1 = false
   ↔ Forall (λ e, is_null (src e) = false ∧ src e ≠ m) entries)
  ∧ ((place m entries slot slot_offset st).1.1.1 = false →
     place m entries slot slot_offset st = (false, m, entries, st)).
Proof.
  induction entries as [|e rest [IHiff IHeq]]; simpl.
  - split; [split; [constructor | reflexivity] | reflexivity].
  - destruct (is_null (src e)) eqn:Hnull.
    + destruct (next_reg (is_fp m) st) as [d0 st0]. simpl.
      split; [|discriminate]. split; [discriminate|].
      intros H. apply Forall_inv in H as [H _]. congruence.
    + destruct (N.eqb_spec (src e) m) as [Heq|Hne]; simpl.
      * split; [|discriminate]. split; [discriminate|].
        intros H. apply Forall_inv in H as [_ H]. contradiction.
      * destruct (place m rest slot slot_offset st) as [[[p m1] rest1] st1] eqn:E.
        simpl in *. split.
        -- rewrite IHiff. split.
           ++ intros H. constructor; auto.
           ++ intros H. apply Forall_inv_tail in H. assumption.
        -- intros Hp. specialize (IHeq Hp). injection IHeq as _ -> -> ->.
           rewrite Hp. reflexivity.
Qed.

End WithBands.

End PlaceFacts.

Module RewriterFacts.
Import Mir Ralloc SlotSpec AllocSpec VisitFacts RewriteFacts PipelineFacts.

Section WithBands.
Context {RB : reg_bands}.
Variable a : Arch.abi.
Variable native_code : Arch.native_reg → Z.

Lemma visit_insns_id {S} (f : mreg → bool → S → mreg * S) (insns : list minsn) (s : S) :
  (∀ i r rd s', i ∈ insns → (r, rd) ∈ regs_of i → f r rd s' = (r, s')) →
  visit_insns f insns s = (insns, s).
Proof.
  intros H. unfold visit_insns.
  assert (Hgen : ∀ l acc, (∀ i, i ∈ l → i ∈ insns) →
            foldl (λ '(acc, s) i, let '(i', s') := for_each_reg f i s in (acc ++ [i'], s'))
                  (acc, s) l = (acc ++ l, s)).
  { induction l as [|i l IH]; intros acc Hl; simpl; [rewrite app_nil_r; reflexivity|].
    rewrite for_each_reg_id.
    - rewrite IH; [rewrite <- app_assoc; reflexivity|].
      intros x Hx. apply Hl. right. assumption.
    - intros r rd s' Hr. apply (H i); [apply Hl; left | assumption]. }
  apply (Hgen insns []). auto.
Qed.

Lemma visit_blocks_id {S} (f : mreg → bool → S → mreg * S) (bbs : list basic_block)
    (s : S) :
  (∀ bb i r rd s', bb ∈ bbs → i ∈ instructions bb → (r, rd) ∈ regs_of i →
                   f r rd s' = (r, s')) →
  visit_blocks f bbs s = (bbs, s).
Proof.
  intros H. unfold visit_blocks.
  assert (Hgen : ∀ l acc, (∀ bb, bb ∈ l → bb ∈ bbs) →
            foldl (λ '(acc, s) bb,
                     let '(insns, s') := visit_insns f (instructions bb) s in
                     (acc ++ [with_instructions insns bb], s'))
                  (acc, s) l = (acc ++ l, s)).
  { induction l as [|bb l IH]; intros acc Hl; simpl; [rewrite app_nil_r; reflexivity|].
    rewrite visit_insns_id.
    - rewrite with_instructions_id, IH; [rewrite <- app_assoc; reflexivity|].
      intros x Hx. apply Hl. right. assumption.
    - intros i r rd s' Hi Hr. apply (H bb i); [apply Hl; left | assumption | assumption]. }
  apply (Hgen bbs []). auto.
Qed.

Lemma rewrite_reg_no_slots (gr : graph) (slot_offset : Z) (r : mreg) (is_read : bool)
    (acc : res rw_acc) :
  no_slots gr → rewrite_reg gr slot_offset r is_read acc = (r, acc).
Proof.
  intros Hno. unfold rewrite_reg.
  destruct acc as [[[reload_list spill_list] st]|e]; [|reflexivity].
  destruct (is_pseudo r || negb (is_virt r)); [reflexivity|].
  destruct (gr !! uid r) as [info|] eqn:E; [|reflexivity].
  rewrite (Hno _ _ E). reflexivity.
Qed.

Lemma set_need_cg_id (st : rw_state) : need_cg st = false → set_need_cg false st = st.
Proof. destruct st. simpl. intros ->. reflexivity. Qed.

Lemma rewrite_block_no_slots (fuel : nat) (gr : graph) (slot_offset : Z) :
  no_slots gr →
  ∀ done todo st, need_cg st = false → (length todo < fuel)%nat →
                  rewrite_block a fuel gr slot_offset done todo st
                  = Ok (done ++ todo, st).
Proof.
  intros Hno. induction fuel as [|fuel IH]; intros done todo st Hcg Hlen; [lia|].
  cbn [rewrite_block]. destruct todo as [|i rest].
  - rewrite app_nil_r. reflexivity.
  - rewrite for_each_reg_id.
    + rewrite (set_need_cg_id st Hcg), Hcg. cbn [negb].
      rewrite IH; [|assumption | simpl in Hlen; lia].
      rewrite <- app_assoc. reflexivity.
    + intros r rd s' _. apply rewrite_reg_no_slots. assumption.
Qed.

(** X19.  When no node of the graph has a spill slot, the spill rewriter
    changes nothing: every block keeps its instructions, and no register, no
    slot and no reload or spill is added. *)
Theorem rewrite_blocks_without_spills (fuel : nat) (gr : graph) (slot_offset : Z)
    (bbs : list basic_block) (st : rw_state) :
  no_slots gr → need_cg st = false →
  Forall (λ bb, (length (instructions bb) < fuel)%nat) bbs →
  rewrite_blocks a fuel gr slot_offset bbs st = Ok (bbs, st).
Proof.
  intros Hno Hcg. induction bbs as [|bb bbs IH]; intros Hlen; simpl; [reflexivity|].
  rewrite (rewrite_block_no_slots fuel gr slot_offset Hno [] (instructions bb) st Hcg)
    by (apply (Forall_inv Hlen)).
  cbn [mbind res_bind app]. rewrite IH by (apply (Forall_inv_tail Hlen)).
  cbn [mbind res_bind]. rewrite with_instructions_id. reflexivity.
Qed.

(** *** The registers of the final stream *)

Lemma swap_reg_back (gr : graph) (r : mreg) (is_read : bool) (st : N * N * option failure)
    (r' : mreg) (st' : N * N * option failure) :
  swap_reg gr r is_read st = (r', st') → st'.2 = None →
  st.2 = None
  ∧ ((is_pseudo r' = true ∨ is_virt r' = false)
     ∨ ∃ n, n ∈ gr ∧ color n ≠ 0
            ∧ ((r' = of_arch_reg (Z.of_N (color n))
                ∧ N.testbit (N.land st'.1.1 (shl64 1 (color n - 1))) (color n - 1)
                  = N.testbit (shl64 1 (color n - 1)) (color n - 1))
               ∨ (r' = of_arch_reg (- Z.of_N (color n))%Z
                  ∧ N.testbit (N.land st'.1.2 (shl64 1 (color n - 1))) (color n - 1)
                    = N.testbit (shl64 1 (color n - 1)) (color n - 1)))).
Proof.
  unfold swap_reg. destruct st as [[gp fp] failed].
  destruct (is_pseudo r) eqn:Hps; simpl.
  { intros [= <- <-] H. split; [assumption|]. left. left. assumption. }
  destruct (is_virt r) eqn:Hv; simpl.
  2: { intros [= <- <-] H. split; [assumption|]. left. right. assumption. }
  destruct (gr !! uid r) as [n|] eqn:Hn; [|intros [= <- <-]; discriminate].
  destruct (Z.eqb_spec (Z.of_N (color n)) 0) as [Hz|Hz]; [intros [= <- <-]; discriminate|].
  assert (Hin : n ∈ gr) by (apply list_elem_of_lookup; eauto).
  destruct (is_fp r); intros [= <- <-] H; (split; [assumption|]); right; exists n;
    (split; [assumption|]); (split; [lia|]); [right | left];
    (split; [reflexivity|]); simpl;
    rewrite N.land_spec, N.lor_spec; destruct (N.testbit (shl64 1 (color n - 1)) _);
    rewrite ?orb_true_r, ?andb_false_r; reflexivity.
Qed.

(** The bits of the two masks are never cleared. *)
Lemma swap_reg_mask_kept (gr : graph) (r : mreg) (is_read : bool)
    (st : N * N * option failure) (b : N) :
  (N.testbit st.1.1 b = true → N.testbit (swap_reg gr r is_read st).2.1.1 b = true)
  ∧ (N.testbit st.1.2 b = true → N.testbit (swap_reg gr r is_read st).2.1.2 b = true).
Proof.
  unfold swap_reg. destruct st as [[gp fp] failed]. simpl.
  destruct (negb (is_pseudo r) && is_virt r); [|auto].
  destruct (gr !! uid r) as [n|]; [|auto].
  destruct (Z.of_N (color n) =? 0)%Z; [auto|].
  destruct (is_fp r); simpl; rewrite N.lor_spec; split; auto; intros ->; reflexivity.
Qed.

Section Backward.
Context {S : Type} (f : mreg → bool → S → mreg * S) (Q : S → Prop) (G : S → mreg → Prop).
Hypothesis Hf : ∀ r rd s r' s', f r rd s = (r', s') → Q s' → Q s ∧ G s' r'.
Hypothesis Hmono : ∀ r rd s x, G s x → G (f r rd s).2 x.

Lemma insns_fold_mono (l : list minsn) (acc : list minsn) (s : S) (x : mreg) :
  G s x →
  G (foldl (λ '(acc, s) i, let '(i', s') := for_each_reg f i s in (acc ++ [i'], s'))
           (acc, s) l).2 x.
Proof.
  revert acc s. induction l as [|i l IH]; intros acc s H; cbn [foldl]; [assumption|].
  pose proof (for_each_reg_mono f G Hmono i s x H) as H1.
  destruct (for_each_reg f i s) as [i1 s1]. apply IH. assumption.
Qed.

Lemma visit_insns_back (insns : list minsn) (s : S) (out : list minsn) (s' : S) :
  visit_insns f insns s = (out, s') → Q s' →
  Q s ∧ ∀ i r rd, i ∈ out → (r, rd) ∈ regs_of i → G s' r.
Proof.
  unfold visit_insns.
  assert (Hgen : ∀ l acc s0,
            foldl (λ '(acc, s) i, let '(i', s') := for_each_reg f i s in (acc ++ [i'], s'))
                  (acc, s0) l = (out, s') → Q s' →
            Q s0 ∧ ∀ i r rd, i ∈ out → (i ∈ acc ∨ ((r, rd) ∈ regs_of i → G s' r))).
  { induction l as [|i l IH]; intros acc s0; cbn [foldl].
    - intros [= <- <-] HQ. split; [assumption|]. intros i r rd Hi. left. assumption.
    - destruct (for_each_reg f i s0) as [i1 s1] eqn:E. intros Hrun HQ.
      destruct (IH _ _ Hrun HQ) as [HQ1 Hout].
      destruct (for_each_reg_back f Q G Hf Hmono _ _ _ _ E HQ1) as [HQ0 HG].
      split; [assumption|]. intros x r rd Hx.
      destruct (Hout x r rd Hx) as [Hacc|Hgood]; [|right; assumption].
      apply elem_of_app in Hacc as [Hacc|Hacc]; [left; assumption|].
      apply list_elem_of_singleton in Hacc. subst x. right. intros Hr.
      pose proof (insns_fold_mono l (acc ++ [i1]) s1 r (HG r rd Hr)) as H.
      rewrite Hrun in H. exact H. }
  intros Hrun HQ. destruct (Hgen _ _ _ Hrun HQ) as [HQ0 Hout]. split; [assumption|].
  intros i r rd Hi Hr. destruct (Hout i r rd Hi) as [Hacc|Hgood]; [inversion Hacc | auto].
Qed.

Lemma visit_insns_mono (insns : list minsn) (s : S) (x : mreg) :
  G s x → G (visit_insns f insns s).2 x.
Proof. apply insns_fold_mono. Qed.

Lemma blocks_fold_mono (l acc : list basic_block) (s : S) (x : mreg) :
  G s x →
  G (foldl (λ '(acc, s) bb,
              let '(insns, s') := visit_insns f (instructions bb) s in
              (acc ++ [with_instructions insns bb], s'))
           (acc, s) l).2 x.
Proof.
  revert acc s. induction l as [|bb l IH]; intros acc s H; cbn [foldl]; [assumption|].
  pose proof (visit_insns_mono (instructions bb) s x H) as H1.
  destruct (visit_insns f (instructions bb) s) as [insns s1]. apply IH. assumption.
Qed.

Lemma visit_blocks_back (bbs : list basic_block) (s : S) (out : list basic_block)
    (s' : S) :
  visit_blocks f bbs s = (out, s') → Q s' →
  ∀ bb i r rd, bb ∈ out → i ∈ instructions bb → (r, rd) ∈ regs_of i → G s' r.
Proof.
  unfold visit_blocks.
  assert (Hgen : ∀ l acc s0,
            foldl (λ '(acc, s) bb,
                     let '(insns, s') := visit_insns f (instructions bb) s in
                     (acc ++ [with_instructions insns bb], s'))
                  (acc, s0) l = (out, s') → Q s' →
            Q s0 ∧ ∀ bb, bb ∈ out →
                         (bb ∈ acc ∨ ∀ i r rd, i ∈ instructions bb →
                                               (r, rd) ∈ regs_of i → G s' r)).
  { induction l as [|bb l IH]; intros acc s0; cbn [foldl].
    - intros [= <- <-] HQ. split; [assumption|]. intros bb Hbb. left. assumption.
    - destruct (visit_insns f (instructions bb) s0) as [insns s1] eqn:E. intros Hrun HQ.
      destruct (IH _ _ Hrun HQ) as [HQ1 Hout].
      destruct (visit_insns_back _ _ _ _ E HQ1) as [HQ0 HG].
      split; [assumption|]. intros x Hx.
      destruct (Hout x Hx) as [Hacc|Hgood]; [|right; assumption].
      apply elem_of_app in Hacc as [Hacc|Hacc]; [left; assumption|].
      apply list_elem_of_singleton in Hacc. subst x. right. simpl.
      intros i r rd Hi Hr.
      pose proof (blocks_fold_mono l (acc ++ [with_instructions insns bb]) s1 r
                    (HG i r rd Hi Hr)) as H.
      rewrite Hrun in H. exact H. }
  intros Hrun HQ bb i r rd Hbb. destruct (Hgen _ _ _ Hrun HQ) as [_ Hout].
  destruct (Hout bb Hbb) as [Hacc|Hgood]; [inversion Hacc | apply Hgood].
Qed.

End Backward.

Lemma finish_allocation_masks (lr : loop_result) (res : alloc_result) :
  finish_allocation lr = Ok res →
  ∃ bbs,
    visit_blocks (swap_reg (lr_graph lr)) (basic_blocks (lr_proc lr))
      (used_gp_mask (lr_proc lr), used_fp_mask (lr_proc lr), None)
    = (bbs, (used_gp_mask (ar_proc res), used_fp_mask (ar_proc res), None))
    ∧ ar_graph res = lr_graph lr
    ∧ basic_blocks (ar_proc res) = erase_moves <$> bbs.
Proof.
  unfold finish_allocation.
  destruct (visit_blocks _ _ _) as [bbs [[gp_mask fp_mask] [e|]]]; [discriminate|].
  intros [= <-]. exists bbs. repeat split.
Qed.

(** What is known of a register of the final stream, with the two masks
    [gp] and [fp]. *)
Lemma swapped_registers (fuel : nat) (proc : mprocedure) (res : alloc_result)
    (bb : basic_block) (i : minsn) (r : mreg) (is_read : bool) :
  allocate_registers a native_code fuel proc = Ok res →
  bb ∈ basic_blocks (ar_proc res) → i ∈ instructions bb → (r, is_read) ∈ regs_of i →
  (is_pseudo r = true ∨ is_virt r = false)
  ∨ ∃ n, n ∈ ar_graph res ∧ color n ≠ 0
         ∧ ((r = of_arch_reg (Z.of_N (color n))
             ∧ N.testbit (N.land (used_gp_mask (ar_proc res)) (shl64 1 (color n - 1)))
                 (color n - 1)
               = N.testbit (shl64 1 (color n - 1)) (color n - 1))
            ∨ (r = of_arch_reg (- Z.of_N (color n))%Z
               ∧ N.testbit (N.land (used_fp_mask (ar_proc res)) (shl64 1 (color n - 1)))
                   (color n - 1)
                 = N.testbit (shl64 1 (color n - 1)) (color n - 1))).
Proof.
  intros Hrun Hbb Hi Hr.
  destruct (allocate_registers_stages a native_code fuel proc res Hrun)
    as (proc1 & proc2 & g & K & M & lr & _ & _ & _ & _ & Hfin).
  destruct (finish_allocation_masks lr res Hfin) as (bbs & Hvisit & Hg & Hblocks).
  rewrite Hblocks in Hbb. apply list_elem_of_fmap in Hbb as (bb0 & -> & Hbb0).
  unfold erase_moves in Hi. simpl in Hi.
  apply list_elem_of_In, filter_In in Hi as [Hi%list_elem_of_In _].
  rewrite Hg.
  set (G := λ (st : N * N * option failure) (x : mreg),
              (is_pseudo x = true ∨ is_virt x = false)
              ∨ ∃ n, n ∈ lr_graph lr ∧ color n ≠ 0
                     ∧ ((x = of_arch_reg (Z.of_N (color n))
                         ∧ N.testbit (N.land st.1.1 (shl64 1 (color n - 1))) (color n - 1)
                           = N.testbit (shl64 1 (color n - 1)) (color n - 1))
                        ∨ (x = of_arch_reg (- Z.of_N (color n))%Z
                           ∧ N.testbit (N.land st.1.2 (shl64 1 (color n - 1)))
                               (color n - 1)
                             = N.testbit (shl64 1 (color n - 1)) (color n - 1)))).
  assert (Hmono : ∀ r0 rd0 s x, G s x → G (swap_reg (lr_graph lr) r0 rd0 s).2 x).
  { intros r0 rd0 s x [Hgood | (n & Hn & Hc & Hcase)]; [left; assumption|].
    right. exists n. split; [assumption|]. split; [assumption|].
    destruct (swap_reg_mask_kept (lr_graph lr) r0 rd0 s (color n - 1)) as [Hgp Hfp].
    destruct Hcase as [[-> Hbit] | [-> Hbit]]; [left | right]; (split; [reflexivity|]);
      rewrite N.land_spec in Hbit |- *;
      destruct (N.testbit (shl64 1 (color n - 1)) (color n - 1));
      rewrite ?andb_false_r in *; try reflexivity; rewrite andb_true_r in *; auto. }
  exact (visit_blocks_back (swap_reg (lr_graph lr)) (λ st, st.2 = None) G
           (swap_reg_back (lr_graph lr)) Hmono _ _ _ _ Hvisit eq_refl
           bb0 i r is_read Hbb0 Hi Hr).
Qed.

(** X20.  After [allocate_registers] has ended well, a register left in the
    instruction stream is a pseudo register, or is not virtual, or is the
    register [mreg(arch::reg(x))] of [x = ±color] for the color, not 0, of a
    node of the final graph: every virtual register that needed allocation
    has been replaced by the register of its node's color. *)
Theorem allocated_registers_only (fuel : nat) (proc : mprocedure) (res : alloc_result)
    (bb : basic_block) (i : minsn) (r : mreg) (is_read : bool) :
  allocate_registers a native_code fuel proc = Ok res →
  bb ∈ basic_blocks (ar_proc res) → i ∈ instructions bb → (r, is_read) ∈ regs_of i →
  (is_pseudo r = true ∨ is_virt r = false)
  ∨ ∃ n, n ∈ ar_graph res ∧ color n ≠ 0
         ∧ (r = of_arch_reg (Z.of_N (color n)) ∨ r = of_arch_reg (- Z.of_N (color n))%Z).
Proof.
  intros Hrun Hbb Hi Hr.
  destruct (swapped_registers fuel proc res bb i r is_read Hrun Hbb Hi Hr)
    as [H | (n & Hn & Hc & [[H _] | [H _]])]; [left; assumption | right | right];
    exists n; auto.
Qed.

(** *** spill_args *)

(** X22.  [spill_args] returns a procedure that names none of [vreg_vm],
    [vreg_tos] and [vreg_nargs] as it is: no register is allocated and no
    move is put in front of the first block. *)
Theorem spill_args_without_arguments (proc : mprocedure) :
  (∀ bb i r rd, bb ∈ basic_blocks proc → i ∈ instructions bb → (r, rd) ∈ regs_of i →
                r ≠ vreg_vm ∧ r ≠ vreg_tos ∧ r ≠ vreg_nargs) →
  spill_args a native_code proc = Ok proc.
Proof.
  intros H. unfold spill_args. rewrite visit_blocks_id.
  - cbn. destruct proc. reflexivity.
  - intros bb i r rd [regs next] Hbb Hi Hr.
    destruct (H bb i r rd Hbb Hi Hr) as (H1 & H2 & H3). unfold spill_arg_reg.
    destruct (N.eqb_spec r vreg_vm); [contradiction|].
    destruct (N.eqb_spec r vreg_tos); [contradiction|].
    destruct (N.eqb_spec r vreg_nargs); [contradiction|]. reflexivity.
Qed.

End WithBands.

End RewriterFacts.

Module ForwardFacts.
Import Mir Ralloc RewriteFacts.

Section Forward.
Context {S : Type} (f : mreg → bool → S → mreg * S).
Context (Q : S → Prop) (H : mreg → bool → S → Prop).
Hypothesis HQ : ∀ r rd s, Q (f r rd s).2 → Q s.
Hypothesis HH : ∀ r rd s, Q (f r rd s).2 → H r rd (f r rd s).2.
Hypothesis Hmono : ∀ r rd s r0 rd0, H r0 rd0 s → H r0 rd0 (f r rd s).2.

Lemma visit_arg_fwd (o : mop) (s : S) :
  Q (visit_arg f o s).2 → Q s ∧ ∀ r, r ∈ arg_regs o → H r true (visit_arg f o s).2.
Proof.
  destruct o as [|r|z|m]; simpl.
  - intros Hq. split; [assumption|]. intros r Hr. inversion Hr.
  - destruct (is_null r) eqn:Hn.
    + intros Hq. split; [assumption|]. intros r0 Hr. inversion Hr.
    + pose proof (HQ r true s) as Hq0. pose proof (HH r true s) as Hh0.
      destruct (f r true s) as [r1 s1]. simpl in *. intros Hq. split; [auto|].
      intros r0 Hr. apply list_elem_of_singleton in Hr. subst. auto.
  - intros Hq. split; [assumption|]. intros r Hr. inversion Hr.
  - destruct (is_null (base m)) eqn:Hn.
    + intros Hq. split; [assumption|]. intros r0 Hr. inversion Hr.
    + pose proof (HQ (base m) true s) as Hq0. pose proof (HH (base m) true s) as Hh0.
      destruct (f (base m) true s) as [r1 s1]. simpl in *. intros Hq. split; [auto|].
      intros r0 Hr. apply list_elem_of_singleton in Hr. subst. auto.
Qed.

Lemma visit_args_fwd (os : list mop) (s : S) :
  Q (visit_args f os s).2 →
  Q s ∧ ∀ r, r ∈ concat (arg_regs <$> os) → H r true (visit_args f os s).2.
Proof.
  revert s. induction os as [|o os IH]; intros s; simpl.
  - intros Hq. split; [assumption|]. intros r Hr. inversion Hr.
  - pose proof (visit_arg_fwd o s) as Ho.
    destruct (visit_arg f o s) as [o1 s1]. simpl in Ho.
    pose proof (IH s1) as IH1.
    pose proof (λ r, visit_args_preserves (H r true) f os s1
                       (λ r' b s0, Hmono r' b s0 r true)) as Hlift.
    destruct (visit_args f os s1) as [os2 s2]. simpl in *.
    intros Hq. destruct (IH1 Hq) as [Hq1 Hh1]. destruct (Ho Hq1) as [Hq0 Hh0].
    split; [assumption|]. intros r [Hr|Hr]%elem_of_app; auto.
Qed.

Lemma for_each_reg_fwd (i : minsn) (s : S) :
  Q (for_each_reg f i s).2 →
  Q s ∧ ∀ r rd, (r, rd) ∈ regs_of i → H r rd (for_each_reg f i s).2.
Proof.
  unfold for_each_reg, regs_of. pose proof (visit_args_fwd (arg i) s) as Ha.
  destruct (visit_args f (arg i) s) as [args1 s1]. simpl in Ha.
  destruct (is_null (out i)) eqn:Hout; simpl.
  - intros Hq. destruct (Ha Hq) as [Hq0 Hh]. split; [assumption|].
    intros r rd [Hr|Hr]%elem_of_app; [|inversion Hr].
    apply list_elem_of_fmap in Hr as (r0 & [= -> ->] & Hr). auto.
  - pose proof (HQ (out i) false s1) as Hq1. pose proof (HH (out i) false s1) as Hh1.
    pose proof (λ r0 rd0, Hmono (out i) false s1 r0 rd0) as Hm.
    destruct (f (out i) false s1) as [o1 s2]. simpl in *.
    intros Hq. destruct (Ha (Hq1 Hq)) as [Hq0 Hh]. split; [assumption|].
    intros r rd [Hr|Hr]%elem_of_app.
    + apply list_elem_of_fmap in Hr as (r0 & [= -> ->] & Hr). auto.
    + apply list_elem_of_singleton in Hr. injection Hr as -> ->. auto.
Qed.

Lemma insns_fold_kept (l acc : list minsn) (s : S) (r0 : mreg) (rd0 : bool) :
  H r0 rd0 s →
  H r0 rd0
    (foldl (λ '(acc, s) i, let '(i', s') := for_each_reg f i s in (acc ++ [i'], s'))
           (acc, s) l).2.
Proof.
  revert acc s. induction l as [|i l IH]; intros acc s Hh; cbn [foldl]; [assumption|].
  pose proof (for_each_reg_preserves (H r0 rd0) f i s
                (λ r' b s0, Hmono r' b s0 r0 rd0) Hh) as H1.
  destruct (for_each_reg f i s) as [i1 s1]. apply IH. assumption.
Qed.

Lemma visit_insns_fwd (insns : list minsn) (s : S) :
  Q (visit_insns f insns s).2 →
  Q s ∧ ∀ i r rd, i ∈ insns → (r, rd) ∈ regs_of i → H r rd (visit_insns f insns s).2.
Proof.
  unfold visit_insns.
  assert (Hgen : ∀ l s acc,
            Q (foldl (λ '(acc, s) i,
                        let '(i', s') := for_each_reg f i s in (acc ++ [i'], s'))
                     (acc, s) l).2 →
            Q s ∧ ∀ i r rd, i ∈ l → (r, rd) ∈ regs_of i →
                    H r rd (foldl (λ '(acc, s) i,
                                     let '(i', s') := for_each_reg f i s in
                                     (acc ++ [i'], s'))
                                  (acc, s) l).2).
  { induction l as [|i l IH]; intros s0 acc; cbn [foldl].
    - intros Hq. split; [assumption|]. intros i r rd Hi. inversion Hi.
    - pose proof (for_each_reg_fwd i s0) as Hi.
      destruct (for_each_reg f i s0) as [i1 s1]. simpl in Hi.
      intros Hq. destruct (IH s1 (acc ++ [i1]) Hq) as [Hq1 Hh1].
      destruct (Hi Hq1) as [Hq0 Hh0]. split; [assumption|].
      intros x r rd [->|Hx]%elem_of_cons Hr; [|eauto].
      apply insns_fold_kept. auto. }
  apply Hgen.
Qed.

Lemma blocks_fold_kept (l acc : list basic_block) (s : S) (r0 : mreg) (rd0 : bool) :
  H r0 rd0 s →
  H r0 rd0
    (foldl (λ '(acc, s) bb,
              let '(insns, s') := visit_insns f (instructions bb) s in
              (acc ++ [with_instructions insns bb], s'))
           (acc, s) l).2.
Proof.
  revert acc s. induction l as [|bb l IH]; intros acc s Hh; cbn [foldl]; [assumption|].
  pose proof (insns_fold_kept (instructions bb) [] s r0 rd0 Hh) as H1.
  fold (visit_insns f (instructions bb) s) in H1.
  destruct (visit_insns f (instructions bb) s) as [insns s1]. apply IH. assumption.
Qed.

Lemma visit_blocks_fwd (bbs : list basic_block) (s : S) :
  Q (visit_blocks f bbs s).2 →
  ∀ bb i r rd, bb ∈ bbs → i ∈ instructions bb → (r, rd) ∈ regs_of i →
               H r rd (visit_blocks f bbs s).2.
Proof.
  unfold visit_blocks.
  assert (Hgen : ∀ l s acc,
            Q (foldl (λ '(acc, s) bb,
                        let '(insns, s') := visit_insns f (instructions bb) s in
                        (acc ++ [with_instructions insns bb], s'))
                     (acc, s) l).2 →
            Q s ∧ ∀ bb i r rd, bb ∈ l → i ∈ instructions bb → (r, rd) ∈ regs_of i →
                    H r rd (foldl (λ '(acc, s) bb,
                                     let '(insns, s') := visit_insns f (instructions bb) s in
                                     (acc ++ [with_instructions insns bb], s'))
                                  (acc, s) l).2).
  { induction l as [|b l IH]; intros s0 acc; cbn [foldl].
    - intros Hq. split; [assumption|]. intros bb i r rd Hbb. inversion Hbb.
    - pose proof (visit_insns_fwd (instructions b) s0) as Hb.
      destruct (visit_insns f (instructions b) s0) as [insns s1]. simpl in Hb.
      intros Hq. destruct (IH s1 (acc ++ [with_instructions insns b]) Hq) as [Hq1 Hh1].
      destruct (Hb Hq1) as [Hq0 Hh0]. split; [assumption|].
      intros bb i r rd [->|Hbb]%elem_of_cons Hi Hr; [|eauto].
      apply blocks_fold_kept. eauto. }
  intros Hq. apply (Hgen bbs s [] Hq).
Qed.

End Forward.

End ForwardFacts.

Module FinishFacts.
Import Mir Ralloc GraphSpec ColorAux BuildSpec AllocSpec BitsetFacts WordFacts BuildFacts
  TryColorFacts AllocFacts RewriteFacts PipelineFacts ForwardFacts RewriterFacts.

Section WithBands.
Context {RB : reg_bands}.
Variable a : Arch.abi.
Variable native_code : Arch.native_reg → Z.

(** X23.  When the last stage of [allocate_registers] ends well, every
    register of the stream it was given that needed allocation (virtual and
    not pseudo) has a node with a color, and the bit [color - 1] is set in
    the mask of its class, [used_fp_mask] or [used_gp_mask] (for colors up to
    64, the width of the masks). *)
Theorem finish_allocation_records_colors (lr : loop_result) (res : alloc_result)
    (bb : basic_block) (i : minsn) (r : mreg) (is_read : bool) :
  (∀ n, n ∈ lr_graph lr → color n ≤ 64) →
  finish_allocation lr = Ok res →
  bb ∈ basic_blocks (lr_proc lr) → i ∈ instructions bb → (r, is_read) ∈ regs_of i →
  is_pseudo r = false → is_virt r = true →
  ∃ n, lr_graph lr !! uid r = Some n ∧ color n ≠ 0
       ∧ N.testbit (if is_fp r then used_fp_mask (ar_proc res)
                    else used_gp_mask (ar_proc res)) (color n - 1) = true.
Proof.
  intros Hcol Hfin Hbb Hi Hr Hps Hv.
  destruct (finish_allocation_masks lr res Hfin) as (bbs & Hvisit & _ & _).
  set (gr := lr_graph lr) in *.
  set (Hh := λ (x : mreg) (_ : bool) (st : N * N * option failure),
               is_pseudo x = false → is_virt x = true →
               ∃ n, gr !! uid x = Some n ∧ color n ≠ 0
                    ∧ N.testbit (if is_fp x then st.1.2 else st.1.1) (color n - 1) = true).
  assert (H : Hh r is_read
                (visit_blocks (swap_reg gr) (basic_blocks (lr_proc lr))
                   (used_gp_mask (lr_proc lr), used_fp_mask (lr_proc lr), None)).2).
  { apply (visit_blocks_fwd (swap_reg gr) (λ st, st.2 = None) Hh) with (bb := bb) (i := i);
      try assumption.
    - intros x rd [[gp fp] failed]. unfold swap_reg.
      destruct (negb (is_pseudo x) && is_virt x); [|auto].
      destruct (gr !! uid x) as [n|]; [|discriminate].
      destruct (Z.of_N (color n) =? 0)%Z; [discriminate|].
      destruct (is_fp x); auto.
    - intros x rd [[gp fp] failed] Hq Hpx Hvx. unfold swap_reg in *.
      rewrite Hpx, Hvx in *. simpl in *.
      destruct (gr !! uid x) as [n|] eqn:Hn; [|discriminate].
      destruct (Z.eqb_spec (Z.of_N (color n)) 0) as [Hz|Hz]; [discriminate|].
      exists n. split; [reflexivity|]. split; [lia|].
      assert (Hle : color n ≤ 64).
      { apply Hcol. apply list_elem_of_lookup. eauto. }
      assert (Hbit : N.testbit (shl64 1 (color n - 1)) (color n - 1) = true).
      { rewrite shl64_one_bit, N.eqb_refl. apply N.ltb_lt. lia. }
      destruct (is_fp x); simpl; rewrite N.lor_spec, Hbit; apply orb_true_r.
    - intros x rd st r0 rd0 Hr0 Hp0 Hv0.
      destruct (Hr0 Hp0 Hv0) as (n & Hn & Hc & Hbit). exists n.
      split; [assumption|]. split; [assumption|].
      destruct (swap_reg_mask_kept gr x rd st (color n - 1)) as [Hgp Hfp].
      destruct (is_fp r0); auto.
    - rewrite Hvisit. reflexivity. }
  rewrite Hvisit in H. apply H; assumption.
Qed.

(** X24.  The graph [allocate_registers] ends with is colored throughout:
    every node whose row is not empty has a color, which is at most 64, and
    no node is left to be spilled. *)
Theorem final_graph_is_colored (fuel : nat) (proc : mprocedure) (res : alloc_result)
    (j : nat) (n : graph_node) :
  bands_ok RB → Arch.num_gp_reg a < 64 → Arch.num_fp_reg a < 64 →
  allocate_registers a native_code fuel proc = Ok res →
  ar_graph res !! j = Some n → vtx n ≠ 0 →
  color n ≠ 0 ∧ color n ≤ 64.
Proof.
  intros Hok HK HM Hrun Hj Hv.
  destruct (allocate_registers_stages a native_code fuel proc res Hrun)
    as (proc1 & proc2 & g & K & M & lr & Hbg & HKle & HMle & Hloop & Hfin).
  destruct (finish_allocation_Ok lr res Hfin) as (bbs & gp & fp & _ & Hg & _).
  destruct (build_graph_built _ _ _ Hbg) as [Hb Hl].
  assert (Hl' : N.of_nat (length g) < 2 ^ 64).
  { eapply N.lt_trans; [exact Hl | reflexivity]. }
  pose proof (built_wf g Hok Hb) as Hwf.
  destruct (color_loop_final a max_steps fuel proc2 g g K M _ lr Hok HK HM
              Hwf Hwf Hl' Hl' HKle HMle Hloop)
    as (g0 & K0 & M0 & Hwf0 & Hl0 & HK0 & HM0 & Htc).
  destruct (try_color_fuel_inv _ g0 (lr_graph lr) K0 M0 0 0 HK0 HM0 Hl0 Hwf0 Htc)
    as (_ & Hwf' & _ & Hall).
  rewrite Hg in Hj. split.
  - apply (Hall eq_refl eq_refl j n Hj Hv).
  - apply (wf_colors _ Hwf' j n Hj).
Qed.

End WithBands.

End FinishFacts.

Module FinishWitnesses.
Import Mir Ralloc GraphSpec BuildSpec AllocSpec Sample SampleFacts FinishFacts.

Lemma finish_allocation_records_colors_witness :
  ∃ p g lr res,
    build_graph (RB := bands) straight_line = Some (p, g)
    ∧ color_loop (RB := bands) Arch.MS64 max_steps 100 p g g 7 6 (initial_state p) = Ok lr
    ∧ finish_allocation (RB := bands) lr = Ok res
    ∧ ∃ n, lr_graph lr !! uid 74 = Some n ∧ color n ≠ 0
           ∧ N.testbit (if is_fp (reg_bands := bands) 74
                        then used_fp_mask (ar_proc res)
                        else used_gp_mask (ar_proc res)) (color n - 1) = true.
Proof.
  eexists _, _, _, _.
  split; [vm_compute; reflexivity|].
  split; [vm_compute; reflexivity|].
  split; [vm_compute; reflexivity|].
  eapply (finish_allocation_records_colors (RB := bands) _ _ _ _ 74 false).
  - match goal with
    | |- ∀ n, n ∈ ?g → _ =>
        assert (Hall : forallb (λ n, color n <=? 64) g = true)
          by (vm_compute; reflexivity)
    end.
    intros n Hn%list_elem_of_In. apply N.leb_le.
    exact (proj1 (forallb_forall _ _) Hall n Hn).
  - vm_compute; reflexivity.
  - vm_compute. apply list_elem_of_here.
  - vm_compute. apply list_elem_of_further, list_elem_of_here.
  - vm_compute. apply list_elem_of_here.
  - vm_compute; reflexivity.
  - vm_compute; reflexivity.
Defined.

Lemma final_graph_is_colored_witness :
  ∃ res n,
    allocate_registers (RB := bands) Arch.MS64 native_code 100 straight_line = Ok res
    ∧ ar_graph res !! 72%nat = Some n
    ∧ color n ≠ 0 ∧ color n ≤ 64.
Proof.
  eexists _, _.
  split; [vm_compute; reflexivity|].
  split; [vm_compute; reflexivity|].
  eapply (final_graph_is_colored (RB := bands) Arch.MS64 native_code 100 straight_line
            _ 72%nat).
  - exact bands_ok_sample.
  - vm_compute; reflexivity.
  - vm_compute; reflexivity.
  - vm_compute; reflexivity.
  - vm_compute; reflexivity.
  - vm_compute; discriminate.
Defined.

End FinishWitnesses.

Module MoreWitnesses.
Import Mir Ralloc GraphSpec BuildSpec SlotSpec AllocSpec Sample SampleFacts BuildFacts
  GraphSlots SlotFacts PlaceFacts RewriterFacts.

Lemma try_color_keeps_graph_witness :
  ∃ p g g' s n,
    build_graph (RB := bands) one_spill = Some (p, g)
    ∧ try_color g 1 1 = Some (g', s)
    ∧ g !! 9%nat = Some n ∧ color n = 2
    ∧ length g' = length g
    ∧ ∃ n', g' !! 9%nat = Some n' ∧ vtx n' = vtx n ∧ node_is_fp n' = node_is_fp n
            ∧ (color n ≠ 0 → n' = n).
Proof.
  eexists _, _, _, _, _.
  split; [vm_compute; reflexivity|].
  split; [vm_compute; reflexivity|].
  split; [vm_compute; reflexivity|].
  split; [vm_compute; reflexivity|].
  assert (Hbg : build_graph (RB := bands) one_spill = Some (_, _))
    by (vm_compute; reflexivity).
  destruct (build_graph_built _ _ _ Hbg) as [Hb Hl].
  pose proof (built_wf _ bands_ok_sample Hb) as Hwf.
  match type of Hwf with
  | wf_graph ?g0 => eapply (try_color_keeps_graph g0 _ 1 1 _ 9%nat _ Hwf)
  end.
  - reflexivity.
  - reflexivity.
  - eapply N.lt_trans; [exact Hl | reflexivity].
  - vm_compute; reflexivity.
  - vm_compute; reflexivity.
Defined.

Lemma try_color_slots_apart_witness :
  ∃ p g g' s nu nv,
    build_graph (RB := bands) one_spill = Some (p, g)
    ∧ try_color g 1 1 = Some (g', s)
    ∧ g' !! 72%nat = Some nu ∧ g' !! 74%nat = Some nv
    ∧ spill_slot nu = 15%Z
    ∧ (1 ≤ spill_slot nu)%Z ∧ spill_slot nu ≠ spill_slot nv.
Proof.
  eexists _, _, _, _, _, _.
  split; [vm_compute; reflexivity|].
  split; [vm_compute; reflexivity|].
  split; [vm_compute; reflexivity|].
  split; [vm_compute; reflexivity|].
  split; [vm_compute; reflexivity|].
  assert (Hbg : build_graph (RB := bands) one_spill = Some (_, _))
    by (vm_compute; reflexivity).
  destruct (build_graph_built _ _ _ Hbg) as [Hb Hl].
  pose proof (built_wf _ bands_ok_sample Hb) as Hwf.
  match type of Hwf with
  | wf_graph ?g0 => eapply (try_color_slots_apart g0 _ 1 1 _ 72%nat 74%nat _ _ Hwf)
  end.
  - reflexivity.
  - reflexivity.
  - eapply N.lt_trans; [exact Hl | reflexivity].
  - exact (build_graph_no_slots _ _ _ Hbg).
  - vm_compute; reflexivity.
  - vm_compute; reflexivity.
  - vm_compute; reflexivity.
  - lia.
  - vm_compute; reflexivity.
  - vm_compute. discriminate.
Defined.

Lemma place_reuses_entry_witness :
  ∃ d l st',
    place (RB := bands) 72 (replicate 4 no_entry) 1 0 (initial_state load_only)
    = (true, d, l, st')
    ∧ place (RB := bands) 72 l 3 8 (initial_state load_only)
      = (true, d, l, initial_state load_only).
Proof.
  eexists _, _, _. split; [vm_compute; reflexivity|].
  eapply (place_reuses_entry (RB := bands) 72 (replicate 4 no_entry) _ 1 0
            (initial_state load_only)).
  - reflexivity.
  - vm_compute; reflexivity.
Defined.

Lemma rewrite_blocks_without_spills_witness :
  ∃ p g,
    build_graph (RB := bands) straight_line = Some (p, g)
    ∧ rewrite_blocks (RB := bands) Arch.MS64 5 g 0 (basic_blocks straight_line)
        (initial_state straight_line)
      = Ok (basic_blocks straight_line, initial_state straight_line).
Proof.
  eexists _, _. split; [vm_compute; reflexivity|].
  assert (Hbg : build_graph (RB := bands) straight_line = Some (_, _))
    by (vm_compute; reflexivity).
  eapply (rewrite_blocks_without_spills (RB := bands) Arch.MS64 5 _ 0).
  - exact (build_graph_no_slots _ _ _ Hbg).
  - reflexivity.
  - repeat constructor.
Defined.

Lemma allocated_registers_only_witness :
  ∃ res bb i,
    allocate_registers (RB := bands) Arch.MS64 native_code 100 straight_line = Ok res
    ∧ basic_blocks (ar_proc res) !! 0%nat = Some bb
    ∧ instructions bb !! 2%nat = Some i
    ∧ regs_of i = [(9, true); (8, true); (9, false)]
    ∧ ((is_pseudo (RB := bands) 9 = true ∨ is_virt (reg_bands := bands) 9 = false)
       ∨ ∃ n, n ∈ ar_graph res ∧ color n ≠ 0
              ∧ (9 = of_arch_reg (reg_bands := bands) (Z.of_N (color n))
                 ∨ 9 = of_arch_reg (reg_bands := bands) (- Z.of_N (color n))%Z)).
Proof.
  eexists _, _, _.
  split; [vm_compute; reflexivity|].
  split; [vm_compute; reflexivity|].
  split; [vm_compute; reflexivity|].
  split; [vm_compute; reflexivity|].
  eapply (allocated_registers_only (RB := bands) Arch.MS64 native_code 100 straight_line
            _ _ _ 9 true).
  - vm_compute; reflexivity.
  - vm_compute. apply list_elem_of_here.
  - vm_compute. apply list_elem_of_further, list_elem_of_further, list_elem_of_here.
  - vm_compute. apply list_elem_of_here.
Defined.

Lemma spill_args_without_arguments_witness :
  spill_args (RB := bands) Arch.MS64 native_code straight_line = Ok straight_line.
Proof.
  apply (spill_args_without_arguments (RB := bands) Arch.MS64 native_code straight_line).
  assert (H : Forall (λ bb, Forall (λ i, Forall (λ x : mreg * bool,
                 x.1 ≠ vreg_vm (reg_bands := bands) ∧ x.1 ≠ vreg_tos (reg_bands := bands)
                 ∧ x.1 ≠ vreg_nargs (reg_bands := bands)) (regs_of i))
                 (instructions bb)) (basic_blocks straight_line)).
  { repeat constructor; discriminate. }
  intros bb i r rd Hbb%list_elem_of_In Hi%list_elem_of_In Hr%list_elem_of_In.
  rewrite Forall_forall in H. specialize (H bb Hbb).
  rewrite Forall_forall in H. specialize (H i Hi).
  rewrite Forall_forall in H. exact (H (r, rd) Hr).
Defined.

End MoreWitnesses.

(** ** What the spill rewriter returns *)

Module StopFacts.
Import Mir Ralloc AllocSpec SpillSpec RewriteFacts.

Section WithBands.
Context {RB : reg_bands}.
Variable a : Arch.abi.

(** X26.  The spill rewriter returns only when no instruction names a
    register the graph has spilled, and then it returns the blocks it was
    given, with the register counters and [num_spill_slots] as they were: a
    spilled operand takes it into [spill_and_swap], which stops the run at
    [assume_unreachable()], so the reloads and spills of lines 545 to 558 are
    never emitted. *)
Theorem rewriter_returns_only_without_spills (fuel : nat) (gr : graph) (slot_offset : Z)
    (bbs bbs' : list basic_block) (st st' : rw_state) :
  rewrite_blocks a fuel gr slot_offset bbs st = Ok (bbs', st') →
  bbs' = bbs ∧ same_slots st st'
  ∧ ∀ bb i r rd, bb ∈ bbs → i ∈ instructions bb → (r, rd) ∈ regs_of i →
                 spilled gr r = false.
Proof. apply rewrite_blocks_Ok. Qed.

End WithBands.

End StopFacts.

Module StopWitnesses.
Import Mir Ralloc AllocSpec SpillSpec Sample StopFacts.

Lemma rewriter_returns_only_without_spills_witness :
  ∃ p g g' bbs' st',
    build_graph (RB := bands) straight_line = Some (p, g)
    ∧ try_color g 7 6 = Some (g', (0, 0))
    ∧ rewrite_blocks (RB := bands) Arch.MS64 5 g' 0 (basic_blocks p) (initial_state p)
      = Ok (bbs', st')
    ∧ bbs' = basic_blocks p ∧ same_slots (initial_state p) st'
    ∧ ∀ bb i r rd, bb ∈ basic_blocks p → i ∈ instructions bb → (r, rd) ∈ regs_of i →
                   spilled (RB := bands) g' r = false.
Proof.
  eexists _, _, _, _, _.
  split; [vm_compute; reflexivity|].
  split; [vm_compute; reflexivity|].
  split; [vm_compute; reflexivity|].
  eapply (rewriter_returns_only_without_spills (RB := bands) Arch.MS64 5 _ 0).
  vm_compute; reflexivity.
Defined.

End StopWitnesses.
